(** * Remove-Silence-From-Audio: the audio core of [utils/audio.ts]

    A shallow embedding of [analyzeSilence], [bufferToWav],
    [createProcessedBuffer] and [processAudio], and the properties of the
    design document checked against it; then of the code around them:
    [formatTime], [generateUUID] and computations of the [Waveform] view.

    Conventions of the embedding.
    - A JavaScript number that holds a sample index, a length or a channel
      count is a [Z]; a number that holds a time in seconds or a sample
      value is the rational [Q] it stands for.
    - The detector's quotients and comparisons, the sample values and the
      geometry of the waveform are computed with exactly.  Where the floor
      of a product or of a quotient is taken ([createProcessedBuffer],
      [processAudio], [formatTime]) the result is first rounded to the
      nearest IEEE double, [double], as the floor depends on it.
    - A [Float32Array] is a [list Q]; an array of objects is a [list].
    - An exception of the platform is the [Throw] outcome of [result]. *)

From Stdlib Require Import ZArith QArith Qround Qabs Qminmax Qpower Lia Lqa Bool Ascii.
From stdpp Require Import base option list sorting gmap strings pretty.

Open Scope Z_scope.

(** ** Outcomes *)

Inductive exn : Type :=
  | IndexSizeError
  | NotSupportedError
  | RangeError
  | TypeError.

(** [Diverge] is the outcome of a loop that was not given enough fuel; the
    theorems below show that it never arises. *)
Inductive result (A : Type) : Type :=
  | Ok (a : A)
  | Throw (e : exn)
  | Diverge.

Arguments Ok {A} a.
Arguments Throw {A} e.
Arguments Diverge {A}.

#[global] Instance result_ret : MRet result := λ A a, Ok a.
#[global] Instance result_bind : MBind result :=
  λ A B f m, match m with
             | Ok a => f a
             | Throw e => Throw e
             | Diverge => Diverge
             end.

(** ** Numbers *)

Definition Qltb (x y : Q) : bool := negb (Qle_bool y x).

Definition len {A : Type} (a : list A) : Z := Z.of_nat (length a).

(** [a[i]]: [None] stands for [undefined]. *)
Definition read {A : Type} (a : list A) (i : Z) : option A :=
  if i <? 0 then None else a !! Z.to_nat i.

(** ** Data model *)

Record Region : Type := mkRegion { start : Q; end_ : Q }.

(** The attributes of a Web Audio [AudioBuffer] and its channel storage;
    [numberOfChannels] is the number of channel arrays. *)
Record AudioBuffer : Type := mkAudioBuffer {
  sampleRate : Z;
  bufLength : Z;
  channelData : list (list Q)
}.

Definition numberOfChannels (b : AudioBuffer) : Z := len (channelData b).

Definition duration (b : AudioBuffer) : Q :=
  inject_Z (bufLength b) / inject_Z (sampleRate b).

(** [buffer.getChannelData(c)] raises IndexSizeError for a channel that
    does not exist. *)
Definition getChannelData (b : AudioBuffer) (c : Z) : result (list Q) :=
  match read (channelData b) c with
  | Some d => Ok d
  | None => Throw IndexSizeError
  end.

(** The invariant of the sample-buffer data model: every channel holds
    [bufLength] samples and the sample rate is positive. *)
Definition SampleBuffer_inv (b : AudioBuffer) : Prop :=
  Forall (λ ch, len ch = bufLength b) (channelData b) ∧ 0 < sampleRate b.

(** What the platform guarantees of every [AudioBuffer] it hands out: at
    least one channel and at least one sample frame. *)
Definition wf_AudioBuffer (b : AudioBuffer) : Prop :=
  SampleBuffer_inv b ∧ 1 ≤ numberOfChannels b ∧ 1 ≤ bufLength b.

(** ** analyzeSilence *)

Definition threshold : Q := 0.015.
Definition step : Z := 200.

(** The mutable locals of [analyzeSilence]. *)
Record scan : Type := mkScan {
  isSilent : bool;
  silenceStart : Z;
  silenceRegions : list Region
}.

(** [Math.abs(rawData[i]) < threshold]; for [undefined] the absolute value
    is NaN and the comparison is false. *)
Definition below_threshold (x : option Q) : bool :=
  match x with
  | Some v => Qltb (Qabs v) threshold
  | None => false
  end.

(** The body of the [for] loop at index [i]. *)
Definition scan_body (rawData : list Q) (sr : Z) (minDuration : Q)
    (i : Z) (st : scan) : scan :=
  if below_threshold (read rawData i) then
    if negb (isSilent st) then mkScan true i (silenceRegions st) else st
  else
    if isSilent st then
      let duration := (inject_Z (i - silenceStart st) / inject_Z sr)%Q in
      mkScan false (silenceStart st)
        (if Qle_bool minDuration duration
         then silenceRegions st ++
              [mkRegion (inject_Z (silenceStart st) / inject_Z sr)
                        (inject_Z i / inject_Z sr)]
         else silenceRegions st)
    else st.

(** [for (let i = 0; i < rawData.length; i += step)], entered at [i]. *)
Fixpoint scan_loop (fuel : nat) (rawData : list Q) (sr : Z) (minDuration : Q)
    (i : Z) (st : scan) : result scan :=
  match fuel with
  | O => Diverge
  | S fuel' =>
      if i <? len rawData
      then scan_loop fuel' rawData sr minDuration (i + step)
             (scan_body rawData sr minDuration i st)
      else Ok st
  end.

Definition analyzeSilence (buffer : AudioBuffer) (minDuration : Q)
    : result (list Region) :=
  rawData ← getChannelData buffer 0;
  let sr := sampleRate buffer in
  st ← scan_loop (S (length rawData)) rawData sr minDuration 0
         (mkScan false 0 []);
  if isSilent st then
    let duration := (inject_Z (len rawData - silenceStart st) / inject_Z sr)%Q in
    if Qle_bool minDuration duration
    then Ok (silenceRegions st ++
             [mkRegion (inject_Z (silenceStart st) / inject_Z sr)
                       (inject_Z (len rawData) / inject_Z sr)])
    else Ok (silenceRegions st)
  else Ok (silenceRegions st).

(** ** The detector as a two-state machine

    The design document describes the detector as a machine over the stream
    of visited samples.  [detectSilence] follows that description; it is
    compared with [analyzeSilence] below. *)

Inductive detector_state : Type :=
  | Sounding
  | Silent (silenceStart : Z).

(** The duration test and the region it lets through, for a silent span
    that starts at sample [silenceStart] and is closed at sample [boundary]. *)
Definition emit (sr : Z) (minDuration : Q) (silenceStart boundary : Z)
    : list Region :=
  if Qle_bool minDuration (inject_Z (boundary - silenceStart) / inject_Z sr)
  then [mkRegion (inject_Z silenceStart / inject_Z sr)
                 (inject_Z boundary / inject_Z sr)]
  else [].

Definition transition (sr : Z) (minDuration : Q) (st : detector_state)
    (currentIndex : Z) (sample : Q) : detector_state * list Region :=
  match st, Qltb (Qabs sample) threshold with
  | Sounding, true => (Silent currentIndex, [])
  | Sounding, false => (Sounding, [])
  | Silent s, true => (Silent s, [])
  | Silent s, false => (Sounding, emit sr minDuration s currentIndex)
  end.

Fixpoint run_machine (sr : Z) (minDuration : Q) (stream : list (Z * Q))
    (st : detector_state) : detector_state * list Region :=
  match stream with
  | [] => (st, [])
  | (i, x) :: rest =>
      let '(st1, out1) := transition sr minDuration st i x in
      let '(st2, out2) := run_machine sr minDuration rest st1 in
      (st2, out1 ++ out2)
  end.

Definition flush (sr : Z) (minDuration : Q) (length : Z)
    (st : detector_state) : list Region :=
  match st with
  | Sounding => []
  | Silent s => emit sr minDuration s length
  end.

(** The samples of a channel the detector visits, each with its index: those
    whose index is a multiple of [step].  [i] is the index of the head. *)
Fixpoint visited_from (i : Z) (samples : list Q) : list (Z * Q) :=
  match samples with
  | [] => []
  | x :: rest =>
      (if i mod step =? 0 then [(i, x)] else []) ++ visited_from (i + 1) rest
  end.

Definition visited (samples : list Q) : list (Z * Q) := visited_from 0 samples.

Definition detectSilence (b : AudioBuffer) (minDuration : Q) : list Region :=
  let reference := default [] (channelData b !! 0%nat) in
  let '(st, out) :=
    run_machine (sampleRate b) minDuration (visited reference) Sounding in
  out ++ flush (sampleRate b) minDuration (bufLength b) st.

(** The silent spans the machine closes, in sample indices and before the
    duration test: [run_spans] mirrors [run_machine], [all_spans] adds the
    span the end-of-stream flush closes at [length]. *)
Fixpoint run_spans (stream : list (Z * Q)) (st : detector_state)
    : detector_state * list (Z * Z) :=
  match stream with
  | [] => (st, [])
  | (i, x) :: rest =>
      let st1 :=
        match st, Qltb (Qabs x) threshold with
        | Sounding, true => Silent i
        | Silent s, true => Silent s
        | _, false => Sounding
        end in
      let out1 :=
        match st, Qltb (Qabs x) threshold with
        | Silent s, false => [(s, i)]
        | _, _ => []
        end in
      let '(st2, out2) := run_spans rest st1 in
      (st2, out1 ++ out2)
  end.

Definition flush_span (length : Z) (st : detector_state) : list (Z * Z) :=
  match st with
  | Sounding => []
  | Silent s => [(s, length)]
  end.

Definition all_spans (samples : list Q) (length : Z) : list (Z * Z) :=
  let '(st, out) := run_spans (visited samples) Sounding in
  out ++ flush_span length st.

Definition emit_span (sr : Z) (minDuration : Q) (p : Z * Z) : list Region :=
  emit sr minDuration p.1 p.2.

(** The machine state a set of loop variables stands for. *)
Definition abstract (st : scan) : detector_state :=
  if isSilent st then Silent (silenceStart st) else Sounding.

(** What holds of the spans closed so far when the scan stands before
    index [i] in state [st]. *)
Definition spans_inv (i : Z) (st : detector_state) (acc : list (Z * Z)) : Prop :=
  Forall (λ p, (step | p.1) ∧ (step | p.2) ∧ 0 ≤ p.1 ∧ p.1 < p.2 ∧ p.2 < i) acc ∧
  StronglySorted (λ p q, p.2 < q.1) acc ∧
  match st with
  | Sounding => True
  | Silent s => (step | s) ∧ 0 ≤ s ∧ s < i ∧ Forall (λ p, p.2 < s) acc
  end.

Definition region_of (sr : Z) (p : Z * Z) : Region :=
  mkRegion (inject_Z p.1 / inject_Z sr) (inject_Z p.2 / inject_Z sr).

Definition passes (sr : Z) (minDuration : Q) (p : Z * Z) : bool :=
  Qle_bool minDuration (inject_Z (p.2 - p.1) / inject_Z sr).

(** ** Sample inputs *)

(** A mono buffer of 500 frames at 8000 Hz: 250 silent frames, then 250
    frames at amplitude 0.9. *)
Definition pause_then_tone : AudioBuffer :=
  mkAudioBuffer 8000 500 [repeat 0%Q 250 ++ repeat 0.9%Q 250].

(** A mono buffer of 500 frames at 8000 Hz: 250 frames at amplitude 0.9, then
    250 silent frames. *)
Definition tone_then_pause : AudioBuffer :=
  mkAudioBuffer 8000 500 [repeat 0.9%Q 250 ++ repeat 0%Q 250].

(** A stereo buffer of 5 frames at 8000 Hz. *)
Definition five_frames : AudioBuffer :=
  mkAudioBuffer 8000 5
    [[0.1; 0.2; 0.3; 0.4; 0.5]%Q; [-0.1; -0.2; -0.3; -0.4; -0.5]%Q].

(** A mono buffer of 2 frames at 8000 Hz. *)
Definition two_frames : AudioBuffer := mkAudioBuffer 8000 2 [[0.5; 0.25]%Q].

(** A mono buffer of one full-scale frame at 8000 Hz. *)
Definition one_frame : AudioBuffer := mkAudioBuffer 8000 1 [[1%Q]].

(** A mono buffer of 500 silent frames at 8000 Hz. *)
Definition silence : AudioBuffer := mkAudioBuffer 8000 500 [replicate 500 0%Q].

(** ** Doubles

    Times are JavaScript numbers: IEEE 754 doubles.  A time is given here
    by the rational it is, and where the program multiplies or divides two
    numbers the result is rounded to the nearest double, as the hardware
    does.  (The detector's own arithmetic is compared with the design in
    exact arithmetic; see the theorems on [analyzeSilence].) *)

Definition pow2 (e : Z) : Q := (2 ^ e)%Q.

(** The binade of a positive number: the [k] with [2^k <= q < 2^(k+1)]. *)
Definition binade (q : Q) : Z :=
  let k := Z.log2 (Qnum q) - Z.log2 (Zpos (Qden q)) in
  if Qle_bool (pow2 k) q then k else k - 1.

(** Rounding to the nearest integer, a tie to the even one. *)
Definition round_half_even (x : Q) : Z :=
  let f := Qfloor x in
  match (x - inject_Z f ?= 1 # 2)%Q with
  | Lt => f
  | Gt => f + 1
  | Eq => if Z.even f then f else f + 1
  end.

(** The exponent of the unit in the last place of the doubles around a
    positive [q]: 53 significant bits, and 2^-1074 in the subnormal
    range. *)
Definition ulp_exponent (q : Q) : Z := Z.max (binade q - 52) (-1074).

Definition double_of_positive (q : Q) : Q :=
  let e := ulp_exponent q in
  inject_Z (round_half_even (q / pow2 e)) * pow2 e.

(** The double nearest to [q], a tie going to the even significand: the
    value of an arithmetic operation whose exact result is [q].  For a [q]
    of magnitude 2^1024 - 2^970 or more the operation gives an infinity,
    where this function gives a number of that magnitude; the gap-remover
    only compares such a sample index with others, or makes it the bound of
    a keep interval of 2^970 samples or more, which the bounds on the new
    length in the theorems exclude. *)
Definition double (q : Q) : Q :=
  match Qnum q with
  | Z0 => 0
  | Zpos _ => double_of_positive q
  | Zneg _ => - double_of_positive (- q)
  end.

(** ** Platform operations of the gap-remover *)

(** [for (const x of xs) body], with an exception ending the loop. *)
Fixpoint for_of {A S : Type} (body : S → A → result S) (xs : list A) (s : S)
    : result S :=
  match xs with
  | [] => Ok s
  | x :: rest => s' ← body s x; for_of body rest s'
  end.

(** [Array.prototype.sort(compare)] is stable and puts [a] after [b] when
    [compare(a, b) > 0]; for a comparator that orders its arguments
    consistently the result is the one stable ordering, built here by
    insertion. *)
Fixpoint sort_insert {A : Type} (compare : A → A → Q) (a : A) (sorted : list A)
    : list A :=
  match sorted with
  | [] => [a]
  | b :: rest =>
      if Qltb 0 (compare a b) then b :: sort_insert compare a rest
      else a :: b :: rest
  end.

Definition array_sort {A : Type} (compare : A → A → Q) (xs : list A) : list A :=
  foldr (sort_insert compare) [] xs.

(** The index a relative [begin] or [end] of [subarray] denotes in an array
    of [n] elements: a negative index counts from the end, and the result is
    clamped to [0, n]. *)
Definition clamp_index (n i : Z) : Z :=
  if i <? 0 then Z.max (n + i) 0 else Z.min i n.

(** [a.subarray(begin, end)]: the elements the view ranges over. *)
Definition subarray {A : Type} (a : list A) (begin end_ : Z) : list A :=
  let b := clamp_index (len a) begin in
  let e := clamp_index (len a) end_ in
  take (Z.to_nat (Z.max (e - b) 0)) (drop (Z.to_nat b) a).

(** [target.set(source, offset)] of a typed array, and the writes of a
    [DataView]: RangeError when the source does not fit. *)
Definition array_set {A : Type} (target source : list A) (offset : Z)
    : result (list A) :=
  if (offset <? 0) || (len target <? offset + len source)
  then Throw RangeError
  else Ok (take (Z.to_nat offset) target ++ source ++
           drop (Z.to_nat (offset + len source)) target).

(** Allocation of an [AudioBuffer], zero-filled.  The Web Audio API makes
    [BaseAudioContext.createBuffer] and the [AudioBuffer] constructor throw
    NotSupportedError when the number of channels or the length in frames is
    not at least 1.  (They also reject a sample rate outside the supported
    range; both callers pass the rate of an existing buffer.)  The length
    is an [unsigned long] of the platform: this is the allocation for a
    length below [2 ^ 32], and the theorems that let the length vary bound
    it so. *)
Definition allocate (numberOfChannels length sampleRate : Z) : result AudioBuffer :=
  if (1 <=? numberOfChannels) && (1 <=? length)
  then Ok (mkAudioBuffer sampleRate length
             (replicate (Z.to_nat numberOfChannels)
                (replicate (Z.to_nat length) 0%Q)))
  else Throw NotSupportedError.

(** An [AudioContext], of which only the [createBuffer] method is used. *)
Inductive AudioContext : Type := audio_context.

(** [context.createBuffer(numberOfChannels, length, sampleRate)]. *)
Definition createBuffer (context : AudioContext)
    (numberOfChannels length sampleRate : Z) : result AudioBuffer :=
  allocate numberOfChannels length sampleRate.

(** [new AudioBuffer({length, numberOfChannels, sampleRate})]. *)
Definition new_AudioBuffer (length numberOfChannels sampleRate : Z)
    : result AudioBuffer :=
  allocate numberOfChannels length sampleRate.

(** The samples written through [newBuffer.getChannelData(c)] land in the
    buffer: channel [c] of [b] replaced by [data]. *)
Definition with_channel (b : AudioBuffer) (c : Z) (data : list Q) : AudioBuffer :=
  mkAudioBuffer (sampleRate b) (bufLength b)
    (<[Z.to_nat c := data]> (channelData b)).

(** ** createProcessedBuffer and processAudio *)

(** A keep region, in sample indices. *)
Record KeepRegion : Type := mkKeep { keep_start : Z; keep_end : Z }.

(** The locals [keepRegions] and [cursor]. *)
Record cut : Type := mkCut { keepRegions : list KeepRegion; cursor : Z }.

(** The body of [for (const region of sortedSilence)].  The products
    [region.start * sampleRate] and [region.end * sampleRate] are products
    of doubles, rounded before [Math.floor] sees them. *)
Definition cut_body (sr : Z) (st : cut) (region : Region) : cut :=
  let regionStartSample := Qfloor (double (start region * inject_Z sr)) in
  let regionEndSample := Qfloor (double (end_ region * inject_Z sr)) in
  mkCut
    (if cursor st <? regionStartSample
     then keepRegions st ++ [mkKeep (cursor st) regionStartSample]
     else keepRegions st)
    regionEndSample.

(** The contents of [newData] and the local [pointer]. *)
Record paste : Type := mkPaste { contents : list Q; pointer : Z }.

(** The body of [for (const reg of keepRegions)]. *)
Definition paste_body (oldData : list Q) (st : paste) (reg : KeepRegion)
    : result paste :=
  let len := keep_end reg - keep_start reg in
  let chunk := subarray oldData (keep_start reg) (keep_end reg) in
  written ← array_set (contents st) chunk (pointer st);
  Ok (mkPaste written (pointer st + len)).

(** The body of [for (let c = 0; c < channels; c++)]. *)
Definition channel_body (originalBuffer : AudioBuffer)
    (keepRegions : list KeepRegion) (newBuffer : AudioBuffer) (c : Z)
    : result AudioBuffer :=
  oldData ← getChannelData originalBuffer c;
  newData ← getChannelData newBuffer c;
  st ← for_of (paste_body oldData) keepRegions (mkPaste newData 0);
  Ok (with_channel newBuffer c (contents st)).

Definition createProcessedBuffer (originalBuffer : AudioBuffer)
    (silenceRegions : list Region) (context : AudioContext)
    : result AudioBuffer :=
  let sr := sampleRate originalBuffer in
  let channels := numberOfChannels originalBuffer in
  let totalSamples := bufLength originalBuffer in
  let sortedSilence :=
    array_sort (λ a b, start a - start b)%Q silenceRegions in
  let st := foldl (cut_body sr) (mkCut [] 0) sortedSilence in
  let keepRegions :=
    if cursor st <? totalSamples
    then keepRegions st ++ [mkKeep (cursor st) totalSamples]
    else keepRegions st in
  let newLength :=
    foldl (λ acc reg, acc + (keep_end reg - keep_start reg)) 0 keepRegions in
  newBuffer ← createBuffer context channels newLength sr;
  for_of (channel_body originalBuffer keepRegions) (seqZ 0 channels) newBuffer.

(** The buffer [processAudio] builds before it encodes it. *)
Definition processAudio_newBuffer (originalBuffer : AudioBuffer)
    (silenceRegions : list Region) : result (AudioBuffer * Z) :=
  let sr := sampleRate originalBuffer in
  let channels := numberOfChannels originalBuffer in
  let totalSamples := bufLength originalBuffer in
  let sortedSilence :=
    array_sort (λ a b, start a - start b)%Q silenceRegions in
  let st := foldl (cut_body sr) (mkCut [] 0) sortedSilence in
  let keepRegions :=
    if cursor st <? totalSamples
    then keepRegions st ++ [mkKeep (cursor st) totalSamples]
    else keepRegions st in
  let newLength :=
    foldl (λ acc reg, acc + (keep_end reg - keep_start reg)) 0 keepRegions in
  newBuffer ← new_AudioBuffer newLength channels sr;
  newBuffer ← for_of (channel_body originalBuffer keepRegions)
                (seqZ 0 channels) newBuffer;
  Ok (newBuffer, newLength).

(** ** The gap-remover of the design document *)

(** The keep intervals: a cursor walks the sorted regions from [cursor],
    emits [cursor, regionStartSample) whenever that interval is not empty,
    moves to [regionEndSample], and after the last region emits
    [cursor, length) if [cursor < length].  The sample indices are
    [floor(time * sampleRate)] as JavaScript computes it: the floor of the
    double nearest to the product. *)
Fixpoint walk (sr length cursor : Z) (sorted : list Region) : list (Z * Z) :=
  match sorted with
  | [] => if cursor <? length then [(cursor, length)] else []
  | region :: rest =>
      let regionStartSample := Qfloor (double (start region * inject_Z sr)) in
      let regionEndSample := Qfloor (double (end_ region * inject_Z sr)) in
      (if cursor <? regionStartSample then [(cursor, regionStartSample)] else [])
      ++ walk sr length regionEndSample rest
  end.

Definition sort_by_start (regions : list Region) : list Region :=
  array_sort (λ a b, start a - start b)%Q regions.

Definition keep_intervals (b : AudioBuffer) (regions : list Region)
    : list (Z * Z) :=
  walk (sampleRate b) (bufLength b) 0 (sort_by_start regions).

(** The sum of the spans of a list of intervals. *)
Fixpoint total_span (intervals : list (Z * Z)) : Z :=
  match intervals with
  | [] => 0
  | k :: rest => (k.2 - k.1) + total_span rest
  end.

(** The samples of a channel over [from, to). *)
Definition slice (samples : list Q) (k : Z * Z) : list Q :=
  take (Z.to_nat (k.2 - k.1)) (drop (Z.to_nat k.1) samples).

(** The samples of a channel over a list of intervals, in order. *)
Definition kept (intervals : list (Z * Z)) (samples : list Q) : list Q :=
  intervals ≫= slice samples.

(** [out] is what the gap-remover is to make of [b] and [regions]. *)
Definition gap_removed (b : AudioBuffer) (regions : list Region)
    (out : AudioBuffer) : Prop :=
  let keeps := keep_intervals b regions in
  bufLength out = total_span keeps ∧
  sampleRate out = sampleRate b ∧
  numberOfChannels out = numberOfChannels b ∧
  ∀ (c : nat) (samples : list Q),
    channelData b !! c = Some samples →
    channelData out !! c = Some (kept keeps samples).

(** The gap-remover's contract at [b] and [regions]: both implementations
    produce a buffer, the same one, and it is [gap_removed]. *)
Definition removeSilence_contract (b : AudioBuffer) (regions : list Region)
    : Prop :=
  ∃ out,
    (∀ context, createProcessedBuffer b regions context = Ok out) ∧
    processAudio_newBuffer b regions = Ok (out, bufLength out) ∧
    gap_removed b regions out.

(** A region that does not end before time 0 and does not start after the
    end of the buffer. *)
Definition in_reach (b : AudioBuffer) (r : Region) : Prop :=
  (0 <= end_ r)%Q ∧ (start r <= duration b)%Q.

Definition keep_of (k : Z * Z) : KeepRegion := mkKeep k.1 k.2.

(** ** The gap-remover on arbitrary regions *)

(** What one keep region contributes to a new channel: the samples
    [subarray] finds for it, then zeros up to the region's span. *)
Definition pasted (oldData : list Q) (k : Z * Z) : list Q :=
  let chunk := subarray oldData k.1 k.2 in
  chunk ++ replicate (Z.to_nat (k.2 - k.1 - len chunk)) 0%Q.

(** The channel the copy loop leaves for the keep intervals [keeps]. *)
Definition pasted_channel (keeps : list (Z * Z)) (oldData : list Q) : list Q :=
  keeps ≫= pasted oldData.

(** ** Detection followed by removal *)

(** The region [analyzeSilence] stores for the span [p] of sample indices.
    Each bound is the quotient [index / sampleRate] as JavaScript computes
    it, the double nearest to the quotient; [region_of] holds the quotient
    itself, which is what the detector compares and what its properties
    above are stated with. *)
Definition stored_region (sr : Z) (p : Z * Z) : Region :=
  mkRegion (double (inject_Z p.1 / inject_Z sr))
           (double (inject_Z p.2 / inject_Z sr)).

(** The sample indices the gap-remover computes for a region:
    [regionStartSample] and [regionEndSample]. *)
Definition sample_span (sr : Z) (r : Region) : Z * Z :=
  (Qfloor (double (start r * inject_Z sr)),
   Qfloor (double (end_ r * inject_Z sr))).

(** The intervals a list of spans leaves between [cursor] and [length]. *)
Fixpoint between (length cursor : Z) (spans : list (Z * Z)) : list (Z * Z) :=
  match spans with
  | [] => if cursor <? length then [(cursor, length)] else []
  | p :: rest =>
      (if cursor <? p.1 then [(cursor, p.1)] else []) ++ between length p.2 rest
  end.

(** Index [i] lies in one of the spans. *)
Definition covered (spans : list (Z * Z)) (i : Z) : bool :=
  existsb (λ p, (p.1 <=? i) && (i <? p.2)) spans.

(** The samples of a channel that lie in no span, in order; [i] is the
    index of the head. *)
Fixpoint uncovered_from (spans : list (Z * Z)) (i : Z) (samples : list Q)
    : list Q :=
  match samples with
  | [] => []
  | x :: rest =>
      (if covered spans i then [] else [x]) ++ uncovered_from spans (i + 1) rest
  end.

(** Spans in ascending order, none reaching into the next, inside
    [from, to]. *)
Definition spans_within (from to : Z) (spans : list (Z * Z)) : Prop :=
  StronglySorted (λ p q, p.2 ≤ q.1) spans ∧
  Forall (λ p, from ≤ p.1 ∧ p.1 ≤ p.2 ∧ p.2 ≤ to) spans.

(** Fifteen silent frames at 44100 Hz. *)
Definition fifteen_silent : AudioBuffer :=
  mkAudioBuffer 44100 15 [replicate 15 0%Q].

(** ** bufferToWav *)

(** The [n] bytes of [v] modulo 2^(8n), least significant first: what
    [DataView.setUint16], [setUint32] and [setInt16] store with
    [littleEndian = true]. *)
Definition le_bytes (n : nat) (v : Z) : list Z :=
  (λ k, (v / 2 ^ (8 * Z.of_nat k)) mod 256) <$> seq 0 n.

(** Truncation toward zero. *)
Definition Qtruncate (q : Q) : Z :=
  if Qltb q 0 then Qceiling q else Qfloor q.

(** [x | 0]: truncation, then the signed 32-bit value. *)
Definition to_int32 (q : Q) : Z :=
  (Qtruncate q + 2 ^ 31) mod 2 ^ 32 - 2 ^ 31.

(** The two assignments to [sample]; [None] is a read past the end of a
    channel, for which the clamp is NaN and [NaN | 0] is 0. *)
Definition pcm16 (x : option Q) : Z :=
  match x with
  | None => 0
  | Some v =>
      let sample := Qmax (-1) (Qmin 1 v) in
      to_int32 (if Qltb (0.5 + sample) 0 then sample * 32768 else sample * 32767)
  end.

(** The locals [view] (the bytes of [buffer]), [pos] and [offset]. *)
Record wav : Type := mkWav { view : list Z; pos : Z; offset : Z }.

Definition setUint16 (data : Z) (w : wav) : result wav :=
  bytes ← array_set (view w) (le_bytes 2 data) (pos w);
  Ok (mkWav bytes (pos w + 2) (offset w)).

Definition setUint32 (data : Z) (w : wav) : result wav :=
  bytes ← array_set (view w) (le_bytes 4 data) (pos w);
  Ok (mkWav bytes (pos w + 4) (offset w)).

(** The body of [for (i = 0; i < numOfChan; i++)] inside the [while]. *)
Definition interleave_body (channels : list (list Q)) (w : wav) (i : Z)
    : result wav :=
  match read channels i with
  | None => Throw TypeError
  | Some channel =>
      let sample := pcm16 (read channel (pos w)) in
      bytes ← array_set (view w) (le_bytes 2 sample) (44 + offset w);
      Ok (mkWav bytes (pos w) (offset w + 2))
  end.

(** [while (pos < len)]. *)
Fixpoint interleave_loop (fuel : nat) (channels : list (list Q))
    (numOfChan len : Z) (w : wav) : result wav :=
  match fuel with
  | O => Diverge
  | S fuel' =>
      if pos w <? len then
        w ← for_of (interleave_body channels) (seqZ 0 numOfChan) w;
        interleave_loop fuel' channels numOfChan len
          (mkWav (view w) (pos w + 1) (offset w))
      else Ok w
  end.

(** [new ArrayBuffer(length)]: zero-filled; RangeError for a negative
    length. *)
Definition new_ArrayBuffer (length : Z) : result (list Z) :=
  if length <? 0 then Throw RangeError
  else Ok (replicate (Z.to_nat length) 0).

(** The result is the byte content of the Blob. *)
Definition bufferToWav (abuffer : AudioBuffer) (len : Z) : result (list Z) :=
  let numOfChan := numberOfChannels abuffer in
  let length := len * numOfChan * 2 + 44 in
  buffer ← new_ArrayBuffer length;
  let w := mkWav buffer 0 0 in
  w ← setUint32 0x46464952 w;
  w ← setUint32 (length - 8) w;
  w ← setUint32 0x45564157 w;
  w ← setUint32 0x20746d66 w;
  w ← setUint32 16 w;
  w ← setUint16 1 w;
  w ← setUint16 numOfChan w;
  w ← setUint32 (sampleRate abuffer) w;
  w ← setUint32 (sampleRate abuffer * 2 * numOfChan) w;
  w ← setUint16 (numOfChan * 2) w;
  w ← setUint16 16 w;
  w ← setUint32 0x61746164 w;
  w ← setUint32 (length - pos w - 4) w;
  let channels := channelData abuffer in
  w ← interleave_loop (S (Z.to_nat len)) channels numOfChan len w;
  Ok (view w).

Definition processAudio (originalBuffer : AudioBuffer)
    (silenceRegions : list Region) : result (list Z) :=
  '(newBuffer, newLength) ← processAudio_newBuffer originalBuffer silenceRegions;
  bufferToWav newBuffer newLength.

(** ** The encoder of the design document *)

(** The 44-byte header, field by field. *)
Definition wav_header (numChannels sampleRate length : Z) : list Z :=
  let fileLength := 44 + length * numChannels * 2 in
  [82; 73; 70; 70] ++                               (* "RIFF" *)
  le_bytes 4 (fileLength - 8) ++
  [87; 65; 86; 69] ++                               (* "WAVE" *)
  [102; 109; 116; 32] ++                            (* "fmt " *)
  le_bytes 4 16 ++
  le_bytes 2 1 ++
  le_bytes 2 numChannels ++
  le_bytes 4 sampleRate ++
  le_bytes 4 (sampleRate * 2 * numChannels) ++
  le_bytes 2 (numChannels * 2) ++
  le_bytes 2 16 ++
  [100; 97; 116; 97] ++                             (* "data" *)
  le_bytes 4 (length * numChannels * 2).

(** One sample: clamp to [-1, 1], scale by 32768 if (0.5 + sample) < 0 and
    by 32767 otherwise, truncate toward zero. *)
Definition encode_sample (v : Q) : Z :=
  let sample := Qmax (-1) (Qmin 1 v) in
  Qtruncate (if Qltb (0.5 + sample) 0 then sample * 32768 else sample * 32767).

(** Frame [f]: one sample of every channel, channel 0 first. *)
Definition wav_frame (channels : list (list Q)) (f : Z) : list Z :=
  channels ≫= λ channel,
    match read channel f with
    | Some v => le_bytes 2 (encode_sample v)
    | None => []
    end.

Definition encodeWav (b : AudioBuffer) (length : Z) : list Z :=
  wav_header (numberOfChannels b) (sampleRate b) length ++
  (seqZ 0 length ≫= wav_frame (channelData b)).

(** The bytes the inner loop of [bufferToWav] stores for frame [f]. *)
Definition stored_frame (channels : list (list Q)) (f : Z) : list Z :=
  channels ≫= λ channel, le_bytes 2 (pcm16 (read channel f)).

(** What [bufferToWav] returns: the header, the frames from index 44 on,
    and zeros for the rest of the payload. *)
Definition stored_wav (b : AudioBuffer) (len : Z) : list Z :=
  wav_header (numberOfChannels b) (sampleRate b) len ++
  (seqZ 44 (len - 44) ≫= stored_frame (channelData b)) ++
  replicate (Z.to_nat (2 * numberOfChannels b * Z.min 44 len)) 0.

(** ** formatTime *)

(** A number as [formatTime] may get it: the test for NaN and the
    infinities is part of the function. *)
Inductive number : Type :=
  | Finite (q : Q)
  | NaN
  | Infinity (negative : bool).

(** [x % y] on finite numbers, [y] not 0: the remainder of the division
    truncated toward zero, so that it has the sign of [x]. *)
Definition Qrem (x y : Q) : Q := x - y * inject_Z (Qtruncate (x / y)).

(** The string of an integer, in plain decimal.  This is what JavaScript
    prints for the integers below [2 ^ 53] in absolute value; beyond, it
    prints the shortest digits that identify the double. *)
Definition Number_toString (z : Z) : string := pretty z.

(** [s.padStart(targetLength, pad)] for a pad string of one character. *)
Definition padStart (s : string) (targetLength : nat) (pad : ascii) : string :=
  String.string_of_list_ascii (replicate (targetLength - String.length s) pad) +:+ s.

(** [formatTime].  The quotient [seconds / 60] and the product
    [(seconds % 1) * 10] are rounded to doubles before [Math.floor]; the
    remainders are exact, as [%] is on doubles. *)
Definition formatTime (seconds : number) : string :=
  match seconds with
  | Finite s =>
      let mins := Qfloor (double (s / 60)) in
      let secs := Qfloor (Qrem s 60) in
      let ms := Qfloor (double (Qrem s 1 * 10)) in
      Number_toString mins +:+ ":" +:+
      padStart (Number_toString secs) 2 "0" +:+ "." +:+ Number_toString ms
  | NaN | Infinity _ => "0:00.0"
  end.

(** The character of a decimal digit. *)
Definition digit_char (d : Z) : ascii := ascii_of_nat (48 + Z.to_nat d).

(** ** generateUUID *)

(** The character of a hexadecimal digit, in lower case. *)
Definition hex_char (d : Z) : ascii :=
  if d <? 10 then ascii_of_nat (48 + Z.to_nat d)
  else ascii_of_nat (87 + Z.to_nat d).

Fixpoint hex_digits (fuel : nat) (n : Z) (acc : string) : string :=
  match fuel with
  | O => acc
  | S fuel' =>
      let acc' := String (hex_char (n mod 16)) acc in
      if n <? 16 then acc' else hex_digits fuel' (n / 16) acc'
  end.

(** [v.toString(16)] of an integer. *)
Definition Number_toString16 (v : Z) : string :=
  let digits n := hex_digits (S (Z.to_nat (Z.log2 n))) n "" in
  if v <? 0 then "-" +:+ digits (- v) else digits v.

Definition uuid_template : string := "xxxxxxxx-xxxx-4xxx-yxxx-xxxxxxxxxxxx".

(** The callback of [replace]: [c] is the character matched and [rnd] the
    value [Math.random()] returns in this call. *)
Definition uuid_digit (c : ascii) (rnd : Q) : string :=
  let r := to_int32 (rnd * 16) in
  let v := if Ascii.eqb c "x" then r else Z.lor (Z.land r 3) 8 in
  Number_toString16 v.

(** [template.replace(/[xy]/g, callback)]: the matches are replaced from
    left to right, and [random n] is what the [n]-th call of
    [Math.random()] returns. *)
Fixpoint replace_xy (template : string) (random : nat → Q) (n : nat) : string :=
  match template with
  | EmptyString => EmptyString
  | String c rest =>
      if Ascii.eqb c "x" || Ascii.eqb c "y"
      then uuid_digit c (random n) +:+ replace_xy rest random (S n)
      else String c (replace_xy rest random n)
  end.

(** [randomUUID] is what [crypto.randomUUID()] returns where the platform
    has it. *)
Definition generateUUID (randomUUID : option string) (random : nat → Q)
    : string :=
  match randomUUID with
  | Some uuid => uuid
  | None => replace_xy uuid_template random 0
  end.

(** A string that follows a template: a hexadecimal digit for every [x],
    one of 8, 9, a, b for every [y], the template's character elsewhere. *)
Definition is_hex (c : ascii) : bool :=
  existsb (Ascii.eqb c) (String.list_ascii_of_string "0123456789abcdef").

Definition is_variant (c : ascii) : bool :=
  existsb (Ascii.eqb c) (String.list_ascii_of_string "89ab").

Fixpoint follows (template s : string) : bool :=
  match template, s with
  | EmptyString, EmptyString => true
  | String t template', String c s' =>
      (if Ascii.eqb t "x" then is_hex c
       else if Ascii.eqb t "y" then is_variant c
       else Ascii.eqb t c) && follows template' s'
  | _, _ => false
  end.

(** ** The waveform view *)

(** The body of [for (let j = 0; j < step; j++)] on the locals [min] and
    [max]. *)
Definition window_body (rawData : list Q) (i step : Z) (mm : Q * Q) (j : Z)
    : Q * Q :=
  match read rawData (i * step + j) with
  | Some datum =>
      (if Qltb datum mm.1 then datum else mm.1,
       if Qltb mm.2 datum then datum else mm.2)
  | None => mm
  end.

(** [val] of the bar at [i]. *)
Definition bar_val (rawData : list Q) (i step : Z) : Q :=
  let mm := foldl (window_body rawData i step) (1, -1)%Q (seqZ 0 step) in
  Qmax (Qabs mm.1) (Qabs mm.2).

(** [handleClick]: the time passed to [onSeek], none when [duration] is 0.
    [rect_width] is not 0. *)
Definition handleClick (duration clientX rect_left rect_width : Q) : option Q :=
  if Qeq_bool duration 0 then None
  else
    let x := (clientX - rect_left)%Q in
    let newTime := (x / rect_width * duration)%Q in
    Some (Qmin (Qmax 0 newTime) duration).

(** The samples the bar at [i] looks at. *)
Definition window (rawData : list Q) (i step : Z) : list Q :=
  omap (λ j, read rawData (i * step + j)) (seqZ 0 step).

(** What [min] and [max] are after the samples [seen]: bounds of all of
    them, each either still its initial value or one of the samples. *)
Definition minmax_inv (seen : list Q) (mm : Q * Q) : Prop :=
  Forall (λ x, (mm.1 <= x)%Q ∧ (x <= mm.2)%Q) seen ∧
  (mm.1 <= 1)%Q ∧ (-1 <= mm.2)%Q ∧
  (mm.1 = 1%Q ∨ mm.1 ∈ seen) ∧ (mm.2 = (-1)%Q ∨ mm.2 ∈ seen).

(** The horizontal extent of the block the drawing effect draws for a
    region: [startX] and [endX] of [silenceRegions.forEach]. *)
Definition block_left (offsetWidth : Z) (duration : Q) (region : Region) : Q :=
  start region / duration * inject_Z offsetWidth.

Definition block_right (offsetWidth : Z) (duration : Q) (region : Region) : Q :=
  end_ region / duration * inject_Z offsetWidth.

(** * The same operations over a store

    The operations above pass arrays by value.  In the program a channel's
    storage, the caller's region array and the arrays the operations build
    are objects that can be shared and written in place ([set], [sort],
    [push], the writes of a [DataView]).  This module embeds the four
    operations over an explicit store of such objects, to state what they
    leave untouched.  An [AudioBuffer] is a handle on its channels'
    storage, a [Float32Array] is a view into one; objects the program never
    writes (regions, keep regions, the attributes of a buffer) stay
    values. *)
Module Heap.

Definition loc : Type := nat.

(** A [Float32Array]: a window of [view_length] elements at [view_offset]
    into the storage at [storage]. *)
Record Float32Array : Type := mkView {
  storage : loc;
  view_offset : Z;
  view_length : Z
}.

Inductive object : Type :=
  | Samples (data : list Q)              (* the storage behind Float32Arrays *)
  | RegionArray (items : list Region)    (* an Array of {start, end} in seconds *)
  | KeepArray (items : list KeepRegion)  (* an Array of {start, end} in samples *)
  | ViewArray (items : list Float32Array)
  | Bytes (data : list Z).               (* an ArrayBuffer *)

Abbreviation heap := (gmap loc object).

(** An [AudioBuffer]: its read-only attributes and where each channel is
    stored. *)
Record AudioBuffer : Type := mkAudioBuffer {
  sampleRate : Z;
  bufLength : Z;
  channels : list loc
}.

Definition numberOfChannels (b : AudioBuffer) : Z := len (channels b).

(** ** Computations over the store *)

Definition M (A : Type) : Type := heap → result A * heap.

Definition ret {A : Type} (a : A) : M A := λ h, (Ok a, h).

Definition bind {A B : Type} (m : M A) (f : A → M B) : M B :=
  λ h, match m h with
       | (Ok a, h') => f a h'
       | (Throw e, h') => (Throw e, h')
       | (Diverge, h') => (Diverge, h')
       end.

Definition throw {A : Type} (e : exn) : M A := λ h, (Throw e, h).

Definition diverge {A : Type} : M A := λ h, (Diverge, h).

#[global] Instance M_ret : MRet M := @ret.
#[global] Instance M_bind : MBind M := λ A B f m, bind m f.

Definition alloc (o : object) : M loc :=
  λ h, let l := fresh (dom h) in (Ok l, <[l := o]> h).

Definition load (l : loc) : M object :=
  λ h, match h !! l with
       | Some o => (Ok o, h)
       | None => (Throw TypeError, h)
       end.

Definition store (l : loc) (o : object) : M unit :=
  λ h, (Ok tt, <[l := o]> h).

Definition load_samples (l : loc) : M (list Q) :=
  o ← load l; match o with Samples d => ret d | _ => throw TypeError end.

Definition load_regions (l : loc) : M (list Region) :=
  o ← load l; match o with RegionArray a => ret a | _ => throw TypeError end.

Definition load_keeps (l : loc) : M (list KeepRegion) :=
  o ← load l; match o with KeepArray a => ret a | _ => throw TypeError end.

Definition load_views (l : loc) : M (list Float32Array) :=
  o ← load l; match o with ViewArray a => ret a | _ => throw TypeError end.

Definition load_bytes (l : loc) : M (list Z) :=
  o ← load l; match o with Bytes d => ret d | _ => throw TypeError end.

(** A pure outcome as a computation. *)
Definition lift {A : Type} (r : result A) : M A := λ h, (r, h).

Fixpoint for_of {A S : Type} (body : S → A → M S) (xs : list A) (s : S) : M S :=
  match xs with
  | [] => ret s
  | x :: rest => s' ← body s x; for_of body rest s'
  end.

(** ** Platform operations *)

(** [buffer.getChannelData(c)]: a view of the whole channel, onto the
    buffer's own storage. *)
Definition getChannelData (b : AudioBuffer) (c : Z) : M Float32Array :=
  match read (channels b) c with
  | Some l => ret (mkView l 0 (bufLength b))
  | None => throw IndexSizeError
  end.

(** The elements a view ranges over. *)
Definition elements (v : Float32Array) : M (list Q) :=
  d ← load_samples (storage v);
  ret (take (Z.to_nat (view_length v)) (drop (Z.to_nat (view_offset v)) d)).

(** [v[i]]. *)
Definition get (v : Float32Array) (i : Z) : M (option Q) :=
  d ← elements v; ret (read d i).

(** [v.subarray(begin, end)]: a new view onto the same storage. *)
Definition subarray (v : Float32Array) (begin end_ : Z) : Float32Array :=
  let b := clamp_index (view_length v) begin in
  let e := clamp_index (view_length v) end_ in
  mkView (storage v) (view_offset v + b) (Z.max (e - b) 0).

(** [target.set(source, offset)]: writes into the storage of [target]. *)
Definition set (target source : Float32Array) (offset : Z) : M unit :=
  src ← elements source;
  d ← load_samples (storage target);
  if (offset <? 0) || (view_length target <? offset + len src)
  then throw RangeError
  else
    let at_ := view_offset target + offset in
    store (storage target)
      (Samples (take (Z.to_nat at_) d ++ src ++
                drop (Z.to_nat (at_ + len src)) d)).

(** Allocation of an [AudioBuffer]: fresh zero-filled storage for every
    channel. *)
Definition allocate (numberOfChannels length sampleRate : Z) : M AudioBuffer :=
  if (1 <=? numberOfChannels) && (1 <=? length)
  then
    stores ← for_of
      (λ ls _, l ← alloc (Samples (replicate (Z.to_nat length) 0%Q));
               ret (ls ++ [l]))
      (seqZ 0 numberOfChannels) [];
    ret (mkAudioBuffer sampleRate length stores)
  else throw NotSupportedError.

Definition createBuffer (context : AudioContext)
    (numberOfChannels length sampleRate : Z) : M AudioBuffer :=
  allocate numberOfChannels length sampleRate.

Definition new_AudioBuffer (length numberOfChannels sampleRate : Z) : M AudioBuffer :=
  allocate numberOfChannels length sampleRate.

(** [[...array]]: a new array with the same elements. *)
Definition spread (array : loc) : M loc :=
  items ← load_regions array; alloc (RegionArray items).

(** [array.sort(compare)]: sorts the array in place. *)
Definition sort (array : loc) (compare : Region → Region → Q) : M unit :=
  items ← load_regions array;
  store array (RegionArray (array_sort compare items)).

(** [keepRegions.push(reg)]. *)
Definition push_keep (array : loc) (reg : KeepRegion) : M unit :=
  items ← load_keeps array; store array (KeepArray (items ++ [reg])).

(** [silenceRegions.push(region)]. *)
Definition push_region (array : loc) (region : Region) : M unit :=
  items ← load_regions array; store array (RegionArray (items ++ [region])).

(** [channels.push(view)]. *)
Definition push_view (array : loc) (v : Float32Array) : M unit :=
  items ← load_views array; store array (ViewArray (items ++ [v])).

(** ** analyzeSilence *)

(** The locals [isSilent] and [silenceStart]; [silenceRegions] is an array
    in the store. *)
Record scan : Type := mkScan { isSilent : bool; silenceStart : Z }.

Definition scan_body (rawData : Float32Array) (silenceRegions : loc)
    (sr : Z) (minDuration : Q) (i : Z) (st : scan) : M scan :=
  x ← get rawData i;
  if below_threshold x then
    if negb (isSilent st) then mret (mkScan true i) else mret st
  else
    if isSilent st then
      let duration := (inject_Z (i - silenceStart st) / inject_Z sr)%Q in
      (if Qle_bool minDuration duration
       then push_region silenceRegions
              (mkRegion (inject_Z (silenceStart st) / inject_Z sr)
                        (inject_Z i / inject_Z sr))
       else mret tt);;
      mret (mkScan false (silenceStart st))
    else mret st.

Fixpoint scan_loop (fuel : nat) (rawData : Float32Array) (silenceRegions : loc)
    (sr : Z) (minDuration : Q) (i : Z) (st : scan) : M scan :=
  match fuel with
  | O => diverge
  | S fuel' =>
      if i <? view_length rawData
      then st' ← scan_body rawData silenceRegions sr minDuration i st;
           scan_loop fuel' rawData silenceRegions sr minDuration (i + step) st'
      else mret st
  end.

(** The result is the array [silenceRegions]. *)
Definition analyzeSilence (buffer : AudioBuffer) (minDuration : Q) : M loc :=
  rawData ← getChannelData buffer 0;
  let sr := sampleRate buffer in
  silenceRegions ← alloc (RegionArray []);
  st ← scan_loop (S (Z.to_nat (view_length rawData))) rawData silenceRegions
         sr minDuration 0 (mkScan false 0);
  (if isSilent st then
     let duration :=
       (inject_Z (view_length rawData - silenceStart st) / inject_Z sr)%Q in
     if Qle_bool minDuration duration
     then push_region silenceRegions
            (mkRegion (inject_Z (silenceStart st) / inject_Z sr)
                      (inject_Z (view_length rawData) / inject_Z sr))
     else mret tt
   else mret tt);;
  mret silenceRegions.

(** ** createProcessedBuffer and processAudio *)

Definition cut_body (keepRegions : loc) (sr : Z) (cursor : Z) (region : Region)
    : M Z :=
  let regionStartSample := Qfloor (double (start region * inject_Z sr)) in
  let regionEndSample := Qfloor (double (end_ region * inject_Z sr)) in
  (if cursor <? regionStartSample
   then push_keep keepRegions (mkKeep cursor regionStartSample)
   else mret tt);;
  mret regionEndSample.

Definition paste_body (oldData newData : Float32Array) (pointer : Z)
    (reg : KeepRegion) : M Z :=
  let len := keep_end reg - keep_start reg in
  let chunk := subarray oldData (keep_start reg) (keep_end reg) in
  set newData chunk pointer;;
  mret (pointer + len).

Definition channel_body (originalBuffer newBuffer : AudioBuffer)
    (keepRegions : list KeepRegion) (_ : unit) (c : Z) : M unit :=
  oldData ← getChannelData originalBuffer c;
  newData ← getChannelData newBuffer c;
  for_of (paste_body oldData newData) keepRegions 0;;
  mret tt.

(** The part the two implementations share word for word: from the sort to
    [newLength], and the copy loop.  [silenceRegions] is the caller's
    array. *)
Definition plan (originalBuffer : AudioBuffer) (silenceRegions : loc)
    : M (loc * Z) :=
  let sr := sampleRate originalBuffer in
  let totalSamples := bufLength originalBuffer in
  keepRegions ← alloc (KeepArray []);
  sortedSilence ← spread silenceRegions;
  sort sortedSilence (λ a b, start a - start b)%Q;;
  sorted ← load_regions sortedSilence;
  cursor ← for_of (cut_body keepRegions sr) sorted 0;
  (if cursor <? totalSamples
   then push_keep keepRegions (mkKeep cursor totalSamples)
   else mret tt);;
  keeps ← load_keeps keepRegions;
  let newLength :=
    foldl (λ acc reg, acc + (keep_end reg - keep_start reg)) 0 keeps in
  mret (keepRegions, newLength).

Definition copy (originalBuffer newBuffer : AudioBuffer) (keepRegions : loc)
    : M unit :=
  keeps ← load_keeps keepRegions;
  for_of (channel_body originalBuffer newBuffer keeps)
    (seqZ 0 (numberOfChannels originalBuffer)) tt.

Definition createProcessedBuffer (originalBuffer : AudioBuffer)
    (silenceRegions : loc) (context : AudioContext) : M AudioBuffer :=
  '(keepRegions, newLength) ← plan originalBuffer silenceRegions;
  newBuffer ← createBuffer context (numberOfChannels originalBuffer) newLength
                (sampleRate originalBuffer);
  copy originalBuffer newBuffer keepRegions;;
  mret newBuffer.

(** ** bufferToWav *)

(** [buffer] is the ArrayBuffer the [DataView] writes to. *)
Record wav : Type := mkWav { buffer : loc; pos : Z; offset : Z }.

(** A write of a [DataView] at [at_]. *)
Definition view_write (buffer : loc) (at_ : Z) (bytes : list Z) : M unit :=
  d ← load_bytes buffer;
  written ← lift (array_set d bytes at_);
  store buffer (Bytes written).

Definition setUint16 (data : Z) (w : wav) : M wav :=
  view_write (buffer w) (pos w) (le_bytes 2 data);;
  mret (mkWav (buffer w) (pos w + 2) (offset w)).

Definition setUint32 (data : Z) (w : wav) : M wav :=
  view_write (buffer w) (pos w) (le_bytes 4 data);;
  mret (mkWav (buffer w) (pos w + 4) (offset w)).

Definition interleave_body (channels : loc) (w : wav) (i : Z) : M wav :=
  views ← load_views channels;
  match read views i with
  | None => throw TypeError
  | Some channel =>
      x ← get channel (pos w);
      view_write (buffer w) (44 + offset w) (le_bytes 2 (pcm16 x));;
      mret (mkWav (buffer w) (pos w) (offset w + 2))
  end.

Fixpoint interleave_loop (fuel : nat) (channels : loc) (numOfChan len : Z)
    (w : wav) : M wav :=
  match fuel with
  | O => diverge
  | S fuel' =>
      if pos w <? len then
        w ← for_of (interleave_body channels) (seqZ 0 numOfChan) w;
        interleave_loop fuel' channels numOfChan len
          (mkWav (buffer w) (pos w + 1) (offset w))
      else mret w
  end.

Definition new_ArrayBuffer (length : Z) : M loc :=
  if length <? 0 then throw RangeError
  else alloc (Bytes (replicate (Z.to_nat length) 0)).

(** The result is the byte content of the Blob, copied out of the
    ArrayBuffer. *)
Definition bufferToWav (abuffer : AudioBuffer) (len : Z) : M (list Z) :=
  let numOfChan := numberOfChannels abuffer in
  let length := len * numOfChan * 2 + 44 in
  buffer ← new_ArrayBuffer length;
  channels ← alloc (ViewArray []);
  let w := mkWav buffer 0 0 in
  w ← setUint32 0x46464952 w;
  w ← setUint32 (length - 8) w;
  w ← setUint32 0x45564157 w;
  w ← setUint32 0x20746d66 w;
  w ← setUint32 16 w;
  w ← setUint16 1 w;
  w ← setUint16 numOfChan w;
  w ← setUint32 (sampleRate abuffer) w;
  w ← setUint32 (sampleRate abuffer * 2 * numOfChan) w;
  w ← setUint16 (numOfChan * 2) w;
  w ← setUint16 16 w;
  w ← setUint32 0x61746164 w;
  w ← setUint32 (length - pos w - 4) w;
  for_of (λ _ i, v ← getChannelData abuffer i; push_view channels v)
    (seqZ 0 (numberOfChannels abuffer)) tt;;
  w ← interleave_loop (S (Z.to_nat len)) channels numOfChan len w;
  load_bytes (Heap.buffer w).

Definition processAudio (originalBuffer : AudioBuffer) (silenceRegions : loc)
    : M (list Z) :=
  '(keepRegions, newLength) ← plan originalBuffer silenceRegions;
  newBuffer ← new_AudioBuffer newLength (numberOfChannels originalBuffer)
                (sampleRate originalBuffer);
  copy originalBuffer newBuffer keepRegions;;
  bufferToWav newBuffer newLength.

End Heap.

(** ** What a computation leaves untouched *)

(** [frames h0 m P]: run from any store that still holds every object of
    [h0] unchanged, [m] ends in such a store again, and a value it returns
    satisfies [P]. *)
Definition frames {A : Type} (h0 : Heap.heap) (m : Heap.M A) (P : A → Prop)
    : Prop :=
  ∀ h, h0 ⊆ h → h0 ⊆ (m h).2 ∧ ∀ a, (m h).1 = Ok a → P a.

(** A location that [h0] does not hold: one allocated since. *)
Definition new_since (h0 : Heap.heap) (l : Heap.loc) : Prop := l ∉ dom h0.

(** ** The store version against the value version *)

(** In store [h] the storages [stores] hold the channels [data], of [N]
    samples each. *)
Definition stores_hold (h : Heap.heap) (stores : list Heap.loc)
    (data : list (list Q)) (N : Z) : Prop :=
  Forall2 (λ l d, h !! l = Some (Heap.Samples d) ∧ len d = N) stores data.

(** In store [h] the handle [hb] stands for the buffer [b]: same
    attributes, and the storage of every channel holds that channel's
    [bufLength] samples. *)
Definition represents (h : Heap.heap) (hb : Heap.AudioBuffer) (b : AudioBuffer)
    : Prop :=
  Heap.sampleRate hb = sampleRate b ∧
  Heap.bufLength hb = bufLength b ∧
  stores_hold h (Heap.channels hb) (channelData b) (bufLength b).

(** The outcome of a computation over the store agrees with an outcome over
    values: the same exception, or results related by [R] in the final
    store. *)
Definition agrees {A B : Type} (R : A → B → Heap.heap → Prop)
    (run : result A * Heap.heap) (r : result B) : Prop :=
  match r with
  | Ok b => ∃ a, run.1 = Ok a ∧ R a b run.2
  | Throw e => run.1 = Throw e
  | Diverge => run.1 = Diverge
  end.

(** What relates a store and the new buffer of the value version while the
    channels of [b] are copied into [stores]. *)
Definition copying (hb : Heap.AudioBuffer) (b : AudioBuffer)
    (stores : list Heap.loc) (sr N : Z) (h : Heap.heap) (nb : AudioBuffer)
    : Prop :=
  stores_hold h (Heap.channels hb) (channelData b) (bufLength b) ∧
  stores_hold h stores (channelData nb) N ∧
  bufLength nb = N ∧ sampleRate nb = sr.

(** While [bufferToWav] runs: the store version's locals stand for the
    value version's, and the ArrayBuffer at [bl] holds the bytes of [view],
    in a store that is otherwise [h0]. *)
Definition wav_at (bl : Heap.loc) (h0 : Heap.heap) (hw : Heap.wav) (w : wav)
    (h' : Heap.heap) : Prop :=
  hw = Heap.mkWav bl (pos w) (offset w) ∧
  h' = <[bl := Heap.Bytes (view w)]> h0.

(** The whole-channel views [getChannelData] gives of a buffer. *)
Definition channel_views (hb : Heap.AudioBuffer) : list Heap.Float32Array :=
  (λ l, Heap.mkView l 0 (Heap.bufLength hb)) <$> Heap.channels hb.

(** A store that holds the channel of [two_frames] at 0 and an array of one
    region at 1, and the handle on that buffer. *)
Definition two_frames_store : Heap.heap :=
  <[0%nat := Heap.Samples [0.5; 0.25]%Q]>
    (<[1%nat := Heap.RegionArray [mkRegion 0 (1 # 8000)]]> ∅).

Definition two_frames_handle : Heap.AudioBuffer :=
  Heap.mkAudioBuffer 8000 2 [0%nat].

(** * Properties *)

(** ** Numbers and arrays *)

Lemma Qltb_lt (x y : Q) : Qltb x y = true ↔ (x < y)%Q.
Proof.
  unfold Qltb. rewrite negb_true_iff, <- not_true_iff_false, Qle_bool_iff.
  split; [apply Qnot_le_lt | apply Qlt_not_le].
Qed.

Lemma len_nonneg {A} (a : list A) : 0 ≤ len a.
Proof. unfold len. lia. Qed.

Lemma len_app {A} (a b : list A) : len (a ++ b) = len a + len b.
Proof. unfold len. rewrite length_app. lia. Qed.

Lemma len_cons {A} (x : A) (a : list A) : len (x :: a) = 1 + len a.
Proof. unfold len. simpl. lia. Qed.

Lemma read_drop {A} (a : list A) (i : Z) x rest :
  0 ≤ i → drop (Z.to_nat i) a = x :: rest → read a i = Some x.
Proof.
  intros Hi Hd. unfold read.
  destruct (Z.ltb_spec i 0) as [|_]; [lia|].
  rewrite <- (Nat.add_0_r (Z.to_nat i)), <- lookup_drop, Hd. done.
Qed.

(** ** analyzeSilence runs the machine *)

Lemma scan_body_transition rawData sr minDuration i st x :
  read rawData i = Some x →
  let st' := scan_body rawData sr minDuration i st in
  let r := transition sr minDuration (abstract st) i x in
  abstract st' = r.1 ∧ silenceRegions st' = silenceRegions st ++ r.2.
Proof.
  intros Hx. unfold scan_body, transition, abstract, emit. rewrite Hx. simpl.
  destruct st as [[] s regs]; simpl;
    destruct (Qltb (Qabs x) threshold); simpl;
    rewrite ?app_nil_r; try done.
  destruct (Qle_bool _ _); simpl; rewrite ?app_nil_r; done.
Qed.

(** Between two visited indices nothing is visited. *)
Lemma visited_from_skip (n : nat) : ∀ (i : Z) (samples : list Q),
  (∀ k, 0 ≤ k < Z.of_nat n → (i + k) mod step ≠ 0) →
  visited_from i samples = visited_from (i + Z.of_nat n) (drop n samples).
Proof.
  induction n as [|n IH]; intros i samples Hk.
  - rewrite drop_0. f_equal. lia.
  - destruct samples as [|x rest].
    + by rewrite drop_nil.
    + simpl. destruct (Z.eqb_spec (i mod step) 0) as [E|_].
      * exfalso. apply (Hk 0); [lia|]. by rewrite Z.add_0_r.
      * simpl. rewrite (IH (i + 1) rest).
        -- f_equal. lia.
        -- intros k Hk'. replace (i + 1 + k) with (i + (k + 1)) by lia.
           apply Hk. lia.
Qed.

Lemma visited_from_step (i : Z) (samples : list Q) x rest :
  i mod step = 0 → samples = x :: rest →
  visited_from i samples =
  (i, x) :: visited_from (i + step) (drop (Z.to_nat step) samples).
Proof.
  intros Hi ->. simpl. rewrite Hi. simpl. f_equal.
  rewrite (visited_from_skip 199 (i + 1) rest).
  - f_equal. unfold step. lia.
  - intros k Hk. unfold step in *.
    rewrite <- Z.add_assoc, Z.add_mod, Hi by done.
    rewrite Z.add_0_l, Z.mod_mod by done.
    rewrite Z.mod_small; lia.
Qed.

Lemma scan_loop_machine rawData sr minDuration : ∀ (fuel : nat) (i : Z) (st : scan),
  0 ≤ i → i mod step = 0 → Z.max 0 (len rawData - i) < Z.of_nat fuel →
  ∃ st',
    scan_loop fuel rawData sr minDuration i st = Ok st' ∧
    let r := run_machine sr minDuration
               (visited_from i (drop (Z.to_nat i) rawData)) (abstract st) in
    abstract st' = r.1 ∧ silenceRegions st' = silenceRegions st ++ r.2.
Proof.
  induction fuel as [|fuel IH]; intros i st Hi Hmod Hfuel.
  - lia.
  - simpl. destruct (Z.ltb_spec i (len rawData)) as [Hlt|Hge].
    + destruct (drop (Z.to_nat i) rawData) as [|x rest] eqn:Hd.
      { apply (f_equal length) in Hd. rewrite length_drop in Hd.
        unfold len in Hlt. simpl in Hd. lia. }
      pose proof (read_drop _ _ _ _ Hi Hd) as Hx.
      destruct (scan_body_transition rawData sr minDuration i st x Hx)
        as [Ha Hr].
      destruct (IH (i + step) (scan_body rawData sr minDuration i st))
        as (st' & Hloop & Ha' & Hr').
      { unfold step. lia. }
      { unfold step in *. rewrite Z.add_mod, Hmod by lia. done. }
      { unfold step. lia. }
      exists st'. split; [done|].
      rewrite (visited_from_step i _ x rest Hmod eq_refl).
      rewrite <- Hd, drop_drop. cbn [run_machine].
      replace (Z.to_nat i + Z.to_nat step)%nat with (Z.to_nat (i + step))
        by (unfold step; lia).
      rewrite Ha in Ha', Hr'. rewrite Hr in Hr'.
      destruct (transition sr minDuration (abstract st) i x) as [st1 out1].
      simpl in *.
      destruct (run_machine _ _ _ st1) as [st2 out2]. simpl in *.
      by rewrite Hr', app_assoc.
    + exists st. split; [done|].
      rewrite drop_ge by (unfold len in Hge; lia). simpl.
      by rewrite app_nil_r.
Qed.

Lemma analyzeSilence_detectSilence (b : AudioBuffer) (minDuration : Q) :
  SampleBuffer_inv b → 1 ≤ numberOfChannels b →
  analyzeSilence b minDuration = Ok (detectSilence b minDuration).
Proof.
  intros [Hlen _] Hch.
  unfold numberOfChannels, len in Hch.
  destruct (channelData b) as [|rawData others] eqn:Hc; [simpl in Hch; lia|].
  apply Forall_cons in Hlen as [Hlen _].
  assert (Hg : getChannelData b 0 = Ok rawData)
    by (unfold getChannelData; rewrite Hc; done).
  unfold analyzeSilence, detectSilence. rewrite Hg, Hc.
  change (default [] ((rawData :: others) !! 0%nat)) with rawData.
  cbn [mbind result_bind].
  destruct (scan_loop_machine rawData (sampleRate b) minDuration
              (S (length rawData)) 0 (mkScan false 0 []))
    as (st & -> & Ha & Hr); [lia|done|unfold len; lia|].
  cbn [mbind result_bind]. rewrite drop_0 in Ha, Hr.
  change (abstract (mkScan false 0 [])) with Sounding in Ha, Hr.
  unfold visited.
  destruct (run_machine _ _ _ Sounding) as [st2 out2].
  cbn [fst snd silenceRegions app] in Ha, Hr. subst st2 out2.
  rewrite Hlen. unfold abstract, flush, emit.
  destruct (isSilent st).
  - by destruct (Qle_bool _ _); rewrite ?app_nil_r.
  - by rewrite app_nil_r.
Qed.

(** ** The spans behind the regions *)

Lemma run_machine_spans sr minDuration : ∀ stream st,
  run_machine sr minDuration stream st =
  ((run_spans stream st).1,
   flat_map (emit_span sr minDuration) (run_spans stream st).2).
Proof.
  induction stream as [|[i x] rest IH]; intros st; [done|].
  cbn [run_machine run_spans]. unfold transition.
  destruct st as [|s], (Qltb (Qabs x) threshold); cbn beta iota zeta;
    rewrite IH; destruct (run_spans rest _) as [st2 out2]; try done.
Qed.

Lemma emit_span_filter sr minDuration (spans : list (Z * Z)) :
  flat_map (emit_span sr minDuration) spans =
  region_of sr <$> filter (λ p, passes sr minDuration p = true) spans.
Proof.
  induction spans as [|p spans IH]; [done|].
  cbn [flat_map]. rewrite filter_cons, IH.
  unfold emit_span at 1, emit.
  change (Qle_bool minDuration (inject_Z (p.2 - p.1) / inject_Z sr))
    with (passes sr minDuration p).
  destruct (passes sr minDuration p); case_decide; done.
Qed.

Lemma detectSilence_all_spans (b : AudioBuffer) (minDuration : Q) :
  detectSilence b minDuration =
  flat_map (emit_span (sampleRate b) minDuration)
    (all_spans (default [] (channelData b !! 0%nat)) (bufLength b)).
Proof.
  unfold detectSilence, all_spans. rewrite run_machine_spans.
  destruct (run_spans _ Sounding) as [st out]. cbn [fst snd].
  rewrite flat_map_app. f_equal. destruct st; [done|].
  simpl. by rewrite app_nil_r.
Qed.

Ltac weaken_spans H :=
  eapply Forall_impl; [exact H|]; cbn beta;
  intros ? (?&?&?&?&?); split_and?; (done || lia).

Lemma spans_inv_mono i j st acc : i ≤ j → spans_inv i st acc → spans_inv j st acc.
Proof.
  intros Hij (Hall & Hsort & Hst). split_and!; [weaken_spans Hall|done|].
  destruct st; [done|]. destruct Hst as (?&?&?&?).
  split_and!; [done|done|lia|done].
Qed.

Lemma StronglySorted_snoc {A} (R : A → A → Prop) (l : list A) (x : A) :
  StronglySorted R l → Forall (λ y, R y x) l → StronglySorted R (l ++ [x]).
Proof.
  intros Hl Hx. apply StronglySorted_app_2; [|done|repeat constructor].
  intros y1 y2 Hy1 Hy2. apply list_elem_of_singleton in Hy2 as ->.
  by eapply Forall_forall in Hx.
Qed.

Lemma spans_inv_visit i x st acc :
  i mod step = 0 → 0 ≤ i → spans_inv i st acc →
  let r := run_spans [(i, x)] st in
  spans_inv (i + 1) r.1 (acc ++ r.2).
Proof.
  intros Hmod Hi (Hall & Hsort & Hst).
  assert (Hdiv : (step | i)) by (by apply Z.mod_divide).
  cbn [run_spans]. destruct st as [|s], (Qltb (Qabs x) threshold);
    cbn [fst snd app]; rewrite ?app_nil_r.
  - split_and!; [weaken_spans Hall|done|done|lia|lia|weaken_spans Hall].
  - apply (spans_inv_mono i); [lia|]. by unfold spans_inv.
  - apply (spans_inv_mono i); [lia|]. by unfold spans_inv.
  - destruct Hst as (Hs & Hs0 & Hsi & Hbefore). split_and!; [| |done].
    + apply Forall_app. split; [weaken_spans Hall|].
      apply Forall_singleton. simpl. split_and!; [done|done|lia..].
    + by apply StronglySorted_snoc.
Qed.

Lemma run_spans_app : ∀ s1 s2 st,
  run_spans (s1 ++ s2) st =
  ((run_spans s2 (run_spans s1 st).1).1,
   (run_spans s1 st).2 ++ (run_spans s2 (run_spans s1 st).1).2).
Proof.
  induction s1 as [|[i x] s1 IH]; intros s2 st.
  - simpl. by destruct (run_spans s2 st).
  - cbn [app run_spans]. rewrite IH.
    destruct (run_spans s1 _) as [st1 out1]. cbn [fst snd].
    destruct (run_spans s2 st1) as [st2 out2]. cbn [fst snd].
    by rewrite app_assoc.
Qed.

Lemma run_spans_inv : ∀ (samples : list Q) (i : Z) st acc,
  0 ≤ i → spans_inv i st acc →
  let r := run_spans (visited_from i samples) st in
  spans_inv (i + len samples) r.1 (acc ++ r.2).
Proof.
  induction samples as [|x rest IH]; intros i st acc Hi Hinv.
  - simpl. rewrite app_nil_r. unfold len. simpl. by rewrite Z.add_0_r.
  - cbn [visited_from]. rewrite run_spans_app. cbn [fst snd].
    rewrite len_cons, app_assoc, Z.add_assoc.
    apply IH; [lia|].
    destruct (Z.eqb_spec (i mod step) 0) as [Hmod|_].
    + by apply spans_inv_visit.
    + simpl. rewrite app_nil_r. apply (spans_inv_mono i); [lia|done].
Qed.

(** The spans of a channel: a body the transitions closed, then at most one
    span the flush closed. *)
Lemma all_spans_inv (samples : list Q) :
  ∃ st body,
    all_spans samples (len samples) = body ++ flush_span (len samples) st ∧
    spans_inv (len samples) st body.
Proof.
  unfold all_spans, visited.
  pose proof (run_spans_inv samples 0 Sounding [] (Z.le_refl 0)) as H.
  destruct (run_spans (visited_from 0 samples) Sounding) as [st body].
  exists st, body. split; [done|]. apply H.
  unfold spans_inv. split_and!; [constructor|constructor|done].
Qed.

Lemma all_spans_bounds (samples : list Q) :
  Forall (λ p, (step | p.1) ∧ 0 ≤ p.1 ∧ p.1 < p.2 ∧ p.2 ≤ len samples)
    (all_spans samples (len samples)).
Proof.
  destruct (all_spans_inv samples) as (st & body & -> & Hall & _ & Hst).
  apply Forall_app. split; [weaken_spans Hall|].
  destruct st as [|s]; [constructor|].
  destruct Hst as (?&?&?&_). apply Forall_singleton. simpl.
  split_and!; [done|lia..].
Qed.

Lemma all_spans_sorted (samples : list Q) :
  StronglySorted (λ p q, p.2 < q.1) (all_spans samples (len samples)).
Proof.
  destruct (all_spans_inv samples) as (st & body & -> & _ & Hsort & Hst).
  destruct st as [|s]; simpl; [by rewrite app_nil_r|].
  destruct Hst as (_&_&_&?). by apply StronglySorted_snoc.
Qed.

(** ** Times *)

Lemma inject_Z_pos (z : Z) : 0 < z → (0 < inject_Z z)%Q.
Proof. intros H. change 0%Q with (inject_Z 0). by rewrite <- Zlt_Qlt. Qed.


Lemma Qdiv_inject_le (a c sr : Z) :
  0 < sr → a ≤ c → (inject_Z a / inject_Z sr <= inject_Z c / inject_Z sr)%Q.
Proof.
  intros Hsr Hac. unfold Qdiv. apply Qmult_le_compat_r.
  - by rewrite <- Zle_Qle.
  - apply Qlt_le_weak, Qinv_lt_0_compat. by apply inject_Z_pos.
Qed.


Lemma Qdiv_inject_nonneg (a sr : Z) :
  0 < sr → 0 ≤ a → (0 <= inject_Z a / inject_Z sr)%Q.
Proof.
  intros Hsr Ha. pose proof (Qdiv_inject_le 0 a sr Hsr Ha) as H.
  unfold Qdiv in H at 1. by rewrite Qmult_0_l in H.
Qed.

(** A span of positive length passes the duration test of every
    non-positive minimum. *)
Lemma passes_nonpositive (sr : Z) (minDuration : Q) (p : Z * Z) :
  0 < sr → p.1 < p.2 → (minDuration <= 0)%Q → passes sr minDuration p = true.
Proof.
  intros Hsr Hp Hm. unfold passes. apply Qle_bool_iff.
  eapply Qle_trans; [exact Hm|]. apply Qdiv_inject_nonneg; [done|lia].
Qed.


Lemma StronglySorted_with {A} (R : A → A → Prop) (P : A → Prop) (l : list A) :
  StronglySorted R l → Forall P l → StronglySorted (λ x y, P x ∧ R x y) l.
Proof.
  induction 1 as [|x l Hl IH Hx]; intros HP; [constructor|].
  apply Forall_cons in HP as [HPx HP]. constructor; [by apply IH|].
  eapply Forall_impl; [exact Hx|]. by intros y Hy.
Qed.

Lemma channel0 (b : AudioBuffer) :
  SampleBuffer_inv b → 1 ≤ numberOfChannels b →
  ∃ rawData, channelData b !! 0%nat = Some rawData ∧ len rawData = bufLength b.
Proof.
  intros [Hlen _] Hch. unfold numberOfChannels, len in Hch.
  destruct (channelData b) as [|rawData others]; [simpl in Hch; lia|].
  exists rawData. split; [done|]. by apply Forall_cons in Hlen as [? _].
Qed.

(** The regions the detector returns are the spans that pass the duration
    test, converted to seconds. *)
Lemma analyzeSilence_spans (b : AudioBuffer) (minDuration : Q) :
  SampleBuffer_inv b → 1 ≤ numberOfChannels b →
  ∃ rawData,
    channelData b !! 0%nat = Some rawData ∧ len rawData = bufLength b ∧
    analyzeSilence b minDuration =
    Ok (region_of (sampleRate b) <$>
        filter (λ p, passes (sampleRate b) minDuration p = true)
          (all_spans rawData (len rawData))).
Proof.
  intros Hinv Hch. destruct (channel0 b Hinv Hch) as (rawData & H0 & Hlen).
  exists rawData. split_and!; [done..|].
  rewrite analyzeSilence_detectSilence, detectSilence_all_spans by done.
  by rewrite emit_span_filter, H0, Hlen.
Qed.

(** ** Rounding to doubles *)

Lemma Qfloor_unique (x : Q) (z : Z) :
  (inject_Z z <= x)%Q → (x < inject_Z (z + 1))%Q → Qfloor x = z.
Proof.
  intros Hle Hlt.
  pose proof (Qfloor_le x) as Hfloor. pose proof (Qlt_floor x) as Hceil.
  assert (z < Qfloor x + 1)
    by (rewrite Zlt_Qlt; by eapply Qle_lt_trans).
  assert (Qfloor x < z + 1)
    by (rewrite Zlt_Qlt; by eapply Qle_lt_trans).
  lia.
Qed.

Lemma Qfloor_bounds (x : Q) :
  (inject_Z (Qfloor x) <= x)%Q ∧ (x < inject_Z (Qfloor x) + 1)%Q.
Proof.
  split; [apply Qfloor_le|].
  pose proof (Qlt_floor x) as H. by rewrite inject_Z_plus in H.
Qed.

Lemma pow2_pos (e : Z) : (0 < pow2 e)%Q.
Proof. by apply Qpower_0_lt. Qed.

Lemma pow2_add (a b : Z) : (pow2 (a + b) == pow2 a * pow2 b)%Q.
Proof. by apply Qpower_plus. Qed.

Lemma pow2_le (a b : Z) : a ≤ b → (pow2 a <= pow2 b)%Q.
Proof. intros H. by apply Qpower_le_compat_l. Qed.

Lemma pow2_lt_inv (a b : Z) : (pow2 a < pow2 b)%Q → a < b.
Proof. intros H. by apply (Qpower_lt_compat_l_inv 2). Qed.

Lemma pow2_inject (e : Z) : 0 ≤ e → (pow2 e == inject_Z (2 ^ e))%Q.
Proof. intros H. symmetry. by apply (Zpower_Qpower 2). Qed.

Lemma pow2_succ (a : Z) : (pow2 (a + 1) == 2 * pow2 a)%Q.
Proof. rewrite pow2_add. change (pow2 1) with 2%Q. ring. Qed.

(** An integer is a multiple of every power of 2 with an exponent that is
    not positive. *)
Lemma integer_on_grid (n e : Z) :
  e ≤ 0 → (inject_Z n == inject_Z (n * 2 ^ (- e)) * pow2 e)%Q.
Proof.
  intros He. rewrite inject_Z_mult, <- pow2_inject by lia.
  rewrite <- Qmult_assoc, <- pow2_add.
  replace (- e + e) with 0 by lia. change (pow2 0) with 1%Q. ring.
Qed.

Lemma half_integer_on_grid (n e : Z) :
  e ≤ -1 →
  (inject_Z n + (1 # 2) == inject_Z ((2 * n + 1) * 2 ^ (- 1 - e)) * pow2 e)%Q.
Proof.
  intros He. rewrite inject_Z_mult, <- pow2_inject by lia.
  rewrite <- Qmult_assoc, <- pow2_add.
  replace (- 1 - e + e) with (- 1) by lia. change (pow2 (-1)) with (1 # 2)%Q.
  rewrite inject_Z_plus, inject_Z_mult. change (inject_Z 2) with 2%Q.
  change (inject_Z 1) with 1%Q. field.
Qed.

Lemma binade_spec (q : Q) :
  (0 < q)%Q → (pow2 (binade q) <= q)%Q ∧ (q < pow2 (binade q + 1))%Q.
Proof.
  intros Hq. unfold binade. cbv zeta.
  set (a := Z.log2 (Qnum q)). set (b := Z.log2 (Z.pos (Qden q))).
  assert (Hn : 0 < Qnum q) by (destruct q as [n d]; unfold Qlt in Hq;
    simpl in *; lia).
  destruct (Z.log2_spec (Qnum q) Hn) as [Ha1 Ha2]. fold a in Ha1, Ha2.
  destruct (Z.log2_spec (Z.pos (Qden q)) eq_refl) as [Hb1 Hb2].
  fold b in Hb1, Hb2.
  assert (Ha0 : 0 ≤ a) by apply Z.log2_nonneg.
  assert (Hb0 : 0 ≤ b) by apply Z.log2_nonneg.
  pose proof (pow2_pos a) as HA. pose proof (pow2_pos b) as HB.
  assert (Hq' : (q == inject_Z (Qnum q) / inject_Z (Z.pos (Qden q)))%Q)
    by (destruct q; apply Qmake_Qdiv).
  assert (HD : (0 < inject_Z (Z.pos (Qden q)))%Q) by (by apply inject_Z_pos).
  assert (HN1 : (pow2 a <= inject_Z (Qnum q))%Q)
    by (rewrite pow2_inject by done; by rewrite <- Zle_Qle).
  assert (HN2 : (inject_Z (Qnum q) < 2 * pow2 a)%Q).
  { rewrite <- pow2_succ, pow2_inject by lia. rewrite <- Zlt_Qlt. lia. }
  assert (HD1 : (pow2 b <= inject_Z (Z.pos (Qden q)))%Q)
    by (rewrite pow2_inject by done; by rewrite <- Zle_Qle).
  assert (HD2 : (inject_Z (Z.pos (Qden q)) < 2 * pow2 b)%Q).
  { rewrite <- pow2_succ, pow2_inject by lia. rewrite <- Zlt_Qlt. lia. }
  assert (Hk : (pow2 (a - b) * pow2 b == pow2 a)%Q).
  { rewrite <- pow2_add. by replace (a - b + b) with a by lia. }
  set (N := inject_Z (Qnum q)) in *. set (D := inject_Z (Z.pos (Qden q))) in *.
  set (A := pow2 a) in *. set (B := pow2 b) in *.
  assert (Hupper : (q < 2 * pow2 (a - b))%Q).
  { rewrite Hq'. apply Qlt_shift_div_r; [done|].
    pose proof (pow2_pos (a - b)). set (K := pow2 (a - b)) in *. nra. }
  assert (Hlower : (pow2 (a - b) < 2 * q)%Q).
  { assert (E : (2 * q == 2 * N / D)%Q) by (rewrite Hq'; field; lra).
    rewrite E. apply Qlt_shift_div_l; [done|].
    pose proof (pow2_pos (a - b)). set (K := pow2 (a - b)) in *. nra. }
  destruct (Qle_bool (pow2 (a - b)) q) eqn:E.
  - apply Qle_bool_iff in E. split; [done|]. by rewrite pow2_succ.
  - assert (Hlt : (q < pow2 (a - b))%Q).
    { apply Qnot_le_lt. intros H. apply Qle_bool_iff in H. congruence. }
    replace (a - b - 1 + 1) with (a - b) by lia. split; [|done].
    assert (E2 : (pow2 (a - b) == 2 * pow2 (a - b - 1))%Q).
    { rewrite <- pow2_succ. by replace (a - b - 1 + 1) with (a - b) by lia. }
    lra.
Qed.

Lemma binade_lt (q : Q) (k : Z) : (0 < q)%Q → (q < pow2 k)%Q → binade q < k.
Proof.
  intros Hq Hk. destruct (binade_spec q Hq) as [H1 _].
  apply pow2_lt_inv. by eapply Qle_lt_trans.
Qed.

Lemma binade_ge (q : Q) (k : Z) : (0 < q)%Q → (pow2 k <= q)%Q → k ≤ binade q.
Proof.
  intros Hq Hk. destruct (binade_spec q Hq) as [_ H2].
  assert (k < binade q + 1); [|lia].
  apply pow2_lt_inv. by eapply Qle_lt_trans.
Qed.

(** *** Rounding to the nearest integer *)

Lemma round_half_even_cases (x : Q) :
  let f := Qfloor x in
  (round_half_even x = f ∧ (x - inject_Z f <= 1 # 2)%Q ∧
   ((x - inject_Z f == 1 # 2)%Q → Z.even f = true)) ∨
  (round_half_even x = f + 1 ∧ (1 # 2 <= x - inject_Z f)%Q ∧
   ((x - inject_Z f == 1 # 2)%Q → Z.even f = false)).
Proof.
  cbv zeta. unfold round_half_even. cbv zeta.
  destruct (Qcompare_spec (x - inject_Z (Qfloor x)) (1 # 2)) as [E|E|E].
  - destruct (Z.even (Qfloor x)) eqn:Heven; [left|right];
      (split; [done|]; split; [by rewrite E|done]).
  - left. split; [done|]. split; [by apply Qlt_le_weak|].
    intros E'. rewrite E' in E. by apply Qlt_irrefl in E.
  - right. split; [done|]. split; [by apply Qlt_le_weak|].
    intros E'. rewrite E' in E. by apply Qlt_irrefl in E.
Qed.

Lemma round_half_even_error (x : Q) :
  (inject_Z (round_half_even x) - (1 # 2) <= x)%Q ∧
  (x <= inject_Z (round_half_even x) + (1 # 2))%Q.
Proof.
  destruct (Qfloor_bounds x) as [H1 H2].
  destruct (round_half_even_cases x) as [(-> & H & _)|(-> & H & _)].
  - lra.
  - rewrite inject_Z_plus. change (inject_Z 1) with 1%Q. lra.
Qed.

Lemma round_half_even_le (x : Q) (N : Z) :
  (x <= inject_Z N)%Q → round_half_even x ≤ N.
Proof.
  intros Hx. destruct (Qfloor_bounds x) as [H1 H2].
  assert (Hf : Qfloor x ≤ N) by (rewrite Zle_Qle; lra).
  destruct (round_half_even_cases x) as [(-> & _)|(-> & H & _)]; [done|].
  destruct (Z.eq_dec (Qfloor x) N) as [E|E]; [|lia].
  rewrite E in *. lra.
Qed.

Lemma round_half_even_ge (x : Q) (N : Z) :
  (inject_Z N <= x)%Q → N ≤ round_half_even x.
Proof.
  intros Hx.
  assert (Hf : N ≤ Qfloor x).
  { rewrite <- (Qfloor_Z N). by apply Qfloor_resp_le. }
  destruct (round_half_even_cases x) as [(-> & _)|(-> & _)]; lia.
Qed.

Lemma round_half_even_monotone (x y : Q) :
  (x <= y)%Q → round_half_even x ≤ round_half_even y.
Proof.
  intros Hxy. pose proof (Qfloor_resp_le x y Hxy) as Hf.
  destruct (round_half_even_cases x) as [(-> & Hx & Ex)|(-> & Hx & Ex)],
    (round_half_even_cases y) as [(-> & Hy & Ey)|(-> & Hy & Ey)]; try lia.
  destruct (Z.eq_dec (Qfloor x) (Qfloor y)) as [E|E]; [|lia].
  rewrite E in *.
  assert (Hx' : (x - inject_Z (Qfloor y) == 1 # 2)%Q) by lra.
  assert (Hy' : (y - inject_Z (Qfloor y) == 1 # 2)%Q) by lra.
  specialize (Ex Hx'). specialize (Ey Hy'). congruence.
Qed.

(** *** The nearest double *)

Lemma double_positive (q : Q) : (0 < q)%Q → double q = double_of_positive q.
Proof.
  destruct q as [[|n|n] d]; unfold Qlt; simpl; intros H; (done || lia).
Qed.

Lemma double_negative (q : Q) :
  (q < 0)%Q → double q = (- double_of_positive (- q))%Q.
Proof.
  destruct q as [[|n|n] d]; unfold Qlt; simpl; intros H; (done || lia).
Qed.

Lemma double_zero (q : Q) : (q == 0)%Q → double q = 0%Q.
Proof.
  destruct q as [[|n|n] d]; unfold Qeq; simpl; intros H; (done || lia).
Qed.

Lemma double_of_positive_nonneg (q : Q) :
  (0 < q)%Q → (0 <= double_of_positive q)%Q.
Proof.
  intros Hq. unfold double_of_positive. cbv zeta.
  pose proof (pow2_pos (ulp_exponent q)) as He.
  apply Qmult_le_0_compat; [|lra].
  change 0%Q with (inject_Z 0). rewrite <- Zle_Qle.
  apply round_half_even_ge. change (inject_Z 0) with 0%Q.
  apply Qle_shift_div_l; [done|lra].
Qed.

(** A multiple of the unit in the last place that bounds [q] bounds the
    double nearest to [q]. *)
Lemma double_of_positive_le (q : Q) (N : Z) :
  (q <= inject_Z N * pow2 (ulp_exponent q))%Q →
  (double_of_positive q <= inject_Z N * pow2 (ulp_exponent q))%Q.
Proof.
  intros Hq. unfold double_of_positive. cbv zeta.
  pose proof (pow2_pos (ulp_exponent q)) as He.
  apply Qmult_le_compat_r; [|lra]. rewrite <- Zle_Qle.
  apply round_half_even_le. by apply Qle_shift_div_r.
Qed.

Lemma double_of_positive_ge (q : Q) (N : Z) :
  (inject_Z N * pow2 (ulp_exponent q) <= q)%Q →
  (inject_Z N * pow2 (ulp_exponent q) <= double_of_positive q)%Q.
Proof.
  intros Hq. unfold double_of_positive. cbv zeta.
  pose proof (pow2_pos (ulp_exponent q)) as He.
  apply Qmult_le_compat_r; [|lra]. rewrite <- Zle_Qle.
  apply round_half_even_ge. by apply Qle_shift_div_l.
Qed.

(** The double nearest to [q] is within half a unit in the last place. *)
Lemma double_of_positive_error (q : Q) :
  (double_of_positive q - pow2 (ulp_exponent q) / 2 <= q)%Q ∧
  (q <= double_of_positive q + pow2 (ulp_exponent q) / 2)%Q.
Proof.
  unfold double_of_positive. cbv zeta.
  pose proof (pow2_pos (ulp_exponent q)) as He.
  set (u := pow2 (ulp_exponent q)) in *.
  destruct (round_half_even_error (q / u)) as [H1 H2].
  set (m := inject_Z (round_half_even (q / u))) in *.
  assert (E : (q == q / u * u)%Q) by (field; lra).
  set (x := (q / u)%Q) in *.
  assert (Hlo : (0 <= (x - (m - (1 # 2))) * u)%Q)
    by (apply Qmult_le_0_compat; lra).
  assert (Hhi : (0 <= (m + (1 # 2) - x) * u)%Q)
    by (apply Qmult_le_0_compat; lra).
  assert (Ehalf : (u / 2 == (1 # 2) * u)%Q) by (field; lra).
  rewrite Ehalf, E. split; nra.
Qed.

Lemma ulp_exponent_le (q : Q) (k : Z) :
  (0 < q)%Q → (q < pow2 k)%Q → -1074 ≤ k - 53 → ulp_exponent q ≤ k - 53.
Proof.
  intros Hq Hk Hmin. pose proof (binade_lt q k Hq Hk). unfold ulp_exponent. lia.
Qed.

(** Below 2^53 the doubles include the integers: rounding does not cross
    one. *)
Lemma double_le_integer (q : Q) (N : Z) :
  (q <= inject_Z N)%Q → 0 ≤ N < 2 ^ 53 → (double q <= inject_Z N)%Q.
Proof.
  intros Hq HN.
  assert (HN' : (0 <= inject_Z N)%Q)
    by (change 0%Q with (inject_Z 0); rewrite <- Zle_Qle; lia).
  destruct (Qlt_le_dec 0 q) as [Hpos|Hneg].
  - rewrite double_positive by done.
    assert (He : ulp_exponent q ≤ 0).
    { apply (ulp_exponent_le q 53); [done| |lia].
      eapply Qle_lt_trans; [exact Hq|]. rewrite pow2_inject by lia.
      rewrite <- Zlt_Qlt. lia. }
    rewrite (integer_on_grid N (ulp_exponent q) He) in Hq |- *.
    by apply double_of_positive_le.
  - destruct (Qeq_dec q 0) as [E|E]; [by rewrite double_zero|].
    assert (Hlt : (q < 0)%Q) by (apply Qle_lteq in Hneg as [?|?]; done).
    rewrite double_negative by done.
    pose proof (double_of_positive_nonneg (- q) ltac:(lra)). lra.
Qed.

Lemma double_ge_integer (q : Q) (N : Z) :
  (inject_Z N <= q)%Q → 0 ≤ N → (q < inject_Z (2 ^ 53))%Q →
  (inject_Z N <= double q)%Q.
Proof.
  intros Hq HN Hbig.
  assert (HN' : (0 <= inject_Z N)%Q)
    by (change 0%Q with (inject_Z 0); rewrite <- Zle_Qle; lia).
  destruct (Qlt_le_dec 0 q) as [Hpos|Hneg].
  - rewrite double_positive by done.
    assert (He : ulp_exponent q ≤ 0).
    { apply (ulp_exponent_le q 53); [done| |lia]. by rewrite pow2_inject. }
    rewrite (integer_on_grid N (ulp_exponent q) He) in Hq |- *.
    by apply double_of_positive_ge.
  - assert (E : (q == 0)%Q) by lra. rewrite double_zero by done. lra.
Qed.

Lemma double_nonneg (q : Q) : (0 <= q)%Q → (0 <= double q)%Q.
Proof.
  intros Hq. destruct (Qeq_dec q 0) as [E|E]; [by rewrite double_zero|].
  assert (Hpos : (0 < q)%Q) by (apply Qle_lteq in Hq as [?|?]; [done|];
    by elim E).
  rewrite double_positive by done. by apply double_of_positive_nonneg.
Qed.

Lemma Qfloor_double_le (q : Q) (N : Z) :
  (q <= inject_Z N)%Q → 0 ≤ N < 2 ^ 53 → Qfloor (double q) ≤ N.
Proof.
  intros Hq HN. rewrite <- (Qfloor_Z N).
  by apply Qfloor_resp_le, double_le_integer.
Qed.

Lemma Qfloor_double_nonneg (q : Q) : (0 <= q)%Q → 0 ≤ Qfloor (double q).
Proof.
  intros Hq. change 0 with (Qfloor 0).
  by apply Qfloor_resp_le, double_nonneg.
Qed.

(** An integer below 2^53 is a double. *)
Lemma double_integer (n : Z) :
  0 ≤ n < 2 ^ 53 → (double (inject_Z n) == inject_Z n)%Q.
Proof.
  intros Hn. apply Qle_antisym.
  - apply double_le_integer; [apply Qle_refl|done].
  - apply double_ge_integer; [apply Qle_refl|lia|]. rewrite <- Zlt_Qlt. lia.
Qed.

Lemma binade_comp (q q' : Q) : (0 < q)%Q → (q == q')%Q → binade q = binade q'.
Proof.
  intros Hq E. assert (Hq' : (0 < q')%Q) by lra.
  destruct (binade_spec q Hq) as [H1 H2].
  destruct (binade_spec q' Hq') as [H1' H2'].
  assert (binade q < binade q' + 1) by (apply pow2_lt_inv; lra).
  assert (binade q' < binade q + 1) by (apply pow2_lt_inv; lra).
  lia.
Qed.

Lemma round_half_even_comp (x y : Q) :
  (x == y)%Q → round_half_even x = round_half_even y.
Proof.
  intros E. unfold round_half_even. cbv zeta.
  rewrite (Qfloor_comp x y E).
  assert (E' : (x - inject_Z (Qfloor y) == y - inject_Z (Qfloor y))%Q)
    by (by rewrite E).
  by rewrite (Qcompare_comp _ _ E' (1 # 2) (1 # 2) (Qeq_refl _)).
Qed.

Lemma double_of_positive_comp (q q' : Q) :
  (0 < q)%Q → (q == q')%Q → (double_of_positive q == double_of_positive q')%Q.
Proof.
  intros Hq E. unfold double_of_positive, ulp_exponent. cbv zeta.
  rewrite (binade_comp q q' Hq E).
  set (e := Z.max _ _).
  assert (E' : (q / pow2 e == q' / pow2 e)%Q) by (by rewrite E).
  by rewrite (round_half_even_comp _ _ E').
Qed.

#[global] Instance double_comp : Proper (Qeq ==> Qeq) double.
Proof.
  intros q q' E. destruct (Qlt_le_dec 0 q) as [Hpos|Hneg].
  - rewrite (double_positive q), (double_positive q') by (by rewrite <- ?E).
    by apply double_of_positive_comp.
  - destruct (Qeq_dec q 0) as [E0|E0].
    + rewrite (double_zero q), (double_zero q') by (by rewrite <- ?E). done.
    + assert (Hlt : (q < 0)%Q) by (apply Qle_lteq in Hneg as [?|?]; done).
      rewrite (double_negative q), (double_negative q') by (by rewrite <- ?E).
      apply Qopp_comp, double_of_positive_comp; [lra|by rewrite E].
Qed.

(** Rounding keeps the order of numbers that are not negative. *)
Lemma double_monotone (q1 q2 : Q) :
  (0 <= q1)%Q → (q1 <= q2)%Q → (double q1 <= double q2)%Q.
Proof.
  intros H1 H12. destruct (Qeq_dec q1 0) as [E|E].
  { rewrite (double_zero q1) by done. apply double_nonneg. lra. }
  assert (Hq1 : (0 < q1)%Q) by (apply Qle_lteq in H1 as [?|?]; [done|];
    by elim E).
  assert (Hq2 : (0 < q2)%Q) by lra.
  rewrite !double_positive by done.
  destruct (binade_spec q1 Hq1) as [Hb1 Hb1'].
  destruct (binade_spec q2 Hq2) as [Hb2 Hb2'].
  assert (Hb : binade q1 ≤ binade q2) by (apply binade_ge; [done|lra]).
  destruct (Z.eq_dec (ulp_exponent q1) (ulp_exponent q2)) as [Ee|Ee].
  - unfold double_of_positive. cbv zeta. rewrite Ee.
    pose proof (pow2_pos (ulp_exponent q2)) as He.
    apply Qmult_le_compat_r; [|lra]. rewrite <- Zle_Qle.
    apply round_half_even_monotone.
    apply Qle_shift_div_l; [done|].
    assert (E2 : (q1 / pow2 (ulp_exponent q2) * pow2 (ulp_exponent q2) == q1)%Q)
      by (field; lra).
    by rewrite E2.
  - assert (He : ulp_exponent q1 + 1 ≤ ulp_exponent q2
                 ∧ ulp_exponent q2 = binade q2 - 52
                 ∧ binade q1 - 52 ≤ ulp_exponent q1)
      by (unfold ulp_exponent in *; lia).
    destruct He as (He1 & He2 & He3).
    set (e1 := ulp_exponent q1) in *. set (e2 := ulp_exponent q2) in *.
    apply Qle_trans with (inject_Z (2 ^ 53) * pow2 e1)%Q.
    + apply double_of_positive_le. fold e1.
      rewrite <- pow2_inject, <- pow2_add by lia.
      apply Qlt_le_weak. eapply Qlt_le_trans; [exact Hb1'|].
      apply pow2_le. lia.
    + apply Qle_trans with (inject_Z (2 ^ 52) * pow2 e2)%Q.
      * rewrite <- !pow2_inject, <- !pow2_add by lia. apply pow2_le. lia.
      * apply double_of_positive_ge. fold e2.
        rewrite <- pow2_inject, <- pow2_add by lia.
        by replace (52 + e2) with (binade q2) by lia.
Qed.

(** Below 2^52 the doubles include the half-integers. *)
Lemma double_le_half (q : Q) (N : Z) :
  (q <= inject_Z N + (1 # 2))%Q → 0 ≤ N < 2 ^ 52 - 1 →
  (double q <= inject_Z N + (1 # 2))%Q.
Proof.
  intros Hq HN.
  assert (HN' : (0 <= inject_Z N)%Q)
    by (change 0%Q with (inject_Z 0); rewrite <- Zle_Qle; lia).
  destruct (Qlt_le_dec 0 q) as [Hpos|Hneg].
  - rewrite double_positive by done.
    assert (He : ulp_exponent q ≤ -1).
    { apply (ulp_exponent_le q 52); [done| |lia].
      rewrite pow2_inject by lia.
      assert ((inject_Z N + 1 <= inject_Z (2 ^ 52))%Q); [|lra].
      change 1%Q with (inject_Z 1).
      rewrite <- inject_Z_plus, <- Zle_Qle. lia. }
    rewrite (half_integer_on_grid N (ulp_exponent q) He) in Hq |- *.
    by apply double_of_positive_le.
  - destruct (Qeq_dec q 0) as [E|E]; [rewrite double_zero by done; lra|].
    assert (Hlt : (q < 0)%Q) by (apply Qle_lteq in Hneg as [?|?]; done).
    rewrite double_negative by done.
    pose proof (double_of_positive_nonneg (- q) ltac:(lra)). lra.
Qed.

Lemma double_ge_half (q : Q) (N : Z) :
  (inject_Z N + (1 # 2) <= q)%Q → 0 ≤ N → (q < inject_Z (2 ^ 52))%Q →
  (inject_Z N + (1 # 2) <= double q)%Q.
Proof.
  intros Hq HN Hbig.
  assert (HN' : (0 <= inject_Z N)%Q)
    by (change 0%Q with (inject_Z 0); rewrite <- Zle_Qle; lia).
  assert (Hpos : (0 < q)%Q) by lra.
  rewrite double_positive by done.
  assert (He : ulp_exponent q ≤ -1).
  { apply (ulp_exponent_le q 52); [done| |lia]. by rewrite pow2_inject. }
  rewrite (half_integer_on_grid N (ulp_exponent q) He) in Hq |- *.
  by apply double_of_positive_ge.
Qed.

(** A number of the normal range and its double differ by at most the
    number times 2^-53. *)
Lemma double_relative_error (q : Q) :
  (pow2 (-1022) <= q)%Q →
  (q - q * pow2 (-53) <= double q)%Q ∧ (double q <= q + q * pow2 (-53))%Q.
Proof.
  intros Hq. pose proof (pow2_pos (-1022)) as Hmin.
  assert (Hpos : (0 < q)%Q) by lra.
  rewrite double_positive by done.
  destruct (binade_spec q Hpos) as [Hb _].
  assert (Hbin : -1022 ≤ binade q).
  { destruct (binade_spec q Hpos) as [_ Hb'].
    assert (-1022 < binade q + 1); [|lia].
    apply pow2_lt_inv. by eapply Qle_lt_trans. }
  assert (He : ulp_exponent q = binade q - 52) by (unfold ulp_exponent; lia).
  destruct (double_of_positive_error q) as [H1 H2]. rewrite He in H1, H2.
  assert (E : (pow2 (binade q - 52) / 2 == pow2 (binade q) * pow2 (-53))%Q).
  { replace (binade q - 52) with (binade q + -53 + 1) by lia.
    rewrite pow2_succ, pow2_add. field. }
  rewrite E in H1, H2. pose proof (pow2_pos (-53)) as H53.
  assert (Hle : (pow2 (binade q) * pow2 (-53) <= q * pow2 (-53))%Q)
    by (apply Qmult_le_compat_r; lra).
  split; lra.
Qed.

(** *** From a sample index to seconds and back *)

(** The sample index the gap-remover finds for the time the detector stored
    for index [s]: both the quotient and the product are rounded, and what
    comes back is [s] or, when the product falls short of [s], [s - 1]. *)
Lemma double_round_trip (sr s : Z) :
  0 < sr < 2 ^ 32 → 1 ≤ s < 2 ^ 32 →
  let y := double (double (inject_Z s / inject_Z sr) * inject_Z sr) in
  (inject_Z s - (1 # 2) <= y)%Q ∧ (y <= inject_Z s + (1 # 2))%Q.
Proof.
  intros Hsr Hs. cbv zeta.
  assert (Hsr' : (0 < inject_Z sr)%Q) by (apply inject_Z_pos; lia).
  assert (Hsr32 : (inject_Z sr <= inject_Z (2 ^ 32))%Q)
    by (rewrite <- Zle_Qle; lia).
  assert (Hs1 : (1 <= inject_Z s)%Q)
    by (change 1%Q with (inject_Z 1); rewrite <- Zle_Qle; lia).
  assert (Hs32 : (inject_Z s <= inject_Z (2 ^ 32))%Q)
    by (rewrite <- Zle_Qle; lia).
  rewrite <- pow2_inject in Hsr32, Hs32 by lia.
  set (S := inject_Z s) in *. set (R := inject_Z sr) in *.
  set (t := (S / R)%Q).
  assert (Et : (t * R == S)%Q) by (unfold t; field; lra).
  assert (Ht : (pow2 (-1022) <= t)%Q).
  { apply Qle_trans with (pow2 (-32)); [by apply pow2_le|].
    unfold t. apply Qle_shift_div_l; [done|].
    assert (E : (pow2 (-32) * pow2 32 == 1)%Q)
      by (rewrite <- pow2_add; reflexivity).
    pose proof (pow2_pos (-32)) as H32.
    assert (pow2 (-32) * R <= pow2 (-32) * pow2 32)%Q; [|lra].
    rewrite !(Qmult_comm (pow2 (-32))). apply Qmult_le_compat_r; lra. }
  destruct (double_relative_error t Ht) as [H1 H2].
  set (x := double t) in *.
  assert (Herr : (S * pow2 (-53) <= 1 # 2)%Q).
  { assert (E : (pow2 32 * pow2 (-53) == pow2 (-21))%Q)
      by (rewrite <- pow2_add; reflexivity).
    assert (H21 : (pow2 (-21) <= 1 # 2)%Q) by (apply (pow2_le (-21) (-1)); lia).
    pose proof (pow2_pos (-53)) as H53.
    assert (S * pow2 (-53) <= pow2 32 * pow2 (-53))%Q; [|lra].
    apply Qmult_le_compat_r; lra. }
  assert (Hlo : (S - (1 # 2) <= x * R)%Q).
  { assert ((t - t * pow2 (-53)) * R <= x * R)%Q
      by (apply Qmult_le_compat_r; lra).
    assert (E : ((t - t * pow2 (-53)) * R == S - S * pow2 (-53))%Q)
      by (rewrite <- Et; ring).
    lra. }
  assert (Hhi : (x * R <= S + (1 # 2))%Q).
  { assert (x * R <= (t + t * pow2 (-53)) * R)%Q
      by (apply Qmult_le_compat_r; lra).
    assert (E : ((t + t * pow2 (-53)) * R == S + S * pow2 (-53))%Q)
      by (rewrite <- Et; ring).
    lra. }
  assert (Hbig : (S + 1 <= inject_Z (2 ^ 52))%Q).
  { unfold S. change 1%Q with (inject_Z 1).
    rewrite <- inject_Z_plus, <- Zle_Qle. lia. }
  split.
  - assert (E : (S - (1 # 2) == inject_Z (s - 1) + (1 # 2))%Q).
    { unfold S, Z.sub. rewrite inject_Z_plus, inject_Z_opp.
      change (inject_Z 1) with 1%Q. ring. }
    rewrite E in Hlo |- *. apply double_ge_half; [done|lia|lra].
  - apply double_le_half; [done|lia].
Qed.

(** *** Doubles with few binary places *)

Lemma dyadic_on_grid (n j e : Z) :
  0 ≤ j → e ≤ - j →
  (inject_Z n * pow2 (- j) == inject_Z (n * 2 ^ (- j - e)) * pow2 e)%Q.
Proof.
  intros Hj He. rewrite inject_Z_mult, <- pow2_inject by lia.
  rewrite <- Qmult_assoc, <- pow2_add.
  by replace (- j - e + e) with (- j) by lia.
Qed.

(** A multiple of [2 ^ - j] with fewer than 53 bits is a double: rounding
    does not cross it. *)
Lemma double_le_dyadic (q : Q) (N j : Z) :
  (q <= inject_Z N * pow2 (- j))%Q → 0 ≤ j ≤ 1074 → 0 ≤ N < 2 ^ 53 →
  (double q <= inject_Z N * pow2 (- j))%Q.
Proof.
  intros Hq Hj HN. pose proof (pow2_pos (- j)) as Hp.
  assert (HN' : (0 <= inject_Z N)%Q)
    by (change 0%Q with (inject_Z 0); rewrite <- Zle_Qle; lia).
  assert (Hg : (0 <= inject_Z N * pow2 (- j))%Q)
    by (apply Qmult_le_0_compat; lra).
  destruct (Qlt_le_dec 0 q) as [Hpos|Hneg].
  - rewrite double_positive by done.
    assert (He : ulp_exponent q ≤ - j).
    { replace (- j) with (53 - j - 53) by lia.
      apply ulp_exponent_le; [done| |lia].
      eapply Qle_lt_trans; [exact Hq|].
      replace (53 - j) with (53 + - j) by lia. rewrite pow2_add.
      apply Qmult_lt_compat_r; [done|]. rewrite pow2_inject by lia.
      rewrite <- Zlt_Qlt. lia. }
    rewrite (dyadic_on_grid N j (ulp_exponent q) (proj1 Hj) He) in Hq |- *.
    by apply double_of_positive_le.
  - destruct (Qeq_dec q 0) as [E|E]; [by rewrite double_zero|].
    assert (Hlt : (q < 0)%Q) by (apply Qle_lteq in Hneg as [?|?]; done).
    rewrite double_negative by done.
    pose proof (double_of_positive_nonneg (- q) ltac:(lra)). lra.
Qed.

(** The quotient of two integers below 2^32, rounded, has the floor of the
    quotient. *)
Lemma Qfloor_double_div (n c : Z) :
  0 ≤ n < 2 ^ 32 → 0 < c < 2 ^ 20 →
  Qfloor (double (inject_Z n / inject_Z c)) = n / c.
Proof.
  intros Hn Hc.
  assert (Hc' : (0 < inject_Z c)%Q) by (apply inject_Z_pos; lia).
  pose proof (Z.div_mod n c ltac:(lia)) as Hdiv.
  pose proof (Z.mod_pos_bound n c ltac:(lia)) as Hmod.
  assert (Hk : 0 ≤ n / c) by (apply Z.div_pos; lia).
  assert (Hk' : n / c ≤ n) by (apply Z.div_le_upper_bound; nia).
  set (k := n / c) in *. set (r := n mod c) in *.
  assert (En : (inject_Z n == inject_Z c * inject_Z k + inject_Z r)%Q)
    by (by rewrite Hdiv, inject_Z_plus, inject_Z_mult).
  assert (Hr0 : (0 <= inject_Z r)%Q)
    by (change 0%Q with (inject_Z 0); rewrite <- Zle_Qle; lia).
  assert (Hr1 : (inject_Z r + 1 <= inject_Z c)%Q).
  { change 1%Q with (inject_Z 1). rewrite <- inject_Z_plus, <- Zle_Qle. lia. }
  assert (Hc20 : (inject_Z c <= pow2 20)%Q)
    by (rewrite pow2_inject by lia; rewrite <- Zle_Qle; lia).
  assert (Hlo : (inject_Z k <= inject_Z n / inject_Z c)%Q).
  { apply Qle_shift_div_l; [done|]. rewrite En. lra. }
  assert (E20 : (pow2 (-20) * pow2 20 == 1)%Q)
    by (rewrite <- pow2_add; reflexivity).
  pose proof (pow2_pos (-20)) as H20.
  assert (Hhi : (inject_Z n / inject_Z c <=
                 inject_Z ((k + 1) * 2 ^ 20 - 1) * pow2 (- 20))%Q).
  { apply Qle_shift_div_r; [done|].
    unfold Z.sub. rewrite inject_Z_plus, inject_Z_mult, inject_Z_plus.
    rewrite <- pow2_inject by lia. change (inject_Z (- (1))) with (- (1))%Q.
    change (inject_Z 1) with 1%Q. rewrite En.
    assert (Hprod : (pow2 (-20) * inject_Z c <= 1)%Q).
    { rewrite <- E20. rewrite !(Qmult_comm (pow2 (-20))).
      apply Qmult_le_compat_r; lra. }
    set (K := inject_Z k) in *. set (C := inject_Z c) in *.
    set (P := pow2 20) in *. set (p := pow2 (-20)) in *.
    set (R := inject_Z r) in *.
    assert (E : (((K + 1) * P + - (1)) * p * C == (K + 1) * C * (p * P) - p * C)%Q)
      by ring.
    rewrite E, E20. lra. }
  apply Qfloor_unique.
  - apply double_ge_integer; [done|done|].
    apply Qle_lt_trans with (inject_Z n).
    + apply Qle_shift_div_r; [done|].
      assert (Hn0 : (0 <= inject_Z n)%Q)
        by (change 0%Q with (inject_Z 0); rewrite <- Zle_Qle; lia).
      assert (Hc1 : (1 <= inject_Z c)%Q)
        by (change 1%Q with (inject_Z 1); rewrite <- Zle_Qle; lia).
      nra.
    + rewrite <- Zlt_Qlt. lia.
  - eapply Qle_lt_trans.
    + apply (double_le_dyadic _ ((k + 1) * 2 ^ 20 - 1) 20); [exact Hhi|lia|].
      lia.
    + unfold Z.sub. rewrite inject_Z_plus, inject_Z_mult.
      rewrite <- pow2_inject by lia. change (inject_Z (- (1))) with (- (1))%Q.
      set (K := inject_Z (k + 1)) in *.
      assert (E : ((K * pow2 20 + - (1)) * pow2 (-20) ==
                   K * (pow2 (-20) * pow2 20) - pow2 (-20))%Q) by ring.
      rewrite E, E20. lra.
Qed.

(** The model on numbers of the application: 1800/44100 and 3600/44100
    seconds come back as frames 1799 and 3599, 15/44100 seconds as frame
    14, and the double next to 0.3 times 8000 is 2400. *)
Example double_samples :
  Qfloor (double (double (1800 / 44100) * 44100)) = 1799 ∧
  Qfloor (double (double (3600 / 44100) * 44100)) = 3599 ∧
  Qfloor (double (double (15 / 44100) * 44100)) = 14 ∧
  Qfloor (double (double 0.3 * 8000)) = 2400 ∧
  (double 0.1 == 3602879701896397 # 36028797018963968)%Q.
Proof. by vm_compute. Qed.

Lemma pause_then_tone_inv : SampleBuffer_inv pause_then_tone.
Proof. split; [repeat constructor|done]. Qed.

Lemma tone_then_pause_inv : SampleBuffer_inv tone_then_pause.
Proof. split; [repeat constructor|done]. Qed.

(** C3. On a buffer with at least one channel, [analyzeSilence] returns what
    the two-state machine of the design emits: started in [Sounding] and run
    over the samples of channel 0 whose index is a multiple of the stride,
    it records the index on Sounding -> Silent, applies the duration test
    on Silent -> Sounding, and at the end of the stream applies the same
    test with the buffer's length as the closing boundary. *)
Theorem analyzeSilence_state_machine (b : AudioBuffer) (minDuration : Q) :
  SampleBuffer_inv b → 1 ≤ numberOfChannels b →
  ∃ rawData,
    channelData b !! 0%nat = Some rawData ∧
    analyzeSilence b minDuration =
    Ok (let '(st, out) :=
          run_machine (sampleRate b) minDuration (visited rawData) Sounding in
        out ++ flush (sampleRate b) minDuration (bufLength b) st).
Proof.
  intros Hinv Hch. destruct (channel0 b Hinv Hch) as (rawData & H0 & _).
  exists rawData. split; [done|].
  rewrite analyzeSilence_detectSilence by done.
  unfold detectSilence. by rewrite H0.
Qed.

Lemma analyzeSilence_state_machine_witness :
  ∃ rawData,
    channelData tone_then_pause !! 0%nat = Some rawData ∧
    analyzeSilence tone_then_pause 0.01 =
    Ok (let '(st, out) :=
          run_machine (sampleRate tone_then_pause) 0.01 (visited rawData)
            Sounding in
        out ++ flush (sampleRate tone_then_pause) 0.01
                 (bufLength tone_then_pause) st).
Proof.
  apply (analyzeSilence_state_machine tone_then_pause 0.01).
  - split; [repeat constructor|reflexivity].
  - vm_compute. discriminate.
Defined.



(** C9. Every region [analyzeSilence] returns starts at (k * 200) /
    sampleRate for an integer k >= 0, and ends either at (m * 200) /
    sampleRate for an integer m > k or, for the last region only, at
    length / sampleRate. *)
Theorem analyzeSilence_boundaries (b : AudioBuffer) (minDuration : Q) :
  SampleBuffer_inv b → 1 ≤ numberOfChannels b →
  ∃ regions,
    analyzeSilence b minDuration = Ok regions ∧
    ∀ (j : nat) (r : Region), regions !! j = Some r →
      ∃ k : Z, 0 ≤ k ∧
        start r = (inject_Z (k * 200) / inject_Z (sampleRate b))%Q ∧
        ((∃ m : Z, k < m ∧
            end_ r = (inject_Z (m * 200) / inject_Z (sampleRate b))%Q) ∨
         (S j = length regions ∧
          end_ r = (inject_Z (bufLength b) / inject_Z (sampleRate b))%Q)).
Proof.
  intros Hinv Hch.
  destruct (analyzeSilence_spans b minDuration Hinv Hch)
    as (rawData & _ & Hlen & ->).
  destruct (all_spans_inv rawData) as (st & body & -> & Hall & _ & Hst).
  eexists. split; [done|]. intros j r Hj.
  rewrite filter_app, fmap_app in Hj |- *.
  set (P := λ p, passes (sampleRate b) minDuration p = true) in *.
  apply lookup_app_Some in Hj as [Hj|[Hge Hj]].
  - apply list_lookup_fmap_Some in Hj as (p & -> & Hp).
    apply list_elem_of_lookup_2, list_elem_of_filter in Hp as [_ Hp].
    eapply Forall_forall in Hall as ([k Hk] & [m Hm] & H0 & Hlt & _);
      [|exact Hp].
    unfold step in Hk, Hm. exists k. split_and!; [lia|by rewrite <- Hk|].
    left. exists m. split; [lia|by rewrite <- Hm].
  - apply list_lookup_fmap_Some in Hj as (p & -> & Hp).
    destruct st as [|s]; [done|]. destruct Hst as ([k Hk] & H0 & _).
    simpl in Hp. rewrite filter_cons, filter_nil in Hp.
    rewrite length_app, !length_fmap in *. simpl.
    rewrite filter_cons, filter_nil.
    case_decide; [|done].
    destruct (j - length (filter P body))%nat as [|n] eqn:Hn; [|done].
    injection Hp as <-. unfold step in Hk.
    exists k. split_and!; [lia|by rewrite <- Hk|].
    right. simpl. split; [lia|by rewrite Hlen].
Qed.

Lemma analyzeSilence_boundaries_witness :
  ∃ regions,
    analyzeSilence tone_then_pause 0.01 = Ok regions ∧
    ∀ (j : nat) (r : Region), regions !! j = Some r →
      ∃ k : Z, 0 ≤ k ∧
        start r = (inject_Z (k * 200) / inject_Z (sampleRate tone_then_pause))%Q ∧
        ((∃ m : Z, k < m ∧
            end_ r = (inject_Z (m * 200) /
                      inject_Z (sampleRate tone_then_pause))%Q) ∨
         (S j = length regions ∧
          end_ r = (inject_Z (bufLength tone_then_pause) /
                    inject_Z (sampleRate tone_then_pause))%Q)).
Proof.
  apply (analyzeSilence_boundaries tone_then_pause 0.01).
  - split; [repeat constructor|reflexivity].
  - vm_compute. discriminate.
Defined.

(** C10. A minimum duration that is zero or negative filters nothing:
    [analyzeSilence] returns the same list as for the minimum duration 0. *)
Theorem analyzeSilence_nonpositive_minDuration (b : AudioBuffer) (minDuration : Q) :
  SampleBuffer_inv b → (minDuration <= 0)%Q →
  analyzeSilence b minDuration = analyzeSilence b 0.
Proof.
  intros Hinv Hm.
  destruct (decide (1 ≤ numberOfChannels b)) as [Hch|Hch].
  - destruct (analyzeSilence_spans b minDuration Hinv Hch)
      as (rawData & H0 & _ & ->).
    destruct (analyzeSilence_spans b 0 Hinv Hch) as (rawData' & H0' & _ & ->).
    rewrite H0 in H0'. injection H0' as <-. do 2 f_equal.
    destruct Hinv as [_ Hsr].
    pose proof (all_spans_bounds rawData) as Hb.
    induction Hb as [|p spans (_ & _ & Hp & _) _ IH]; [done|].
    rewrite !filter_cons, IH.
    rewrite !(passes_nonpositive (sampleRate b) _ p Hsr Hp) by done.
    by rewrite !decide_True by done.
  - unfold numberOfChannels, len in Hch. unfold analyzeSilence, getChannelData.
    destruct (channelData b); [done|]. simpl in Hch. lia.
Qed.

Lemma analyzeSilence_nonpositive_minDuration_witness :
  analyzeSilence pause_then_tone (-5) = analyzeSilence pause_then_tone 0.
Proof.
  apply (analyzeSilence_nonpositive_minDuration pause_then_tone (-5)).
  - split; [repeat constructor|reflexivity].
  - vm_compute. discriminate.
Defined.

(** ** The gap-remover *)

Lemma bind_Ok {A B} (m : result A) (f : A → result B) (b : B) :
  m ≫= f = Ok b ↔ ∃ a, m = Ok a ∧ f a = Ok b.
Proof.
  destruct m; simpl; split; try done; try (by intros (? & ? & ?)).
  - intros H. by eexists.
  - by intros (? & [= ->] & ?).
Qed.

Lemma cut_walk (sr length : Z) : ∀ (sorted : list Region) (st : cut),
  let st' := foldl (cut_body sr) st sorted in
  (if cursor st' <? length
   then keepRegions st' ++ [mkKeep (cursor st') length]
   else keepRegions st') =
  keepRegions st ++ (keep_of <$> walk sr length (cursor st) sorted).
Proof.
  induction sorted as [|region rest IH]; intros st.
  - simpl. destruct (cursor st <? length); simpl; by rewrite ?app_nil_r.
  - cbn [foldl walk]. rewrite IH. unfold cut_body.
    cbn [keepRegions cursor].
    destruct (cursor st <? _); rewrite fmap_app; simpl;
      by rewrite <- ?app_assoc.
Qed.

Lemma newLength_total_span (intervals : list (Z * Z)) : ∀ acc,
  foldl (λ acc reg, acc + (keep_end reg - keep_start reg)) acc
    (keep_of <$> intervals) = acc + total_span intervals.
Proof.
  induction intervals as [|k rest IH]; intros acc; simpl; [lia|].
  rewrite IH. lia.
Qed.

(** A keep interval inside an array is cut out by [subarray] as is. *)
Lemma subarray_slice (samples : list Q) (k : Z * Z) :
  0 ≤ k.1 → k.1 ≤ k.2 → k.2 ≤ len samples →
  subarray samples k.1 k.2 = slice samples k ∧
  len (slice samples k) = k.2 - k.1.
Proof.
  intros H1 H2 H3. unfold subarray, slice, clamp_index.
  destruct (Z.ltb_spec k.1 0), (Z.ltb_spec k.2 0); try lia.
  rewrite !Z.min_l, Z.max_l by lia. split; [done|].
  unfold len in *. rewrite length_take, length_drop. lia.
Qed.

Lemma array_set_fits {A} (before target after source : list A) :
  len target = len source →
  array_set (before ++ target ++ after) source (len before) =
  Ok (before ++ source ++ after).
Proof.
  intros Hlen. unfold array_set. rewrite !len_app.
  destruct (Z.ltb_spec (len before) 0) as [H|_];
    [pose proof (len_nonneg before); lia|].
  destruct (Z.ltb_spec (len before + (len target + len after))
              (len before + len source)) as [H|_];
    [pose proof (len_nonneg after); lia|].
  simpl. f_equal. unfold len in *.
  rewrite Nat2Z.id, take_app_length. f_equal. f_equal.
  replace (Z.to_nat (Z.of_nat (length before) + Z.of_nat (length source)))
    with (length before + length target)%nat by lia.
  by rewrite drop_app_add, drop_app_length.
Qed.

Lemma paste_body_fits (oldData written : list Q) (k : Z * Z) (room : nat) :
  0 ≤ k.1 → k.1 ≤ k.2 → k.2 ≤ len oldData →
  paste_body oldData
    (mkPaste (written ++ replicate (Z.to_nat (k.2 - k.1)) 0%Q ++
              replicate room 0%Q) (len written))
    (keep_of k) =
  Ok (mkPaste ((written ++ slice oldData k) ++ replicate room 0%Q)
        (len (written ++ slice oldData k))).
Proof.
  intros H1 H2 H3.
  destruct (subarray_slice oldData k H1 H2 H3) as [Hsub Hlen].
  unfold paste_body. cbn [keep_of keep_start keep_end contents pointer].
  rewrite Hsub, (array_set_fits written _ _ (slice oldData k)).
  - cbn [mbind result_bind]. by rewrite len_app, Hlen, <- app_assoc.
  - rewrite Hlen. unfold len. rewrite length_replicate. lia.
Qed.

Lemma total_span_nonneg (intervals : list (Z * Z)) :
  Forall (λ k, k.1 ≤ k.2) intervals → 0 ≤ total_span intervals.
Proof. induction 1; simpl; lia. Qed.

(** Pasting in-range keep intervals into a zero-filled array that has room
    for them writes the kept samples, in order, after what is there. *)
Lemma paste_kept (oldData : list Q) : ∀ (intervals : list (Z * Z))
    (written : list Q) (room : nat),
  Forall (λ k, 0 ≤ k.1 ∧ k.1 ≤ k.2 ∧ k.2 ≤ len oldData) intervals →
  Z.of_nat room = total_span intervals →
  for_of (paste_body oldData) (keep_of <$> intervals)
    (mkPaste (written ++ replicate room 0%Q) (len written)) =
  Ok (mkPaste (written ++ kept intervals oldData)
        (len written + total_span intervals)).
Proof.
  induction intervals as [|k rest IH]; intros written room Hin Hroom.
  - simpl in *. destruct room; [|lia]. simpl.
    by rewrite !app_nil_r, Z.add_0_r.
  - apply Forall_cons in Hin as [(H1 & H2 & H3) Hin].
    assert (Hrest : 0 ≤ total_span rest).
    { apply total_span_nonneg. eapply Forall_impl; [exact Hin|].
      by intros ? (?&?&?). }
    cbn [fmap list_fmap for_of total_span] in *.
    replace room with (Z.to_nat (k.2 - k.1) + Z.to_nat (total_span rest))%nat
      by lia.
    rewrite replicate_add, paste_body_fits by done.
    cbn [mbind result_bind]. rewrite IH; [|done|lia].
    unfold kept. cbn [mbind list_bind].
    destruct (subarray_slice oldData k H1 H2 H3) as [_ Hlen].
    by rewrite len_app, Hlen, <- !app_assoc, Z.add_assoc.
Qed.

Lemma read_middle {A} (before after : list A) (x : A) :
  read (before ++ x :: after) (len before) = Some x.
Proof.
  unfold read, len. destruct (Z.ltb_spec (Z.of_nat (length before)) 0); [lia|].
  rewrite Nat2Z.id. apply list_lookup_middle. done.
Qed.

Lemma channel_body_kept (orig : AudioBuffer) (intervals : list (Z * Z))
    (sr : Z) (old : list Q) (done_old rest_old done_new : list (list Q))
    (rest_new : list (list Q)) :
  channelData orig = done_old ++ old :: rest_old →
  length done_new = length done_old →
  Forall (λ k, 0 ≤ k.1 ∧ k.1 ≤ k.2 ∧ k.2 ≤ len old) intervals →
  channel_body orig (keep_of <$> intervals)
    (mkAudioBuffer sr (total_span intervals)
       (done_new ++ replicate (Z.to_nat (total_span intervals)) 0%Q :: rest_new))
    (len done_old) =
  Ok (mkAudioBuffer sr (total_span intervals)
        ((done_new ++ [kept intervals old]) ++ rest_new)).
Proof.
  intros Horig Hlen Hin. unfold channel_body, getChannelData.
  rewrite Horig, read_middle. cbn [mbind result_bind channelData].
  replace (len done_old) with (len done_new) by (unfold len; lia).
  rewrite read_middle. cbn [mbind result_bind].
  pose proof (paste_kept old intervals [] (Z.to_nat (total_span intervals)) Hin)
    as Hpaste.
  cbn [app] in Hpaste. change (len []) with 0 in Hpaste.
  rewrite Hpaste.
  2:{ rewrite Z2Nat.id; [done|]. apply total_span_nonneg.
      eapply Forall_impl; [exact Hin|]. by intros ? (?&?&?). }
  cbn [mbind result_bind contents]. unfold with_channel.
  cbn [sampleRate bufLength channelData]. do 2 f_equal.
  unfold len. rewrite Nat2Z.id.
  rewrite <- app_assoc. cbn [app].
  rewrite insert_app_r_alt, Nat.sub_diag by lia. done.
Qed.

Lemma channels_loop_kept (orig : AudioBuffer) (intervals : list (Z * Z))
    (sr : Z) : ∀ (rest_old done_old done_new : list (list Q)),
  channelData orig = done_old ++ rest_old →
  length done_new = length done_old →
  Forall (λ old,
    Forall (λ k, 0 ≤ k.1 ∧ k.1 ≤ k.2 ∧ k.2 ≤ len old) intervals) rest_old →
  for_of (channel_body orig (keep_of <$> intervals))
    (seqZ (len done_old) (len rest_old))
    (mkAudioBuffer sr (total_span intervals)
       (done_new ++
        replicate (length rest_old)
          (replicate (Z.to_nat (total_span intervals)) 0%Q))) =
  Ok (mkAudioBuffer sr (total_span intervals)
        (done_new ++ (kept intervals <$> rest_old))).
Proof.
  induction rest_old as [|old rest_old IH];
    intros done_old done_new Horig Hlen Hin.
  - simpl. by rewrite !app_nil_r.
  - apply Forall_cons in Hin as [Hold Hin].
    rewrite len_cons, seqZ_cons by (pose proof (len_nonneg rest_old); lia).
    cbn [for_of length replicate].
    rewrite (channel_body_kept orig intervals sr old done_old rest_old) by done.
    cbn [mbind result_bind].
    replace (Z.succ (len done_old)) with (len (done_old ++ [old]))
      by (rewrite len_app; unfold len; simpl; lia).
    replace (Z.pred (1 + len rest_old)) with (len rest_old) by lia.
    rewrite (IH (done_old ++ [old]) (done_new ++ [kept intervals old])).
    + by rewrite <- !app_assoc.
    + by rewrite <- app_assoc.
    + rewrite !length_app. simpl. lia.
    + done.
Qed.

(** What both implementations build when every keep interval lies inside
    the buffer and at least one sample is kept. *)
Lemma createProcessedBuffer_kept (b : AudioBuffer) (regions : list Region)
    (context : AudioContext) :
  let keeps := keep_intervals b regions in
  SampleBuffer_inv b → 1 ≤ numberOfChannels b →
  Forall (λ k, 0 ≤ k.1 ∧ k.1 ≤ k.2 ∧ k.2 ≤ bufLength b) keeps →
  1 ≤ total_span keeps →
  createProcessedBuffer b regions context =
  Ok (mkAudioBuffer (sampleRate b) (total_span keeps)
        (kept keeps <$> channelData b)).
Proof.
  intros keeps [Hlen _] Hch Hin Hspan. unfold createProcessedBuffer.
  pose proof (cut_walk (sampleRate b) (bufLength b)
                (array_sort (λ a b, start a - start b)%Q regions)
                (mkCut [] 0)) as Hcut.
  cbn zeta in Hcut. cbn [keepRegions cursor app] in Hcut.
  rewrite Hcut. fold (sort_by_start regions). fold (keep_intervals b regions).
  fold keeps. rewrite newLength_total_span, Z.add_0_l.
  unfold createBuffer, allocate.
  destruct (Z.leb_spec 1 (numberOfChannels b)); [|lia].
  destruct (Z.leb_spec 1 (total_span keeps)); [|lia].
  cbn [andb mbind result_bind].
  pose proof (channels_loop_kept b keeps (sampleRate b) (channelData b) [] [])
    as Hloop.
  cbn [app length] in Hloop. change (len []) with 0 in Hloop.
  unfold numberOfChannels, len at 2. rewrite Nat2Z.id. apply Hloop; [done..|].
  eapply Forall_impl; [exact Hlen|]. intros old Hold. cbn beta in Hold.
  by rewrite Hold.
Qed.

(** ** One algorithm behind two allocations *)

Lemma channel_body_attributes orig keeps nb c nb' :
  channel_body orig keeps nb c = Ok nb' →
  bufLength nb' = bufLength nb ∧ sampleRate nb' = sampleRate nb.
Proof.
  unfold channel_body. intros H.
  apply bind_Ok in H as (oldData & _ & H).
  apply bind_Ok in H as (target & _ & H).
  apply bind_Ok in H as (st & _ & H).
  by injection H as <-.
Qed.

Lemma channels_loop_attributes orig keeps : ∀ cs nb nb',
  for_of (channel_body orig keeps) cs nb = Ok nb' →
  bufLength nb' = bufLength nb ∧ sampleRate nb' = sampleRate nb.
Proof.
  induction cs as [|c cs IH]; intros nb nb' H.
  - by injection H as <-.
  - cbn [for_of] in H. apply bind_Ok in H as (nb1 & H1 & H).
    apply channel_body_attributes in H1 as [<- <-]. by apply IH.
Qed.

Lemma processAudio_newBuffer_createProcessedBuffer
    (b : AudioBuffer) (regions : list Region) (context : AudioContext) :
  processAudio_newBuffer b regions =
  nb ← createProcessedBuffer b regions context; Ok (nb, bufLength nb).
Proof.
  unfold processAudio_newBuffer, createProcessedBuffer.
  unfold new_AudioBuffer, createBuffer.
  destruct (allocate _ _ _) as [nb| |] eqn:Halloc; [|done..].
  cbn [mbind result_bind].
  destruct (for_of _ _ nb) as [nb'| |] eqn:Hloop; [|done..].
  cbn [mbind result_bind]. do 2 f_equal.
  apply channels_loop_attributes in Hloop as [-> _].
  unfold allocate in Halloc. destruct (_ && _); [|done].
  by injection Halloc as <-.
Qed.

(** ** Regions within the buffer give keep intervals within the buffer *)

Lemma sort_insert_Forall {A} (P : A → Prop) (compare : A → A → Q) (a : A) :
  ∀ sorted, P a → Forall P sorted → Forall P (sort_insert compare a sorted).
Proof.
  induction sorted as [|x sorted IH]; intros Ha Hs; simpl.
  - by repeat constructor.
  - apply Forall_cons in Hs as [Hx Hs].
    destruct (Qltb 0 (compare a x)); repeat constructor; auto.
Qed.

Lemma array_sort_Forall {A} (P : A → Prop) (compare : A → A → Q) (xs : list A) :
  Forall P xs → Forall P (array_sort compare xs).
Proof.
  induction 1 as [|x xs Hx Hxs IH]; [constructor|].
  by apply sort_insert_Forall.
Qed.

Lemma sort_insert_Permutation {A} (compare : A → A → Q) (a : A) :
  ∀ sorted, sort_insert compare a sorted ≡ₚ a :: sorted.
Proof.
  induction sorted as [|x sorted IH]; simpl; [done|].
  destruct (Qltb 0 (compare a x)); [|done].
  rewrite IH. apply Permutation_swap.
Qed.

Lemma array_sort_Permutation {A} (compare : A → A → Q) (xs : list A) :
  array_sort compare xs ≡ₚ xs.
Proof.
  induction xs as [|x xs IH]; [done|].
  unfold array_sort in *. simpl. by rewrite sort_insert_Permutation, IH.
Qed.

(** [sort_by_start] sorts: no region starts after a later one. *)
Lemma sort_by_start_sorted (regions : list Region) :
  StronglySorted (λ a b, (start a <= start b)%Q) (sort_by_start regions).
Proof.
  unfold sort_by_start, array_sort.
  induction regions as [|r regions IH]; [constructor|]. simpl.
  set (compare := (λ a b, start a - start b)%Q) in *.
  induction IH as [|x sorted Hs IHs Hx]; simpl.
  - repeat constructor.
  - destruct (Qltb 0 (compare r x)) eqn:Hc.
    + apply Qltb_lt in Hc. unfold compare in Hc.
      constructor; [done|].
      rewrite sort_insert_Permutation. constructor; [|done].
      apply Qlt_le_weak, Qlt_minus_iff. exact Hc.
    + constructor; [by constructor|].
      assert (Hrx : (start r <= start x)%Q).
      { apply Qnot_lt_le. intros Hlt. apply not_true_iff_false in Hc.
        apply Hc, Qltb_lt. unfold compare.
        apply Qlt_minus_iff in Hlt. exact Hlt. }
      constructor; [done|].
      eapply Forall_impl; [exact Hx|]. intros y Hy. simpl in Hy.
      by eapply Qle_trans.
Qed.

Lemma in_reach_samples (b : AudioBuffer) (r : Region) :
  0 < sampleRate b → 0 ≤ bufLength b < 2 ^ 53 → in_reach b r →
  Qfloor (double (start r * inject_Z (sampleRate b))) ≤ bufLength b ∧
  0 ≤ Qfloor (double (end_ r * inject_Z (sampleRate b))).
Proof.
  intros Hsr Hlen (H0 & Hsd).
  assert (Hpos : (0 < inject_Z (sampleRate b))%Q) by (by apply inject_Z_pos).
  split.
  - apply Qfloor_double_le; [|done]. unfold duration in Hsd.
    assert (E : (inject_Z (bufLength b) / inject_Z (sampleRate b) *
                 inject_Z (sampleRate b) == inject_Z (bufLength b))%Q)
      by (field; lra).
    rewrite <- E. apply Qmult_le_compat_r; [done|lra].
  - apply Qfloor_double_nonneg. apply Qmult_le_0_compat; lra.
Qed.

Lemma walk_in_range (sr length : Z) : ∀ (sorted : list Region) (cursor : Z),
  0 ≤ cursor →
  Forall (λ r, Qfloor (double (start r * inject_Z sr)) ≤ length ∧
               0 ≤ Qfloor (double (end_ r * inject_Z sr))) sorted →
  Forall (λ k, 0 ≤ k.1 ∧ k.1 ≤ k.2 ∧ k.2 ≤ length)
    (walk sr length cursor sorted).
Proof.
  induction sorted as [|r rest IH]; intros cursor Hc Hin; cbn [walk].
  - destruct (Z.ltb_spec cursor length);
      [apply Forall_singleton; cbn [fst snd]; lia|constructor].
  - apply Forall_cons in Hin as [(H1 & H2) Hin].
    apply Forall_app. split; [|apply IH; [lia|done]].
    destruct (Z.ltb_spec cursor (Qfloor (double (start r * inject_Z sr))));
      [apply Forall_singleton; cbn [fst snd]; lia|constructor].
Qed.

Lemma keep_intervals_in_range (b : AudioBuffer) (regions : list Region) :
  0 < sampleRate b → 0 ≤ bufLength b < 2 ^ 53 → Forall (in_reach b) regions →
  Forall (λ k, 0 ≤ k.1 ∧ k.1 ≤ k.2 ∧ k.2 ≤ bufLength b)
    (keep_intervals b regions).
Proof.
  intros Hsr Hlen Hin. apply walk_in_range; [done|].
  apply array_sort_Forall. eapply Forall_impl; [exact Hin|].
  intros r Hr. by apply in_reach_samples.
Qed.

Lemma gap_removed_kept (b : AudioBuffer) (regions : list Region) :
  gap_removed b regions
    (mkAudioBuffer (sampleRate b) (total_span (keep_intervals b regions))
       (kept (keep_intervals b regions) <$> channelData b)).
Proof.
  unfold gap_removed. cbn [sampleRate bufLength channelData].
  split_and!; [done|done| |].
  - unfold numberOfChannels, len. cbn [channelData]. by rewrite length_fmap.
  - intros c samples Hc. by rewrite list_lookup_fmap, Hc.
Qed.

(** C1 (as amended). For a buffer of the platform, of fewer than [2 ^ 32]
    frames, and regions none of which ends before time 0 or starts after
    the end of the buffer, if the keep intervals hold at least one sample
    and fewer than [2 ^ 32], both implementations of the gap-remover
    produce the same buffer: every channel is the in-order concatenation of
    the input channel's samples over the keep intervals of the cursor walk,
    the length is the sum of their spans, and channel count and sample rate
    are the input's.  The sample indices of the walk are the floors of the
    rounded products [time * sampleRate]. *)
Theorem removeSilence_within_buffer (b : AudioBuffer) (regions : list Region) :
  wf_AudioBuffer b → bufLength b < 2 ^ 32 →
  Forall (in_reach b) regions →
  1 ≤ total_span (keep_intervals b regions) < 2 ^ 32 →
  removeSilence_contract b regions.
Proof.
  intros (Hinv & Hch & Hlen) Hmax Hin [Hspan _].
  assert (Hlen53 : 0 ≤ bufLength b < 2 ^ 53) by lia.
  pose proof (keep_intervals_in_range b regions (proj2 Hinv) Hlen53 Hin)
    as Hrange.
  pose proof (λ context,
    createProcessedBuffer_kept b regions context Hinv Hch Hrange Hspan) as Hc.
  eexists. split_and!; [exact Hc| |apply gap_removed_kept].
  by rewrite (processAudio_newBuffer_createProcessedBuffer _ _ audio_context),
    Hc.
Qed.

Lemma removeSilence_within_buffer_witness :
  removeSilence_contract five_frames
    [mkRegion (4 # 8000) (9 # 8000); mkRegion (1 # 8000) (3 # 8000)].
Proof.
  apply (removeSilence_within_buffer five_frames).
  - unfold wf_AudioBuffer, SampleBuffer_inv. split_and!.
    + repeat constructor.
    + reflexivity.
    + vm_compute. discriminate.
    + vm_compute. discriminate.
  - reflexivity.
  - repeat constructor; vm_compute; discriminate.
  - vm_compute. split; [discriminate|reflexivity].
Defined.

(** C1 as stated fails: a region that starts after the end of the buffer
    makes a keep interval that reaches past the end; the new buffer gets
    the length of that interval, the two samples there are, and zeros. *)
Lemma removeSilence_region_beyond_end :
  wf_AudioBuffer two_frames ∧
  Forall (λ r, (0 <= start r)%Q ∧ (start r < end_ r)%Q) [mkRegion 0.001 0.002] ∧
  createProcessedBuffer two_frames [mkRegion 0.001 0.002] audio_context =
    Ok (mkAudioBuffer 8000 8 [[0.5; 0.25; 0; 0; 0; 0; 0; 0]%Q]) ∧
  kept (keep_intervals two_frames [mkRegion 0.001 0.002]) [0.5; 0.25]%Q =
    [0.5; 0.25]%Q ∧
  ¬ removeSilence_contract two_frames [mkRegion 0.001 0.002].
Proof.
  split_and!.
  - unfold wf_AudioBuffer, SampleBuffer_inv. split_and!.
    + repeat constructor.
    + reflexivity.
    + vm_compute. discriminate.
    + vm_compute. discriminate.
  - repeat constructor; vm_compute; (reflexivity || discriminate).
  - vm_compute. reflexivity.
  - vm_compute. reflexivity.
  - intros (out & Hc & _ & _ & _ & _ & Hch).
    specialize (Hc audio_context). vm_compute in Hc. injection Hc as <-.
    specialize (Hch 0%nat _ eq_refl). vm_compute in Hch. discriminate.
Qed.

(** C5. The two reconstructions are one: the buffer [processAudio] builds
    is the buffer [createProcessedBuffer] returns (or both raise the same
    exception), and [processAudio] is [bufferToWav] of that buffer at its
    length. *)
Theorem processAudio_createProcessedBuffer (b : AudioBuffer)
    (regions : list Region) (context : AudioContext) :
  processAudio_newBuffer b regions =
    (nb ← createProcessedBuffer b regions context; Ok (nb, bufLength nb)) ∧
  processAudio b regions =
    (nb ← createProcessedBuffer b regions context;
     bufferToWav nb (bufLength nb)).
Proof.
  split; [apply processAudio_newBuffer_createProcessedBuffer|].
  unfold processAudio.
  rewrite (processAudio_newBuffer_createProcessedBuffer _ _ context).
  by destruct (createProcessedBuffer b regions context).
Qed.

(** C6 (the code at the failing input). With one region over the whole of
    a buffer, both implementations raise NotSupportedError; so they do on
    the region list [analyzeSilence] returns for a recording that is
    silent throughout. *)
Lemma removeSilence_full_silence_raises :
  createProcessedBuffer silence [mkRegion 0 (duration silence)]
    audio_context = Throw NotSupportedError ∧
  processAudio silence [mkRegion 0 (duration silence)] =
    Throw NotSupportedError ∧
  analyzeSilence silence 0.05 = Ok [mkRegion (0 # 8000) (500 # 8000)] ∧
  createProcessedBuffer silence [mkRegion (0 # 8000) (500 # 8000)]
    audio_context = Throw NotSupportedError ∧
  processAudio silence [mkRegion (0 # 8000) (500 # 8000)] =
    Throw NotSupportedError.
Proof. split_and!; vm_compute; reflexivity. Qed.

(** C7. With no region to remove, the gap-remover returns a buffer with
    the length, the channel count, the sample rate and the samples of its
    input. *)
Theorem removeSilence_no_regions (b : AudioBuffer) (context : AudioContext) :
  wf_AudioBuffer b →
  ∃ out,
    createProcessedBuffer b [] context = Ok out ∧
    processAudio_newBuffer b [] = Ok (out, bufLength out) ∧
    bufLength out = bufLength b ∧
    numberOfChannels out = numberOfChannels b ∧
    sampleRate out = sampleRate b ∧
    channelData out = channelData b.
Proof.
  intros (Hinv & Hch & Hlen).
  assert (Hkeeps : keep_intervals b [] = [(0, bufLength b)]).
  { unfold keep_intervals. simpl.
    by destruct (Z.ltb_spec 0 (bufLength b)); [|lia]. }
  assert (Hdata : kept (keep_intervals b []) <$> channelData b = channelData b).
  { rewrite Hkeeps. destruct Hinv as [Hall _].
    induction Hall as [|samples others Hs _ IH]; [done|].
    cbn [fmap list_fmap]. f_equal; [|done].
    unfold kept. cbn [mbind list_bind]. rewrite app_nil_r. unfold slice.
    cbn [fst snd]. rewrite Z.sub_0_r, drop_0. apply take_ge.
    unfold len in Hs. lia. }
  pose proof (createProcessedBuffer_kept b [] context Hinv Hch) as Hc.
  cbn zeta in Hc. rewrite Hdata, Hkeeps in Hc. cbn [total_span fst snd] in Hc.
  replace (bufLength b - 0 + 0) with (bufLength b) in Hc by lia.
  eexists. split_and!.
  - apply Hc; [|lia]. apply Forall_singleton. cbn [fst snd]. lia.
  - rewrite (processAudio_newBuffer_createProcessedBuffer _ _ context), Hc;
      [done| |lia].
    apply Forall_singleton. cbn [fst snd]. lia.
  - done.
  - done.
  - done.
  - done.
Qed.

Lemma removeSilence_no_regions_witness :
  ∃ out,
    createProcessedBuffer five_frames [] audio_context = Ok out ∧
    processAudio_newBuffer five_frames [] = Ok (out, bufLength out) ∧
    bufLength out = bufLength five_frames ∧
    numberOfChannels out = numberOfChannels five_frames ∧
    sampleRate out = sampleRate five_frames ∧
    channelData out = channelData five_frames.
Proof.
  apply (removeSilence_no_regions five_frames audio_context).
  unfold wf_AudioBuffer, SampleBuffer_inv. split_and!.
  - repeat constructor.
  - reflexivity.
  - vm_compute. discriminate.
  - vm_compute. discriminate.
Defined.

(** ** bufferToWav *)

Lemma len_replicate {A} (n : nat) (x : A) : len (replicate n x) = Z.of_nat n.
Proof. unfold len. by rewrite length_replicate. Qed.

Lemma len_le_bytes (n : nat) (v : Z) : len (le_bytes n v) = Z.of_nat n.
Proof. unfold len, le_bytes. by rewrite length_fmap, length_seq. Qed.

Lemma setUint32_next (written rest : list Z) (data off : Z) :
  setUint32 data (mkWav (written ++ replicate 4 0 ++ rest) (len written) off) =
  Ok (mkWav ((written ++ le_bytes 4 data) ++ rest)
        (len (written ++ le_bytes 4 data)) off).
Proof.
  unfold setUint32. cbn [view pos offset].
  rewrite (array_set_fits written (replicate 4 0) rest (le_bytes 4 data)) by done.
  cbn [mbind result_bind]. by rewrite len_app, len_le_bytes, <- app_assoc.
Qed.

Lemma setUint16_next (written rest : list Z) (data off : Z) :
  setUint16 data (mkWav (written ++ replicate 2 0 ++ rest) (len written) off) =
  Ok (mkWav ((written ++ le_bytes 2 data) ++ rest)
        (len (written ++ le_bytes 2 data)) off).
Proof.
  unfold setUint16. cbn [view pos offset].
  rewrite (array_set_fits written (replicate 2 0) rest (le_bytes 2 data)) by done.
  cbn [mbind result_bind]. by rewrite len_app, len_le_bytes, <- app_assoc.
Qed.

(** The thirteen header writes, on a zero-filled buffer of 44 bytes and a
    payload. *)
Lemma header_written {B} (numOfChan sr n : Z) (payload : list Z)
    (k : wav → result B) :
  let total := n * numOfChan * 2 + 44 in
  (w ← setUint32 0x46464952 (mkWav (replicate 44 0 ++ payload) 0 0);
   w ← setUint32 (total - 8) w;
   w ← setUint32 0x45564157 w;
   w ← setUint32 0x20746d66 w;
   w ← setUint32 16 w;
   w ← setUint16 1 w;
   w ← setUint16 numOfChan w;
   w ← setUint32 sr w;
   w ← setUint32 (sr * 2 * numOfChan) w;
   w ← setUint16 (numOfChan * 2) w;
   w ← setUint16 16 w;
   w ← setUint32 0x61746164 w;
   w ← setUint32 (total - pos w - 4) w;
   k w) =
  k (mkWav (wav_header numOfChan sr n ++ payload) 44 0).
Proof.
  intros total.
  change (mkWav (replicate 44 0 ++ payload) 0 0) with
    (mkWav ([] ++ replicate 4 0 ++
       (replicate 4 0 ++ replicate 4 0 ++ replicate 4 0 ++
        replicate 4 0 ++ replicate 2 0 ++ replicate 2 0 ++ replicate 4 0 ++
        replicate 4 0 ++ replicate 2 0 ++ replicate 2 0 ++ replicate 4 0 ++
        replicate 4 0 ++ payload)) (len (@nil Z)) 0).
  repeat (first [rewrite setUint32_next | rewrite setUint16_next];
          cbn [mbind result_bind pos]).
  f_equal. f_equal; try (by rewrite !len_app, !len_le_bytes).
  unfold wav_header. rewrite <- !app_assoc. cbn [app]. subst total.
  rewrite !len_app, !len_le_bytes. cbn [len length].
  change (le_bytes 4 1179011410) with [82; 73; 70; 70].
  change (le_bytes 4 1163280727) with [87; 65; 86; 69].
  change (le_bytes 4 544501094) with [102; 109; 116; 32].
  change (le_bytes 4 1635017060) with [100; 97; 116; 97].
  replace (n * numOfChan * 2 + 44 - 8) with (44 + n * numOfChan * 2 - 8)
    by lia.
  match goal with
  | |- context [le_bytes 4 (?a - ?b - 4)] =>
      replace (a - b - 4) with (n * numOfChan * 2) by lia
  end.
  done.
Qed.

Lemma interleave_body_next (channels : list (list Q)) (channel : list Q)
    (header written rest : list Z) (i p : Z) :
  read channels i = Some channel → len header = 44 →
  interleave_body channels
    (mkWav (header ++ written ++ replicate 2 0 ++ rest) p (len written)) i =
  Ok (mkWav (header ++ (written ++ le_bytes 2 (pcm16 (read channel p))) ++ rest)
        p (len (written ++ le_bytes 2 (pcm16 (read channel p))))).
Proof.
  intros Hi Hh. unfold interleave_body. rewrite Hi. cbn [view pos offset].
  replace (44 + len written) with (len (header ++ written))
    by (rewrite len_app; lia).
  rewrite (app_assoc header written).
  rewrite (array_set_fits (header ++ written) (replicate 2 0) rest
             (le_bytes 2 (pcm16 (read channel p)))) by done.
  cbn [mbind result_bind].
  by rewrite <- !app_assoc, (len_app written), len_le_bytes.
Qed.

(** One pass of the inner loop stores one frame. *)
Lemma frame_stored (channels : list (list Q)) (header rest : list Z) (p : Z) :
  len header = 44 →
  ∀ (todo done_ : list (list Q)) (written : list Z),
  channels = done_ ++ todo →
  for_of (interleave_body channels) (seqZ (len done_) (len todo))
    (mkWav (header ++ written ++ replicate (2 * length todo) 0 ++ rest)
       p (len written)) =
  Ok (mkWav (header ++ (written ++ stored_frame todo p) ++ rest)
        p (len (written ++ stored_frame todo p))).
Proof.
  intros Hh. induction todo as [|channel todo IH]; intros done_ written Hc.
  - simpl. by rewrite !app_nil_r.
  - rewrite len_cons, seqZ_cons by (pose proof (len_nonneg todo); lia).
    cbn [for_of].
    replace (2 * length (channel :: todo))%nat with (2 + 2 * length todo)%nat
      by (simpl; lia).
    rewrite replicate_add, <- (app_assoc (replicate 2 0)).
    rewrite (interleave_body_next channels channel); [|by rewrite Hc, read_middle|done].
    cbn [mbind result_bind].
    replace (Z.succ (len done_)) with (len (done_ ++ [channel]))
      by (rewrite len_app; unfold len; simpl; lia).
    replace (Z.pred (1 + len todo)) with (len todo) by lia.
    rewrite (IH (done_ ++ [channel])); [|by rewrite <- app_assoc].
    unfold stored_frame. cbn [mbind list_bind]. by rewrite <- !app_assoc.
Qed.

Lemma len_stored_frame (channels : list (list Q)) (f : Z) :
  len (stored_frame channels f) = 2 * len channels.
Proof.
  unfold stored_frame. induction channels as [|c cs IH]; [done|].
  cbn [mbind list_bind]. rewrite len_app, len_le_bytes, len_cons, IH. lia.
Qed.

(** The outer loop stores the frames from [p] up to [n], in order. *)
Lemma frames_stored (channels : list (list Q)) (header rest : list Z) (n : Z) :
  len header = 44 →
  ∀ (fuel : nat) (p : Z) (written : list Z),
  Z.max 0 (n - p) < Z.of_nat fuel →
  ∃ w,
    interleave_loop fuel channels (len channels) n
      (mkWav (header ++ written ++
              replicate (2 * length channels * Z.to_nat (n - p)) 0 ++ rest)
         p (len written)) = Ok w ∧
    view w =
    header ++ (written ++ (seqZ p (n - p) ≫= stored_frame channels)) ++ rest.
Proof.
  intros Hh. induction fuel as [|fuel IH]; intros p written Hfuel; [lia|].
  cbn [interleave_loop pos]. destruct (Z.ltb_spec p n) as [Hlt|Hge].
  - replace (Z.to_nat (n - p)) with (S (Z.to_nat (n - (p + 1)))) by lia.
    rewrite Nat.mul_succ_r, Nat.add_comm, replicate_add, <- app_assoc.
    pose proof (frame_stored channels header
                  (replicate (2 * length channels * Z.to_nat (n - (p + 1))) 0
                   ++ rest) p Hh channels [] written eq_refl) as Hframe.
    change (len []) with 0 in Hframe. rewrite Hframe.
    cbn [mbind result_bind view pos offset].
    destruct (IH (p + 1) (written ++ stored_frame channels p)) as (w & Hw & Hv);
      [lia|].
    exists w. split; [exact Hw|]. rewrite Hv.
    rewrite (seqZ_cons p (n - p)) by lia. cbn [mbind list_bind].
    replace (Z.pred (n - p)) with (n - (p + 1)) by lia.
    by rewrite <- !app_assoc.
  - eexists. split; [done|]. cbn [view].
    replace (Z.to_nat (n - p)) with 0%nat by lia.
    rewrite Nat.mul_0_r. rewrite seqZ_nil by lia.
    cbn [replicate app mbind list_bind]. by rewrite app_nil_r.
Qed.

(** What [bufferToWav] returns: the header and a payload of the right
    size, but frame 44 where frame 0 belongs. *)
Lemma bufferToWav_stored (b : AudioBuffer) (n : Z) :
  0 ≤ n → bufferToWav b n = Ok (stored_wav b n).
Proof.
  intros Hn. unfold bufferToWav, stored_wav, new_ArrayBuffer, numberOfChannels.
  pose proof (len_nonneg (channelData b)) as Hch.
  set (nc := len (channelData b)) in *.
  destruct (Z.ltb_spec (n * nc * 2 + 44) 0) as [|_]; [nia|].
  cbn [mbind result_bind].
  replace (Z.to_nat (n * nc * 2 + 44))
    with (44 + (2 * length (channelData b) * Z.to_nat (n - 44) +
                Z.to_nat (2 * nc * Z.min 44 n)))%nat
    by (unfold nc, len in *; nia).
  rewrite (replicate_add 44), (replicate_add (2 * _ * _)).
  rewrite (header_written nc (sampleRate b) n).
  destruct (frames_stored (channelData b) (wav_header nc (sampleRate b) n)
              (replicate (Z.to_nat (2 * nc * Z.min 44 n)) 0) n eq_refl
              (S (Z.to_nat n)) 44 []) as (w & Hw & Hv); [lia|].
  cbn [app] in Hw. change (len []) with 0 in Hw. fold nc in Hw.
  rewrite Hw. cbn [mbind result_bind]. by rewrite Hv.
Qed.

Lemma len_bind_const {A B} (f : A → list B) (c : Z) (xs : list A) :
  (∀ x, len (f x) = c) → len (xs ≫= f) = c * len xs.
Proof.
  intros Hf. induction xs as [|x xs IH]; [unfold len; simpl; lia|].
  cbn [mbind list_bind]. rewrite len_app, len_cons, Hf, IH. lia.
Qed.

Lemma len_wav_header (numChannels sr n : Z) :
  len (wav_header numChannels sr n) = 44.
Proof. done. Qed.

(** X1. The part of C2 that holds: the size of the blob and its header. *)
Lemma bufferToWav_size_and_header (b : AudioBuffer) (n : Z) :
  0 ≤ n →
  ∃ bytes,
    bufferToWav b n = Ok bytes ∧
    len bytes = 44 + n * numberOfChannels b * 2 ∧
    take 44 bytes = wav_header (numberOfChannels b) (sampleRate b) n ∧
    take 44 bytes = take 44 (encodeWav b n).
Proof.
  intros Hn. exists (stored_wav b n). split; [by apply bufferToWav_stored|].
  pose proof (len_nonneg (channelData b)) as Hch.
  unfold stored_wav, encodeWav. split_and!.
  - rewrite !len_app, len_wav_header, len_replicate.
    rewrite (len_bind_const _ (2 * len (channelData b)))
      by (intros f; apply len_stored_frame).
    unfold len at 2. rewrite length_seqZ. unfold numberOfChannels. nia.
  - by rewrite take_app_length' by done.
  - by rewrite !take_app_length' by done.
Qed.

(** C2 (the code at a failing input). For one full-scale frame the payload
    [bufferToWav] stores is 00 00; clamping, scaling by 32767 and storing
    little-endian gives FF 7F. *)
Lemma bufferToWav_skips_first_frames :
  bufferToWav one_frame 1 = Ok (wav_header 1 8000 1 ++ [0; 0]) ∧
  encodeWav one_frame 1 = wav_header 1 8000 1 ++ [255; 127].
Proof. split; reflexivity. Qed.

(** The two bytes stored depend on the value modulo 2^16 only, so the
    32-bit wrap of [x | 0] does not show in them. *)
Lemma le_bytes_2_mod (v w : Z) :
  v mod 2 ^ 16 = w mod 2 ^ 16 → le_bytes 2 v = le_bytes 2 w.
Proof.
  intros H. unfold le_bytes. cbn [fmap list_fmap seq].
  change (2 ^ (8 * Z.of_nat 0)) with 1. change (2 ^ (8 * Z.of_nat 1)) with 256.
  rewrite !Z.div_1_r.
  set (k := v / 2 ^ 16 - w / 2 ^ 16).
  assert (E : v = w + (k * 256) * 256).
  { pose proof (Z.div_mod v (2 ^ 16)). pose proof (Z.div_mod w (2 ^ 16)). lia. }
  rewrite E. f_equal; [apply Z_mod_plus_full|]. f_equal.
  rewrite Z.div_add by lia. apply Z_mod_plus_full.
Qed.

(** Sample by sample the code stores what the design says. *)
Lemma pcm16_encode_sample (v : Q) :
  le_bytes 2 (pcm16 (Some v)) = le_bytes 2 (encode_sample v).
Proof.
  apply le_bytes_2_mod. unfold pcm16, encode_sample, to_int32.
  set (t := Qtruncate _).
  assert (D : (2 ^ 16 | 2 ^ 32)) by (by exists (2 ^ 16)).
  rewrite <- (Z.mod_mod_divide _ (2 ^ 32) (2 ^ 16) D).
  rewrite Zminus_mod_idemp_l.
  replace (t + 2 ^ 31 - 2 ^ 31) with t by lia.
  by rewrite (Z.mod_mod_divide _ (2 ^ 32) (2 ^ 16) D).
Qed.

(** ** The store: what the operations leave untouched *)

Section frame.
Context (h0 : Heap.heap).

Lemma frames_ret {A} (a : A) (P : A → Prop) : P a → frames h0 (mret a) P.
Proof. intros Ha h Hh. split; [done|]. by intros ? [= <-]. Qed.

Lemma frames_throw {A} (e : exn) (P : A → Prop) : frames h0 (Heap.throw e) P.
Proof. intros h Hh. by split. Qed.

Lemma frames_diverge {A} (P : A → Prop) : frames h0 Heap.diverge P.
Proof. intros h Hh. by split. Qed.

Lemma frames_lift {A} (r : result A) :
  frames h0 (Heap.lift r) (λ _, True).
Proof. intros h Hh. by split. Qed.

Lemma frames_bind {A B} (m : Heap.M A) (f : A → Heap.M B)
    (P : A → Prop) (Q : B → Prop) :
  frames h0 m P → (∀ a, P a → frames h0 (f a) Q) → frames h0 (m ≫= f) Q.
Proof.
  intros Hm Hf h Hh. destruct (Hm h Hh) as [Hsub Hval].
  unfold mbind, Heap.M_bind, Heap.bind.
  destruct (m h) as [[a|e|] h1]; simpl in *; [|done..].
  by apply Hf; [apply Hval|].
Qed.

Lemma frames_weaken {A} (m : Heap.M A) (P Q : A → Prop) :
  frames h0 m P → (∀ a, P a → Q a) → frames h0 m Q.
Proof.
  intros Hm HPQ h Hh. destruct (Hm h Hh) as [Hsub Hval].
  split; [done|]. intros a Ha. by apply HPQ, Hval.
Qed.

Lemma frames_alloc (o : Heap.object) :
  frames h0 (Heap.alloc o) (new_since h0).
Proof.
  intros h Hh. unfold Heap.alloc. cbn [fst snd].
  pose proof (is_fresh (dom h)) as Hfresh.
  split.
  - etrans; [exact Hh|]. apply insert_subseteq.
    by apply not_elem_of_dom.
  - intros l [= <-]. unfold new_since. intros Hin. apply Hfresh.
    by apply (subseteq_dom h0 h Hh).
Qed.

Lemma frames_load (l : Heap.loc) : frames h0 (Heap.load l) (λ _, True).
Proof.
  intros h Hh. unfold Heap.load. by destruct (h !! l).
Qed.

Lemma frames_store (l : Heap.loc) (o : Heap.object) :
  new_since h0 l → frames h0 (Heap.store l o) (λ _, True).
Proof.
  intros Hl h Hh. unfold Heap.store. cbn [fst snd]. split; [|done].
  apply map_subseteq_spec. intros l' o' Hl'.
  rewrite lookup_insert_ne.
  - by eapply lookup_weaken.
  - intros ->. apply Hl. by apply elem_of_dom.
Qed.

Lemma frames_for_of {A S} (body : S → A → Heap.M S) (I : S → Prop) :
  (∀ s x, I s → frames h0 (body s x) I) →
  ∀ xs s, I s → frames h0 (Heap.for_of body xs s) I.
Proof.
  intros Hbody. induction xs as [|x xs IH]; intros s Hs.
  - by apply frames_ret.
  - cbn [Heap.for_of]. eapply frames_bind; [by apply Hbody|]. apply IH.
Qed.
End frame.

Create HintDb frame.

#[local] Hint Resolve frames_ret frames_throw frames_diverge frames_load
  frames_lift frames_alloc : frame.

(** [m ≫= f] where [m] is known to frame with [P]. *)
Ltac frame_bind H :=
  eapply frames_bind; [eapply H|cbn beta].

Section frame_ops.
Context (h0 : Heap.heap).

Lemma frames_load_samples l : frames h0 (Heap.load_samples l) (λ _, True).
Proof.
  unfold Heap.load_samples. frame_bind frames_load.
  intros [] _; auto with frame.
Qed.

Lemma frames_load_regions l : frames h0 (Heap.load_regions l) (λ _, True).
Proof.
  unfold Heap.load_regions. frame_bind frames_load.
  intros [] _; auto with frame.
Qed.

Lemma frames_load_keeps l : frames h0 (Heap.load_keeps l) (λ _, True).
Proof.
  unfold Heap.load_keeps. frame_bind frames_load.
  intros [] _; auto with frame.
Qed.

Lemma frames_load_views l : frames h0 (Heap.load_views l) (λ _, True).
Proof.
  unfold Heap.load_views. frame_bind frames_load.
  intros [] _; auto with frame.
Qed.

Lemma frames_load_bytes l : frames h0 (Heap.load_bytes l) (λ _, True).
Proof.
  unfold Heap.load_bytes. frame_bind frames_load.
  intros [] _; auto with frame.
Qed.

Lemma frames_elements v : frames h0 (Heap.elements v) (λ _, True).
Proof.
  unfold Heap.elements. frame_bind frames_load_samples.
  intros d _. auto with frame.
Qed.

Lemma frames_get v i : frames h0 (Heap.get v i) (λ _, True).
Proof.
  unfold Heap.get. frame_bind frames_elements. intros d _. auto with frame.
Qed.

Lemma frames_getChannelData b c :
  frames h0 (Heap.getChannelData b c)
    (λ v, Heap.storage v ∈ Heap.channels b).
Proof.
  unfold Heap.getChannelData, read.
  destruct (c <? 0); [auto with frame|].
  destruct (Heap.channels b !! Z.to_nat c) as [l|] eqn:Hl;
    [|auto with frame].
  apply frames_ret. simpl. by eapply list_elem_of_lookup_2.
Qed.

Lemma frames_set target source offset :
  new_since h0 (Heap.storage target) →
  frames h0 (Heap.set target source offset) (λ _, True).
Proof.
  intros Hnew. unfold Heap.set. frame_bind frames_elements. intros src _.
  frame_bind frames_load_samples. intros d _.
  destruct (_ || _); [auto with frame|]. by apply frames_store.
Qed.

Lemma frames_spread array : frames h0 (Heap.spread array) (new_since h0).
Proof.
  unfold Heap.spread. frame_bind frames_load_regions. intros items _.
  auto with frame.
Qed.

Lemma frames_sort array compare :
  new_since h0 array → frames h0 (Heap.sort array compare) (λ _, True).
Proof.
  intros Hnew. unfold Heap.sort. frame_bind frames_load_regions.
  intros items _. by apply frames_store.
Qed.

Lemma frames_push_keep array reg :
  new_since h0 array → frames h0 (Heap.push_keep array reg) (λ _, True).
Proof.
  intros Hnew. unfold Heap.push_keep. frame_bind frames_load_keeps.
  intros items _. by apply frames_store.
Qed.

Lemma frames_push_region array region :
  new_since h0 array → frames h0 (Heap.push_region array region) (λ _, True).
Proof.
  intros Hnew. unfold Heap.push_region. frame_bind frames_load_regions.
  intros items _. by apply frames_store.
Qed.

Lemma frames_push_view array v :
  new_since h0 array → frames h0 (Heap.push_view array v) (λ _, True).
Proof.
  intros Hnew. unfold Heap.push_view. frame_bind frames_load_views.
  intros items _. by apply frames_store.
Qed.

Lemma frames_view_write buffer at_ bytes :
  new_since h0 buffer →
  frames h0 (Heap.view_write buffer at_ bytes) (λ _, True).
Proof.
  intros Hnew. unfold Heap.view_write. frame_bind frames_load_bytes.
  intros d _. frame_bind frames_lift. intros written _.
  by apply frames_store.
Qed.

(** A new buffer's channels are stored where nothing was before. *)
Lemma frames_allocate numberOfChannels length sr :
  frames h0 (Heap.allocate numberOfChannels length sr)
    (λ nb, Forall (new_since h0) (Heap.channels nb)).
Proof.
  unfold Heap.allocate. destruct (_ && _); [|auto with frame].
  eapply frames_bind.
  - apply (frames_for_of h0 _ (Forall (new_since h0))); [|constructor].
    intros ls _ Hls. frame_bind frames_alloc. intros l Hl.
    apply frames_ret, Forall_app. split; [done|by apply Forall_singleton].
  - intros stores Hstores. by apply frames_ret.
Qed.
End frame_ops.

Section frame_operations.
Context (h0 : Heap.heap).

#[local] Hint Resolve frames_push_region frames_push_keep frames_get
  frames_load_keeps frames_load_regions frames_load_bytes : frame.

Lemma frames_scan_body rawData silenceRegions sr minDuration i st :
  new_since h0 silenceRegions →
  frames h0 (Heap.scan_body rawData silenceRegions sr minDuration i st)
    (λ _, True).
Proof.
  intros Hnew. unfold Heap.scan_body. frame_bind frames_get. intros x _.
  destruct (below_threshold x).
  - destruct (negb _); auto with frame.
  - destruct (Heap.isSilent st); [|auto with frame].
    eapply frames_bind with (P := λ _, True);
    [|intros; by apply frames_ret].
    destruct (Qle_bool _ _); auto with frame.
Qed.

Lemma frames_scan_loop rawData silenceRegions sr minDuration :
  new_since h0 silenceRegions → ∀ fuel i st,
  frames h0
    (Heap.scan_loop fuel rawData silenceRegions sr minDuration i st)
    (λ _, True).
Proof.
  intros Hnew. induction fuel as [|fuel IH]; intros i st; simpl.
  - auto with frame.
  - destruct (i <? _); [|auto with frame].
    frame_bind frames_scan_body; [done|]. intros st' _. apply IH.
Qed.

Lemma frames_analyzeSilence buffer minDuration :
  frames h0 (Heap.analyzeSilence buffer minDuration) (new_since h0).
Proof.
  unfold Heap.analyzeSilence. frame_bind frames_getChannelData.
  intros rawData _. frame_bind frames_alloc. intros silenceRegions Hnew.
  frame_bind frames_scan_loop; [done|]. intros st _.
  eapply frames_bind with (P := λ _, True);
    [|intros; by apply frames_ret].
  destruct (Heap.isSilent st); [|auto with frame].
  destruct (Qle_bool _ _); auto with frame.
Qed.

Lemma frames_cut_body keepRegions sr cursor region :
  new_since h0 keepRegions →
  frames h0 (Heap.cut_body keepRegions sr cursor region) (λ _, True).
Proof.
  intros Hnew. unfold Heap.cut_body.
  eapply frames_bind with (P := λ _, True);
    [|intros; by apply frames_ret].
  destruct (_ <? _); auto with frame.
Qed.

Lemma frames_plan originalBuffer silenceRegions :
  frames h0 (Heap.plan originalBuffer silenceRegions)
    (λ p, new_since h0 p.1).
Proof.
  unfold Heap.plan. frame_bind frames_alloc. intros keepRegions Hkeep.
  frame_bind frames_spread. intros sortedSilence Hsorted.
  frame_bind frames_sort; [done|]. intros _ _.
  frame_bind frames_load_regions. intros sorted _.
  eapply frames_bind.
  { apply (frames_for_of h0 _ (λ _, True)); [|done].
    intros cursor region _. by apply frames_cut_body. }
  intros cursor _. cbn beta.
  eapply frames_bind with (P := λ _, True).
  { destruct (_ <? _); auto with frame. }
  intros _ _. frame_bind frames_load_keeps. intros keeps _.
  by apply frames_ret.
Qed.

Lemma frames_paste_body oldData newData pointer reg :
  new_since h0 (Heap.storage newData) →
  frames h0 (Heap.paste_body oldData newData pointer reg) (λ _, True).
Proof.
  intros Hnew. unfold Heap.paste_body.
  frame_bind frames_set; [done|]. intros _ _. by apply frames_ret.
Qed.

Lemma frames_channel_body originalBuffer newBuffer keeps u c :
  Forall (new_since h0) (Heap.channels newBuffer) →
  frames h0 (Heap.channel_body originalBuffer newBuffer keeps u c)
    (λ _, True).
Proof.
  intros Hnew. unfold Heap.channel_body.
  frame_bind frames_getChannelData. intros oldData _.
  frame_bind frames_getChannelData. intros newData Hin.
  eapply Forall_forall in Hnew; [|exact Hin].
  eapply frames_bind with (P := λ _, True);
    [|intros; by apply frames_ret].
  apply (frames_for_of h0 _ (λ _, True)); [|done].
  intros pointer reg _. by apply frames_paste_body.
Qed.

Lemma frames_copy originalBuffer newBuffer keepRegions :
  Forall (new_since h0) (Heap.channels newBuffer) →
  frames h0 (Heap.copy originalBuffer newBuffer keepRegions) (λ _, True).
Proof.
  intros Hnew. unfold Heap.copy. frame_bind frames_load_keeps.
  intros keeps _. apply (frames_for_of h0 _ (λ _, True)); [|done].
  intros u c _. by apply frames_channel_body.
Qed.

Lemma frames_createProcessedBuffer originalBuffer silenceRegions context :
  frames h0
    (Heap.createProcessedBuffer originalBuffer silenceRegions context)
    (λ nb, Forall (new_since h0) (Heap.channels nb)).
Proof.
  unfold Heap.createProcessedBuffer. frame_bind frames_plan.
  intros [keepRegions newLength] _.
  frame_bind frames_allocate. intros newBuffer Hnew.
  frame_bind frames_copy; [done|]. intros _ _. by apply frames_ret.
Qed.

Lemma frames_setUint16 data w :
  new_since h0 (Heap.buffer w) →
  frames h0 (Heap.setUint16 data w) (λ w', new_since h0 (Heap.buffer w')).
Proof.
  intros Hnew. unfold Heap.setUint16. frame_bind frames_view_write; [done|].
  intros _ _. by apply frames_ret.
Qed.

Lemma frames_setUint32 data w :
  new_since h0 (Heap.buffer w) →
  frames h0 (Heap.setUint32 data w) (λ w', new_since h0 (Heap.buffer w')).
Proof.
  intros Hnew. unfold Heap.setUint32. frame_bind frames_view_write; [done|].
  intros _ _. by apply frames_ret.
Qed.

Lemma frames_interleave_body channels w i :
  new_since h0 (Heap.buffer w) →
  frames h0 (Heap.interleave_body channels w i)
    (λ w', Heap.buffer w' = Heap.buffer w).
Proof.
  intros Hnew. unfold Heap.interleave_body. frame_bind frames_load_views.
  intros views _. destruct (read views i) as [channel|];
    [|auto with frame].
  frame_bind frames_get. intros x _.
  frame_bind frames_view_write; [done|]. intros _ _. by apply frames_ret.
Qed.

Lemma frames_interleave_loop channels numOfChan len : ∀ fuel w,
  new_since h0 (Heap.buffer w) →
  frames h0 (Heap.interleave_loop fuel channels numOfChan len w)
    (λ w', Heap.buffer w' = Heap.buffer w).
Proof.
  induction fuel as [|fuel IH]; intros w Hnew; simpl.
  - auto with frame.
  - destruct (_ <? _); [|by apply frames_ret].
    eapply frames_bind.
    { apply (frames_for_of h0 _ (λ w', Heap.buffer w' = Heap.buffer w));
        [|done].
      intros w1 i Hw1. eapply frames_weaken.
      - apply frames_interleave_body. by rewrite Hw1.
      - intros w2 Hw2. by rewrite Hw2. }
    intros w1 Hw1. cbn beta. eapply frames_weaken.
    + apply IH. simpl. by rewrite Hw1.
    + intros w2 Hw2. simpl in Hw2. by rewrite Hw2.
Qed.

Lemma frames_new_ArrayBuffer length :
  frames h0 (Heap.new_ArrayBuffer length) (new_since h0).
Proof. unfold Heap.new_ArrayBuffer. destruct (_ <? _); auto with frame. Qed.

Lemma frames_bufferToWav abuffer len :
  frames h0 (Heap.bufferToWav abuffer len) (λ _, True).
Proof.
  unfold Heap.bufferToWav. frame_bind frames_new_ArrayBuffer.
  intros buffer Hbuffer. frame_bind frames_alloc. intros channels Hchannels.
  do 13 (lazymatch goal with
         | |- frames _ (Heap.setUint32 _ _ ≫= _) _ =>
             eapply frames_bind; [apply frames_setUint32; exact Hbuffer|]
         | |- frames _ (Heap.setUint16 _ _ ≫= _) _ =>
             eapply frames_bind; [apply frames_setUint16; exact Hbuffer|]
         end; cbn beta; clear Hbuffer; intros ? Hbuffer).
  eapply frames_bind with (P := λ _, True).
  { apply (frames_for_of h0 _ (λ _, True)); [|done]. intros _ i _.
    frame_bind frames_getChannelData. intros v _.
    by apply frames_push_view. }
  intros _ _. cbn beta. frame_bind frames_interleave_loop; [done|].
  intros w _. apply frames_load_bytes.
Qed.

Lemma frames_processAudio originalBuffer silenceRegions :
  frames h0 (Heap.processAudio originalBuffer silenceRegions) (λ _, True).
Proof.
  unfold Heap.processAudio. frame_bind frames_plan.
  intros [keepRegions newLength] _.
  frame_bind frames_allocate. intros newBuffer Hnew.
  frame_bind frames_copy; [done|]. intros _ _. apply frames_bufferToWav.
Qed.
End frame_operations.

(** C8. Whatever store [h] they are run in and however they end, the four
    operations leave every object of [h] as it was: the storage of the
    input buffer's channels and the caller's region array among them (the
    attributes of a buffer cannot be written at all).  The array
    [analyzeSilence] returns and the storage of every channel of the buffer
    [createProcessedBuffer] returns are objects that [h] did not hold. *)
Theorem operations_leave_inputs_unchanged (h : Heap.heap) :
  (∀ buffer minDuration,
     let '(r, h') := Heap.analyzeSilence buffer minDuration h in
     h ⊆ h' ∧ ∀ regions, r = Ok regions → regions ∉ dom h) ∧
  (∀ originalBuffer silenceRegions context,
     let '(r, h') :=
       Heap.createProcessedBuffer originalBuffer silenceRegions context h in
     h ⊆ h' ∧
     ∀ newBuffer, r = Ok newBuffer →
       ∀ l, l ∈ Heap.channels newBuffer → l ∉ dom h) ∧
  (∀ originalBuffer silenceRegions,
     h ⊆ (Heap.processAudio originalBuffer silenceRegions h).2) ∧
  (∀ abuffer len, h ⊆ (Heap.bufferToWav abuffer len h).2).
Proof.
  split_and!.
  - intros buffer minDuration.
    pose proof (frames_analyzeSilence h buffer minDuration h) as H.
    destruct (Heap.analyzeSilence buffer minDuration h) as [r h'].
    by apply H.
  - intros originalBuffer silenceRegions context.
    pose proof (frames_createProcessedBuffer h originalBuffer silenceRegions
                  context h) as H.
    destruct (Heap.createProcessedBuffer originalBuffer silenceRegions
                context h) as [r h'].
    destruct H as [Hsub Hnew]; [done|]. split; [done|].
    intros newBuffer -> l Hl. simpl in Hnew.
    by eapply Forall_forall in Hl; [|by apply Hnew].
  - intros originalBuffer silenceRegions.
    by apply (frames_processAudio h originalBuffer silenceRegions h).
  - intros abuffer len. by apply (frames_bufferToWav h abuffer len h).
Qed.


(** ** The store version computes what the value version computes *)

Lemma run_bind {A B} (m : Heap.M A) (f : A → Heap.M B) (h : Heap.heap) :
  (m ≫= f) h =
  match m h with
  | (Ok a, h') => f a h'
  | (Throw e, h') => (Throw e, h')
  | (Diverge, h') => (Diverge, h')
  end.
Proof. done. Qed.

Lemma run_load_samples (h : Heap.heap) l d :
  h !! l = Some (Heap.Samples d) → Heap.load_samples l h = (Ok d, h).
Proof.
  intros Hl. unfold Heap.load_samples. rewrite run_bind. unfold Heap.load.
  by rewrite Hl.
Qed.

Lemma run_load_regions (h : Heap.heap) l a :
  h !! l = Some (Heap.RegionArray a) → Heap.load_regions l h = (Ok a, h).
Proof.
  intros Hl. unfold Heap.load_regions. rewrite run_bind. unfold Heap.load.
  by rewrite Hl.
Qed.

Lemma run_load_keeps (h : Heap.heap) l a :
  h !! l = Some (Heap.KeepArray a) → Heap.load_keeps l h = (Ok a, h).
Proof.
  intros Hl. unfold Heap.load_keeps. rewrite run_bind. unfold Heap.load.
  by rewrite Hl.
Qed.

Lemma run_push_keep (h : Heap.heap) l a reg :
  h !! l = Some (Heap.KeepArray a) →
  Heap.push_keep l reg h = (Ok tt, <[l := Heap.KeepArray (a ++ [reg])]> h).
Proof.
  intros Hl. unfold Heap.push_keep. by rewrite run_bind, (run_load_keeps h l a).
Qed.

(** [set] from a view of one storage into a whole-array view of another
    is [array_set] on their contents. *)
Lemma run_set (h : Heap.heap) (l_old l : Heap.loc) (d_old d : list Q)
    (s e p : Z) :
  h !! l_old = Some (Heap.Samples d_old) → h !! l = Some (Heap.Samples d) →
  Heap.set (Heap.mkView l 0 (len d))
    (Heap.subarray (Heap.mkView l_old 0 (len d_old)) s e) p h =
  match array_set d (subarray d_old s e) p with
  | Ok d' => (Ok tt, <[l := Heap.Samples d']> h)
  | Throw x => (Throw x, h)
  | Diverge => (Diverge, h)
  end.
Proof.
  intros Hold Hnew. unfold Heap.set, Heap.elements. rewrite !run_bind.
  cbn [Heap.subarray Heap.storage Heap.view_offset Heap.view_length].
  rewrite (run_load_samples h l_old d_old Hold). cbv beta iota.
  unfold mret, Heap.M_ret, Heap.ret. cbv beta iota. rewrite run_bind.
  rewrite (run_load_samples h l d Hnew). cbv beta iota. rewrite !Z.add_0_l.
  fold (subarray d_old s e). unfold array_set.
  by destruct (_ || _).
Qed.

Lemma run_for_of_cons {A S} (body : S → A → Heap.M S) x xs s (h : Heap.heap) :
  Heap.for_of body (x :: xs) s h =
  match body s x h with
  | (Ok s', h') => Heap.for_of body xs s' h'
  | (Throw e, h') => (Throw e, h')
  | (Diverge, h') => (Diverge, h')
  end.
Proof. done. Qed.

Lemma array_set_len {A} (target source : list A) (p : Z) (written : list A) :
  array_set target source p = Ok written → len written = len target.
Proof.
  unfold array_set.
  destruct (Z.ltb_spec p 0); [done|].
  destruct (Z.ltb_spec (len target) (p + len source)); [done|].
  intros [= <-]. pose proof (len_nonneg source).
  unfold len in *. rewrite !length_app, length_take, length_drop. lia.
Qed.

(** The paste loop: the store version leaves in the storage of [newData]
    what the value version leaves in [contents]. *)
Lemma paste_loop_agrees (l_old l : Heap.loc) (d_old : list Q) (N : Z) :
  l ≠ l_old → ∀ keeps st (h : Heap.heap),
  h !! l_old = Some (Heap.Samples d_old) →
  h !! l = Some (Heap.Samples (contents st)) →
  len (contents st) = N →
  agrees
    (λ p st' h', p = pointer st' ∧
                 h' = <[l := Heap.Samples (contents st')]> h ∧
                 len (contents st') = N)
    (Heap.for_of
       (Heap.paste_body (Heap.mkView l_old 0 (len d_old)) (Heap.mkView l 0 N))
       keeps (pointer st) h)
    (for_of (paste_body d_old) keeps st).
Proof.
  intros Hne. induction keeps as [|reg keeps IH]; intros st h Hold Hnew HN.
  - exists (pointer st). cbn. split_and!.
    + reflexivity.
    + reflexivity.
    + symmetry. by apply insert_id.
    + exact HN.
  - rewrite run_for_of_cons. cbn [for_of]. unfold Heap.paste_body at 1.
    rewrite run_bind. subst N.
    rewrite (run_set h l_old l d_old (contents st)) by done.
    change (paste_body d_old st reg) with
      (written ← array_set (contents st)
                   (subarray d_old (keep_start reg) (keep_end reg)) (pointer st);
       Ok (mkPaste written (pointer st + (keep_end reg - keep_start reg)))).
    destruct (array_set (contents st) _ (pointer st)) as [d'| |] eqn:Hset;
      cbn [mbind result_bind]; [|done..].
    apply array_set_len in Hset.
    specialize (IH (mkPaste d' (pointer st + (keep_end reg - keep_start reg)))
                  (<[l := Heap.Samples d']> h)).
    cbn [contents pointer] in IH.
    rewrite Hset in IH.
    specialize (IH ltac:(by rewrite lookup_insert_ne)
                   ltac:(by rewrite lookup_insert_eq) eq_refl).
    unfold mret, Heap.M_ret, Heap.ret. cbv beta iota.
    unfold agrees in *.
    destruct (for_of (paste_body d_old) keeps _) as [st'| |]; [|done..].
    destruct IH as (p & Hrun & -> & Hh & Hlen). exists (pointer st').
    split; [done|]. split_and!; [done| |done].
    by rewrite Hh, insert_insert_eq.
Qed.

Lemma stores_hold_read (h : Heap.heap) stores data N (c : Z) :
  stores_hold h stores data N →
  (read stores c = None ∧ read data c = None) ∨
  ∃ l d, read stores c = Some l ∧ read data c = Some d ∧
         stores !! Z.to_nat c = Some l ∧ data !! Z.to_nat c = Some d ∧
         h !! l = Some (Heap.Samples d) ∧ len d = N.
Proof.
  intros Hh. unfold read. destruct (c <? 0); [by left|].
  destruct (stores !! Z.to_nat c) as [l|] eqn:Hl.
  - destruct (Forall2_lookup_l _ _ _ _ _ Hh Hl) as (d & Hd & Hld & HN).
    right. exists l, d. by rewrite Hd.
  - left. split; [done|]. apply lookup_ge_None.
    rewrite <- (Forall2_length _ _ _ Hh). by apply lookup_ge_None.
Qed.

Lemma stores_hold_weaken (h h' : Heap.heap) stores data N :
  h ⊆ h' → stores_hold h stores data N → stores_hold h' stores data N.
Proof.
  intros Hsub Hh. eapply Forall2_impl; [exact Hh|].
  intros l d [Hl HN]. split; [|done]. by eapply lookup_weaken.
Qed.

Lemma stores_hold_insert_other (h : Heap.heap) stores data N l o :
  l ∉ stores → stores_hold h stores data N →
  stores_hold (<[l := o]> h) stores data N.
Proof.
  intros Hl Hh. induction Hh as [|l' d ls ds [Hl' HN] _ IH]; [constructor|].
  apply not_elem_of_cons in Hl as [Hne Hl].
  constructor; [|by apply IH]. split; [|done]. by rewrite lookup_insert_ne.
Qed.

Lemma stores_hold_insert (h : Heap.heap) stores data N l (i : nat) d' :
  NoDup stores → stores !! i = Some l → stores_hold h stores data N →
  len d' = N →
  stores_hold (<[l := Heap.Samples d']> h) stores (<[i := d']> data) N.
Proof.
  intros Hnd Hi Hh Hd'. revert i Hi.
  induction Hh as [|l0 d ls ds [Hl0 HN] Hrest IH]; intros i Hi; [done|].
  apply NoDup_cons in Hnd as [Hl0_notin Hnd].
  destruct i as [|i]; simpl in *.
  - injection Hi as ->. constructor.
    + by rewrite lookup_insert_eq.
    + by apply stores_hold_insert_other.
  - constructor; [|by apply IH].
    split; [|done]. rewrite lookup_insert_ne; [done|].
    intros ->. apply Hl0_notin. by eapply list_elem_of_lookup_2.
Qed.

Section copy_agrees.
Context (hb : Heap.AudioBuffer) (b : AudioBuffer) (keeps : list KeepRegion).
Context (stores : list Heap.loc) (sr N : Z).
Context (Hlen : Heap.bufLength hb = bufLength b).
Context (Hnodup : NoDup stores).
Context (Hapart : ∀ l, l ∈ stores → l ∉ Heap.channels hb).

#[local] Abbreviation copying := (copying hb b stores sr N).

Lemma channel_body_agrees (c : Z) (nb : AudioBuffer) (h : Heap.heap) :
  copying h nb →
  agrees (λ _ nb' h', copying h' nb')
    (Heap.channel_body hb (Heap.mkAudioBuffer sr N stores) keeps tt c h)
    (channel_body b keeps nb c).
Proof.
  intros (Hold & Hnew & HN & Hsr).
  unfold Heap.channel_body, channel_body, Heap.getChannelData, getChannelData.
  rewrite run_bind.
  destruct (stores_hold_read h _ _ _ c Hold)
    as [[-> ->]|(l_old & d_old & -> & -> & Hl_old & _ & Hh_old & Hd_old)];
    [done|].
  unfold mret, Heap.M_ret, Heap.ret. cbv beta iota. rewrite run_bind.
  cbn [mbind result_bind Heap.channels Heap.bufLength].
  destruct (stores_hold_read h _ _ _ c Hnew)
    as [[-> ->]|(l & d & -> & -> & Hl & Hd & Hh_new & Hd_new)];
    [done|].
  cbv beta iota. rewrite run_bind. cbn [mbind result_bind].
  assert (Hne : l ≠ l_old).
  { intros ->. eapply Hapart; by eapply list_elem_of_lookup_2. }
  pose proof (paste_loop_agrees l_old l d_old N Hne keeps (mkPaste d 0) h
                Hh_old Hh_new Hd_new) as Hpaste.
  rewrite Hlen, <- Hd_old. cbn [pointer] in Hpaste.
  unfold agrees in *.
  destruct (for_of (paste_body d_old) keeps _) as [st'| |];
    cbn [mbind result_bind].
  - destruct Hpaste as (p & Hrun & _ & Hh' & Hlen').
    destruct (Heap.for_of _ keeps 0 h) as [r h'] eqn:Hfor.
    cbn [fst snd] in Hrun, Hh'. subst r h'. exists tt. split; [done|].
    cbn [snd]. split_and!.
    + apply stores_hold_insert_other; [|done].
      intros Hin. by eapply Hapart; [eapply list_elem_of_lookup_2|].
    + unfold with_channel. cbn [channelData].
      by apply stores_hold_insert.
    + done.
    + done.
  - destruct (Heap.for_of _ keeps 0 h) as [r h'] eqn:Hfor.
    cbn [fst] in Hpaste. by subst r.
  - destruct (Heap.for_of _ keeps 0 h) as [r h'] eqn:Hfor.
    cbn [fst] in Hpaste. by subst r.
Qed.

Lemma channels_loop_agrees : ∀ (cs : list Z) (nb : AudioBuffer) (h : Heap.heap),
  copying h nb →
  agrees (λ _ nb' h', copying h' nb')
    (Heap.for_of (Heap.channel_body hb (Heap.mkAudioBuffer sr N stores) keeps)
       cs tt h)
    (for_of (channel_body b keeps) cs nb).
Proof.
  induction cs as [|c cs IH]; intros nb h Hinv.
  - by exists tt.
  - rewrite run_for_of_cons. cbn [for_of].
    pose proof (channel_body_agrees c nb h Hinv) as Hbody.
    unfold agrees in Hbody.
    destruct (channel_body b keeps nb c) as [nb1| |]; cbn [mbind result_bind].
    + destruct Hbody as ([] & Hrun & Hinv1).
      destruct (Heap.channel_body _ _ _ _ _ h) as [r h1]. cbn [fst snd] in *.
      subst r. by apply IH.
    + destruct (Heap.channel_body _ _ _ _ _ h) as [r h1]. cbn [fst] in *.
      by subst r.
    + destruct (Heap.channel_body _ _ _ _ _ h) as [r h1]. cbn [fst] in *.
      by subst r.
Qed.
End copy_agrees.

(** Allocation: fresh, distinct storages, zero-filled. *)
Lemma allocate_stores (h0 : Heap.heap) (n : Z) : ∀ (xs : list Z)
    (ls : list Heap.loc) (h : Heap.heap),
  h0 ⊆ h → NoDup ls → Forall (λ l, l ∉ dom h0) ls →
  stores_hold h ls (replicate (length ls) (replicate (Z.to_nat n) 0%Q))
    (Z.of_nat (Z.to_nat n)) →
  ∃ ls' h',
    Heap.for_of
      (λ ls _, l ← Heap.alloc (Heap.Samples (replicate (Z.to_nat n) 0%Q));
               Heap.ret (ls ++ [l])) xs ls h = (Ok ls', h') ∧
    h0 ⊆ h' ∧ NoDup ls' ∧ Forall (λ l, l ∉ dom h0) ls' ∧
    length ls' = (length ls + length xs)%nat ∧
    stores_hold h' ls' (replicate (length ls') (replicate (Z.to_nat n) 0%Q))
      (Z.of_nat (Z.to_nat n)).
Proof.
  induction xs as [|x xs IH]; intros ls h Hsub Hnd Hnew Hh.
  - exists ls, h. by rewrite Nat.add_0_r.
  - rewrite run_for_of_cons, run_bind. unfold Heap.alloc at 1.
    unfold mret, Heap.M_ret, Heap.ret. cbv beta iota zeta.
    set (l := fresh (dom h)).
    assert (Hl : l ∉ dom h) by apply is_fresh.
    assert (Hl_ls : l ∉ ls).
    { intros Hin. apply list_elem_of_lookup in Hin as [i Hi].
      destruct (Forall2_lookup_l _ _ _ _ _ Hh Hi) as (d & _ & Hd & _).
      apply Hl. by apply elem_of_dom. }
    destruct (IH (ls ++ [l])
                (<[l := Heap.Samples (replicate (Z.to_nat n) 0%Q)]> h))
      as (ls' & h' & Hrun & Hsub' & Hnd' & Hnew' & Hlen' & Hh').
    + etrans; [exact Hsub|]. apply insert_subseteq. by apply not_elem_of_dom.
    + apply NoDup_app. split_and!; [done| |apply NoDup_singleton].
      intros y Hy Hy'. apply list_elem_of_singleton in Hy' as ->. done.
    + apply Forall_app. split; [done|]. apply Forall_singleton.
      intros Hin. apply Hl. by apply (subseteq_dom h0 h Hsub).
    + rewrite length_app, replicate_add. cbn [length replicate].
      apply Forall2_app.
      * by apply stores_hold_insert_other.
      * constructor; [|constructor]. rewrite lookup_insert_eq.
        split; [done|]. by rewrite len_replicate.
    + exists ls', h'. split; [exact Hrun|]. split_and!; try done.
      rewrite Hlen', length_app. simpl. lia.
Qed.

Lemma allocate_agrees (h : Heap.heap) (numberOfChannels length sr : Z) :
  agrees
    (λ hnb nb h',
       h ⊆ h' ∧ NoDup (Heap.channels hnb) ∧
       Forall (λ l, l ∉ dom h) (Heap.channels hnb) ∧
       hnb = Heap.mkAudioBuffer sr length (Heap.channels hnb) ∧
       bufLength nb = length ∧ sampleRate nb = sr ∧
       stores_hold h' (Heap.channels hnb) (channelData nb) length)
    (Heap.allocate numberOfChannels length sr h)
    (allocate numberOfChannels length sr).
Proof.
  unfold Heap.allocate, allocate.
  destruct (Z.leb_spec 1 numberOfChannels) as [Hch|_]; [|done].
  destruct (Z.leb_spec 1 length) as [Hlength|_]; [|done].
  cbn [andb]. rewrite run_bind.
  destruct (allocate_stores h length (seqZ 0 numberOfChannels) [] h)
    as (ls & h' & -> & Hsub & Hnd & Hnew & Hlen & Hh);
    [done|constructor|constructor|constructor|].
  exists (Heap.mkAudioBuffer sr length ls). split; [done|].
  cbn [snd Heap.channels bufLength sampleRate channelData].
  split_and!; try done.
  rewrite length_seqZ in Hlen. cbn [Datatypes.length Nat.add] in Hlen.
  rewrite Hlen, Z2Nat.id in Hh by lia. done.
Qed.

Lemma cut_loop_run (kl : Heap.loc) (sr : Z) : ∀ (sorted : list Region)
    (st : cut) (h : Heap.heap),
  h !! kl = Some (Heap.KeepArray (keepRegions st)) →
  Heap.for_of (Heap.cut_body kl sr) sorted (cursor st) h =
  (Ok (cursor (foldl (cut_body sr) st sorted)),
   <[kl := Heap.KeepArray (keepRegions (foldl (cut_body sr) st sorted))]> h).
Proof.
  induction sorted as [|region sorted IH]; intros st h Hkl.
  - cbn. by rewrite insert_id.
  - rewrite run_for_of_cons. cbn [foldl].
    unfold Heap.cut_body at 1. rewrite run_bind.
    change (Qfloor (double (end_ region * inject_Z sr)))
      with (cursor (cut_body sr st region)).
    assert (Hk : keepRegions (cut_body sr st region) =
                 if cursor st <? Qfloor (double (start region * inject_Z sr))
                 then keepRegions st ++
                      [mkKeep (cursor st) (Qfloor (double (start region * inject_Z sr)))]
                 else keepRegions st) by done.
    destruct (cursor st <? Qfloor (double (start region * inject_Z sr))) eqn:Hlt.
    + rewrite (run_push_keep h kl (keepRegions st)) by done.
      unfold mret, Heap.M_ret, Heap.ret. cbv beta iota.
      rewrite IH by (by rewrite Hk, lookup_insert_eq).
      by rewrite insert_insert_eq.
    + unfold mret, Heap.M_ret, Heap.ret. cbv beta iota.
      by rewrite IH by (by rewrite Hk).
Qed.

(** The plan: the keep regions and the new length of the value version, in
    an array the caller's store did not hold. *)
Lemma plan_run (hb : Heap.AudioBuffer) (lr : Heap.loc) (rs : list Region)
    (h : Heap.heap) :
  h !! lr = Some (Heap.RegionArray rs) →
  let st := foldl (cut_body (Heap.sampleRate hb)) (mkCut [] 0)
              (array_sort (λ a b, start a - start b)%Q rs) in
  let keeps :=
    if cursor st <? Heap.bufLength hb
    then keepRegions st ++ [mkKeep (cursor st) (Heap.bufLength hb)]
    else keepRegions st in
  let newLength :=
    foldl (λ acc reg, acc + (keep_end reg - keep_start reg)) 0 keeps in
  ∃ kl h',
    Heap.plan hb lr h = (Ok (kl, newLength), h') ∧
    h' !! kl = Some (Heap.KeepArray keeps) ∧ h ⊆ h'.
Proof.
  intros Hlr st keeps newLength.
  set (kl := fresh (dom h)).
  assert (Hkl : kl ∉ dom h) by apply is_fresh.
  set (h1 := <[kl := Heap.KeepArray []]> h).
  set (sl := fresh (dom h1)).
  assert (Hsl : sl ∉ dom h1) by apply is_fresh.
  assert (Hne : sl ≠ kl).
  { intros E. apply Hsl. rewrite E. unfold h1. set_solver. }
  assert (Hlr1 : h1 !! lr = Some (Heap.RegionArray rs)).
  { unfold h1. rewrite lookup_insert_ne; [done|]. intros E. apply Hkl.
    rewrite E. by apply elem_of_dom. }
  exists kl.
  cut (∃ h', Heap.plan hb lr h = (Ok (kl, newLength), h') ∧
             h' !! kl = Some (Heap.KeepArray keeps)).
  { intros (h' & E & Hk). exists h'. split_and!; [done..|].
    pose proof (frames_plan h hb lr h (reflexivity h)) as [Hsub _].
    by rewrite E in Hsub. }
  unfold Heap.plan.
  rewrite run_bind. unfold Heap.alloc at 1. cbv beta iota zeta.
  fold kl h1. rewrite run_bind. unfold Heap.spread.
  rewrite run_bind, (run_load_regions h1 lr rs Hlr1).
  unfold Heap.alloc at 1. cbv beta iota zeta. fold sl.
  set (h2 := <[sl := Heap.RegionArray rs]> h1).
  rewrite run_bind. unfold Heap.sort. rewrite run_bind.
  rewrite (run_load_regions h2 sl rs) by (unfold h2; by rewrite lookup_insert_eq).
  unfold Heap.store at 1. cbv beta iota.
  set (sorted := array_sort _ rs).
  set (h3 := <[sl := Heap.RegionArray sorted]> h2).
  rewrite run_bind.
  rewrite (run_load_regions h3 sl sorted)
    by (unfold h3; by rewrite lookup_insert_eq).
  cbv beta iota. rewrite run_bind.
  assert (Hkl3 : h3 !! kl = Some (Heap.KeepArray [])).
  { unfold h3, h2, h1. rewrite !lookup_insert_ne by done.
    by rewrite lookup_insert_eq. }
  change 0 with (cursor (mkCut [] 0)) at 1.
  rewrite (cut_loop_run kl (Heap.sampleRate hb) sorted (mkCut [] 0) h3 Hkl3).
  cbv beta iota zeta. subst sorted. fold st.
  set (h4 := <[kl := Heap.KeepArray (keepRegions st)]> h3).
  assert (Hkl4 : h4 !! kl = Some (Heap.KeepArray (keepRegions st)))
    by (unfold h4; by rewrite lookup_insert_eq).
  rewrite run_bind. subst keeps newLength.
  destruct (cursor st <? Heap.bufLength hb); cbv beta iota.
  - rewrite (run_push_keep h4 kl (keepRegions st)) by done.
    cbv beta iota. rewrite run_bind.
    rewrite (run_load_keeps _ kl (keepRegions st ++
               [mkKeep (cursor st) (Heap.bufLength hb)]))
      by (by rewrite lookup_insert_eq).
    cbv beta iota. eexists. split; [done|]. by rewrite lookup_insert_eq.
  - unfold mret, Heap.M_ret, Heap.ret. cbv beta iota. rewrite run_bind.
    rewrite (run_load_keeps h4 kl (keepRegions st)) by done.
    cbv beta iota. eexists. by split.
Qed.

(** Run in a store where [hb] stands for [b] and [lr] is the array [rs],
    the store version of [createProcessedBuffer] ends as the value version
    does: with the same exception, or with a handle that stands for the
    buffer the value version returns, in a store that still holds every
    object it held. *)
Lemma createProcessedBuffer_simulates (h : Heap.heap) (hb : Heap.AudioBuffer)
    (b : AudioBuffer) (lr : Heap.loc) (rs : list Region)
    (context : AudioContext) :
  represents h hb b → h !! lr = Some (Heap.RegionArray rs) →
  agrees (λ hout out h', represents h' hout out ∧ h ⊆ h')
    (Heap.createProcessedBuffer hb lr context h)
    (createProcessedBuffer b rs context).
Proof.
  intros (Hsr & HL & Hold) Hlr.
  pose proof (frames_createProcessedBuffer h hb lr context h (reflexivity h))
    as [Hsub _].
  destruct (plan_run hb lr rs h Hlr) as (kl & h1 & Hplan & Hkl & Hsub1).
  cbv zeta in Hplan, Hkl. rewrite Hsr, HL in Hplan, Hkl.
  revert Hsub. unfold Heap.createProcessedBuffer, createProcessedBuffer.
  rewrite run_bind, Hplan. cbv beta iota zeta.
  set (keeps := if _ <? _ then _ else _) in *.
  set (newLength := foldl _ 0 keeps) in *.
  assert (Hnch : Heap.numberOfChannels hb = numberOfChannels b).
  { unfold Heap.numberOfChannels, numberOfChannels, len.
    by rewrite (Forall2_length _ _ _ Hold). }
  rewrite run_bind. unfold Heap.createBuffer, createBuffer.
  pose proof (allocate_agrees h1 (numberOfChannels b) newLength (sampleRate b))
    as Halloc.
  rewrite Hnch, Hsr. unfold agrees in *.
  destruct (allocate (numberOfChannels b) newLength (sampleRate b))
    as [nb| |]; cbn [mbind result_bind].
  2,3: destruct (Heap.allocate _ _ _ h1) as [r h2]; cbn [fst] in Halloc;
       by subst r.
  destruct Halloc as (hnb & Hrun & Hsub2 & Hnd & Hnew & Hhnb & HN & Hsr' & Hh).
  destruct (Heap.allocate _ _ _ h1) as [r h2]. cbn [fst snd] in *. subst r.
  rewrite run_bind. unfold Heap.copy. rewrite run_bind.
  rewrite (run_load_keeps h2 kl keeps) by (by eapply lookup_weaken).
  cbv beta iota. rewrite Hnch, Hhnb.
  assert (Hapart : ∀ l, l ∈ Heap.channels hnb → l ∉ Heap.channels hb).
  { intros l Hl Hin. apply list_elem_of_lookup in Hin as [i Hi].
    destruct (Forall2_lookup_l _ _ _ _ _ Hold Hi) as (d & _ & Hd & _).
    eapply Forall_forall in Hnew; [|exact Hl]. apply Hnew.
    apply elem_of_dom. exists (Heap.Samples d). by eapply lookup_weaken. }
  pose proof (channels_loop_agrees hb b keeps (Heap.channels hnb)
                (sampleRate b) newLength HL Hnd Hapart
                (seqZ 0 (numberOfChannels b)) nb h2) as Hloop.
  unfold agrees in Hloop.
  destruct (for_of (channel_body b keeps) _ nb) as [out| |].
  - destruct Hloop as ([] & Hrun & Hold' & Hnew' & HN' & Hsr'').
    + split_and!; [|done..].
      eapply stores_hold_weaken; [|exact Hold]. by etrans.
    + destruct (Heap.for_of _ _ tt h2) as [r h3]. cbn [fst snd] in *.
      subst r. cbv beta iota. unfold mret, Heap.M_ret, Heap.ret.
      cbn [fst snd]. intros Hsub. eexists. split; [reflexivity|].
      split; [|done].
      unfold represents. cbn [Heap.sampleRate Heap.bufLength Heap.channels].
      split_and!; [done|done|]. by rewrite HN'.
  - destruct (Heap.for_of _ _ tt h2) as [r h3].
    cbn [fst] in Hloop. rewrite Hloop; [done|]. split_and!; [|done..].
    eapply stores_hold_weaken; [|exact Hold]. by etrans.
  - destruct (Heap.for_of _ _ tt h2) as [r h3].
    cbn [fst] in Hloop. rewrite Hloop; [done|]. split_and!; [|done..].
    eapply stores_hold_weaken; [|exact Hold]. by etrans.
Qed.

(** ** Agreement, operation by operation *)

Lemma agrees_bind {A B A' B'} (R : A → B → Heap.heap → Prop)
    (R' : A' → B' → Heap.heap → Prop)
    (m : Heap.M A) (f : A → Heap.M A') (r : result B) (g : B → result B')
    (h : Heap.heap) :
  agrees R (m h) r →
  (∀ a b h', R a b h' → agrees R' (f a h') (g b)) →
  agrees R' ((m ≫= f) h) (r ≫= g).
Proof.
  intros Hm Hf. rewrite run_bind. unfold agrees in Hm.
  destruct r as [b| |]; cbn [mbind result_bind].
  - destruct Hm as (a & Hrun & HR). destruct (m h) as [r1 h1].
    cbn [fst snd] in *. subst r1. by apply Hf.
  - destruct (m h) as [r1 h1]. cbn [fst] in Hm. by subst r1.
  - destruct (m h) as [r1 h1]. cbn [fst] in Hm. by subst r1.
Qed.

Lemma agrees_weaken {A B} (R R' : A → B → Heap.heap → Prop)
    (run : result A * Heap.heap) (r : result B) :
  (∀ a b, R a b run.2 → R' a b run.2) → agrees R run r → agrees R' run r.
Proof.
  intros HR. unfold agrees. destruct r as [b| |]; [|done..].
  intros (a & Hrun & Ha). exists a. split; [done|]. by apply HR.
Qed.

(** A whole-channel view reads what the channel holds. *)
Lemma run_get (h : Heap.heap) (l : Heap.loc) (d : list Q) (i : Z) :
  h !! l = Some (Heap.Samples d) →
  Heap.get (Heap.mkView l 0 (len d)) i h = (Ok (read d i), h).
Proof.
  intros Hl. unfold Heap.get, Heap.elements. rewrite !run_bind.
  cbn [Heap.storage Heap.view_offset Heap.view_length].
  rewrite (run_load_samples h l d Hl). cbv beta iota.
  unfold mret, Heap.M_ret, Heap.ret. cbv beta iota.
  unfold len. by rewrite Nat2Z.id, drop_0, firstn_all.
Qed.

Lemma run_push_region (h : Heap.heap) l a region :
  h !! l = Some (Heap.RegionArray a) →
  Heap.push_region l region h =
  (Ok tt, <[l := Heap.RegionArray (a ++ [region])]> h).
Proof.
  intros Hl. unfold Heap.push_region.
  by rewrite run_bind, (run_load_regions h l a).
Qed.

(** The scan: the store version keeps in its array what the value version
    keeps in [silenceRegions]. *)
Lemma scan_body_run (l sl : Heap.loc) (d : list Q) (sr : Z) (minDuration : Q)
    (i : Z) (st : scan) (h : Heap.heap) :
  sl ≠ l → h !! l = Some (Heap.Samples d) →
  h !! sl = Some (Heap.RegionArray (silenceRegions st)) →
  let st' := scan_body d sr minDuration i st in
  Heap.scan_body (Heap.mkView l 0 (len d)) sl sr minDuration i
    (Heap.mkScan (isSilent st) (silenceStart st)) h =
  (Ok (Heap.mkScan (isSilent st') (silenceStart st')),
   <[sl := Heap.RegionArray (silenceRegions st')]> h).
Proof.
  intros Hne Hl Hsl. cbv zeta. unfold Heap.scan_body, scan_body.
  rewrite run_bind, (run_get h l d i Hl). cbv beta iota.
  cbn [Heap.isSilent Heap.silenceStart].
  unfold mret, Heap.M_ret, Heap.ret.
  destruct (below_threshold (read d i)).
  - destruct (isSilent st) eqn:Hs; cbn [negb isSilent silenceStart
      silenceRegions]; by rewrite ?Hs, insert_id.
  - destruct (isSilent st) eqn:Hs; cbn [isSilent silenceStart silenceRegions];
      [|by rewrite Hs, insert_id].
    rewrite run_bind.
    destruct (Qle_bool minDuration _); cbn [silenceRegions].
    + by rewrite (run_push_region h sl (silenceRegions st)).
    + by rewrite insert_id.
Qed.

Lemma scan_loop_run (l sl : Heap.loc) (d : list Q) (sr : Z) (minDuration : Q) :
  sl ≠ l → ∀ (fuel : nat) (i : Z) (st : scan) (h : Heap.heap),
  h !! l = Some (Heap.Samples d) →
  h !! sl = Some (Heap.RegionArray (silenceRegions st)) →
  match scan_loop fuel d sr minDuration i st with
  | Ok st' =>
      Heap.scan_loop fuel (Heap.mkView l 0 (len d)) sl sr minDuration i
        (Heap.mkScan (isSilent st) (silenceStart st)) h =
      (Ok (Heap.mkScan (isSilent st') (silenceStart st')),
       <[sl := Heap.RegionArray (silenceRegions st')]> h)
  | Throw e =>
      (Heap.scan_loop fuel (Heap.mkView l 0 (len d)) sl sr minDuration i
         (Heap.mkScan (isSilent st) (silenceStart st)) h).1 = Throw e
  | Diverge =>
      (Heap.scan_loop fuel (Heap.mkView l 0 (len d)) sl sr minDuration i
         (Heap.mkScan (isSilent st) (silenceStart st)) h).1 = Diverge
  end.
Proof.
  intros Hne. induction fuel as [|fuel IH]; intros i st h Hl Hsl; [done|].
  cbn [scan_loop Heap.scan_loop Heap.view_length].
  destruct (i <? len d).
  - rewrite run_bind, (scan_body_run l sl d sr minDuration i st h) by done.
    cbv beta iota. set (st1 := scan_body d sr minDuration i st).
    specialize (IH (i + step) st1
                  (<[sl := Heap.RegionArray (silenceRegions st1)]> h)
                  ltac:(by rewrite lookup_insert_ne)
                  ltac:(by rewrite lookup_insert_eq)).
    destruct (scan_loop fuel d sr minDuration (i + step) st1); [|done..].
    by rewrite IH, insert_insert_eq.
  - unfold mret, Heap.M_ret, Heap.ret. by rewrite insert_id.
Qed.

(** An outcome over the store agrees with an outcome over values when it
    is the same exception, or a result related by [R] in a store that
    extends the initial one. *)
Lemma agrees_run {A B} (R : A → B → Heap.heap → Prop) (h : Heap.heap)
    (run : result A * Heap.heap) (r : result B) :
  h ⊆ run.2 →
  match r with
  | Ok b => ∃ a h', run = (Ok a, h') ∧ R a b h'
  | Throw e => run.1 = Throw e
  | Diverge => run.1 = Diverge
  end →
  agrees (λ a b h', R a b h' ∧ h ⊆ h') run r.
Proof.
  intros Hsub Hrun. unfold agrees. destruct r as [b| |]; [|done..].
  destruct Hrun as (a & h' & -> & HR). by exists a.
Qed.


(** ** The gap-remover on arbitrary regions *)

(** A view never has more elements than its bounds are apart. *)
Lemma subarray_len {A} (a : list A) (i j : Z) :
  i ≤ j → 0 ≤ len (subarray a i j) ≤ j - i.
Proof.
  intros Hij. pose proof (len_nonneg a) as Hn. unfold subarray, clamp_index.
  split; [apply len_nonneg|].
  unfold len in *. rewrite length_take, length_drop.
  destruct (Z.ltb_spec i 0), (Z.ltb_spec j 0); lia.
Qed.

Lemma len_pasted (oldData : list Q) (k : Z * Z) :
  k.1 ≤ k.2 → len (pasted oldData k) = k.2 - k.1.
Proof.
  intros Hk. unfold pasted. rewrite len_app, len_replicate.
  pose proof (subarray_len oldData k.1 k.2 Hk). lia.
Qed.

Lemma paste_body_pasted (oldData written : list Q) (k : Z * Z) (room : nat) :
  k.1 ≤ k.2 →
  paste_body oldData
    (mkPaste (written ++ replicate (Z.to_nat (k.2 - k.1)) 0%Q ++
              replicate room 0%Q) (len written))
    (keep_of k) =
  Ok (mkPaste ((written ++ pasted oldData k) ++ replicate room 0%Q)
        (len (written ++ pasted oldData k))).
Proof.
  intros Hk. pose proof (subarray_len oldData k.1 k.2 Hk) as Hchunk.
  unfold paste_body. cbn [keep_of keep_start keep_end contents pointer].
  replace (Z.to_nat (k.2 - k.1))
    with (Z.to_nat (len (subarray oldData k.1 k.2)) +
          Z.to_nat (k.2 - k.1 - len (subarray oldData k.1 k.2)))%nat by lia.
  rewrite replicate_add, <- app_assoc.
  rewrite (array_set_fits written _ _ (subarray oldData k.1 k.2)).
  - cbn [mbind result_bind]. rewrite len_app, len_pasted by done.
    unfold pasted. by rewrite <- !app_assoc.
  - rewrite len_replicate. lia.
Qed.

Lemma paste_pasted (oldData : list Q) : ∀ (intervals : list (Z * Z))
    (written : list Q) (room : nat),
  Forall (λ k, k.1 ≤ k.2) intervals →
  Z.of_nat room = total_span intervals →
  for_of (paste_body oldData) (keep_of <$> intervals)
    (mkPaste (written ++ replicate room 0%Q) (len written)) =
  Ok (mkPaste (written ++ pasted_channel intervals oldData)
        (len written + total_span intervals)).
Proof.
  induction intervals as [|k rest IH]; intros written room Hin Hroom.
  - simpl in *. destruct room; [|lia]. simpl.
    by rewrite !app_nil_r, Z.add_0_r.
  - apply Forall_cons in Hin as [Hk Hin].
    pose proof (total_span_nonneg rest Hin) as Hrest.
    cbn [fmap list_fmap for_of total_span] in *.
    replace room with (Z.to_nat (k.2 - k.1) + Z.to_nat (total_span rest))%nat
      by lia.
    rewrite replicate_add, paste_body_pasted by done.
    cbn [mbind result_bind]. rewrite IH; [|done|lia].
    unfold pasted_channel. cbn [mbind list_bind].
    by rewrite len_app, len_pasted, <- !app_assoc, Z.add_assoc.
Qed.

Lemma channel_body_pasted (orig : AudioBuffer) (intervals : list (Z * Z))
    (sr : Z) (old : list Q) (done_old rest_old done_new : list (list Q))
    (rest_new : list (list Q)) :
  channelData orig = done_old ++ old :: rest_old →
  length done_new = length done_old →
  Forall (λ k, k.1 ≤ k.2) intervals →
  channel_body orig (keep_of <$> intervals)
    (mkAudioBuffer sr (total_span intervals)
       (done_new ++ replicate (Z.to_nat (total_span intervals)) 0%Q :: rest_new))
    (len done_old) =
  Ok (mkAudioBuffer sr (total_span intervals)
        ((done_new ++ [pasted_channel intervals old]) ++ rest_new)).
Proof.
  intros Horig Hlen Hin. unfold channel_body, getChannelData.
  rewrite Horig, read_middle. cbn [mbind result_bind channelData].
  replace (len done_old) with (len done_new) by (unfold len; lia).
  rewrite read_middle. cbn [mbind result_bind].
  pose proof (paste_pasted old intervals [] (Z.to_nat (total_span intervals)) Hin)
    as Hpaste.
  cbn [app] in Hpaste. change (len []) with 0 in Hpaste.
  rewrite Hpaste.
  2:{ rewrite Z2Nat.id; [done|]. by apply total_span_nonneg. }
  cbn [mbind result_bind contents]. unfold with_channel.
  cbn [sampleRate bufLength channelData]. do 2 f_equal.
  unfold len. rewrite Nat2Z.id.
  rewrite <- app_assoc. cbn [app].
  rewrite insert_app_r_alt, Nat.sub_diag by lia. done.
Qed.

Lemma channels_loop_pasted (orig : AudioBuffer) (intervals : list (Z * Z))
    (sr : Z) : ∀ (rest_old done_old done_new : list (list Q)),
  channelData orig = done_old ++ rest_old →
  length done_new = length done_old →
  Forall (λ k, k.1 ≤ k.2) intervals →
  for_of (channel_body orig (keep_of <$> intervals))
    (seqZ (len done_old) (len rest_old))
    (mkAudioBuffer sr (total_span intervals)
       (done_new ++
        replicate (length rest_old)
          (replicate (Z.to_nat (total_span intervals)) 0%Q))) =
  Ok (mkAudioBuffer sr (total_span intervals)
        (done_new ++ (pasted_channel intervals <$> rest_old))).
Proof.
  induction rest_old as [|old rest_old IH];
    intros done_old done_new Horig Hlen Hin.
  - simpl. by rewrite !app_nil_r.
  - rewrite len_cons, seqZ_cons by (pose proof (len_nonneg rest_old); lia).
    cbn [for_of length replicate].
    rewrite (channel_body_pasted orig intervals sr old done_old rest_old)
      by done.
    cbn [mbind result_bind].
    replace (Z.succ (len done_old)) with (len (done_old ++ [old]))
      by (rewrite len_app; unfold len; simpl; lia).
    replace (Z.pred (1 + len rest_old)) with (len rest_old) by lia.
    rewrite (IH (done_old ++ [old])
               (done_new ++ [pasted_channel intervals old])).
    + by rewrite <- !app_assoc.
    + by rewrite <- app_assoc.
    + rewrite !length_app. simpl. lia.
    + done.
Qed.

(** The cursor walk only emits intervals that are not empty. *)
Lemma walk_not_empty (sr length : Z) : ∀ (sorted : list Region) (cursor : Z),
  Forall (λ k, k.1 < k.2) (walk sr length cursor sorted).
Proof.
  induction sorted as [|region rest IH]; intros cursor; cbn [walk].
  - destruct (Z.ltb_spec cursor length); [|done].
    apply Forall_singleton. simpl. lia.
  - apply Forall_app. split; [|apply IH].
    destruct (Z.ltb_spec cursor (Qfloor (double (start region * inject_Z sr))));
      [|done].
    apply Forall_singleton. cbn [fst snd]. lia.
Qed.

Lemma createProcessedBuffer_pasted (b : AudioBuffer) (regions : list Region)
    (context : AudioContext) :
  let keeps := keep_intervals b regions in
  createProcessedBuffer b regions context =
  if (1 <=? numberOfChannels b) && (1 <=? total_span keeps)
  then Ok (mkAudioBuffer (sampleRate b) (total_span keeps)
             (pasted_channel keeps <$> channelData b))
  else Throw NotSupportedError.
Proof.
  intros keeps. unfold createProcessedBuffer.
  pose proof (cut_walk (sampleRate b) (bufLength b)
                (array_sort (λ a b, start a - start b)%Q regions)
                (mkCut [] 0)) as Hcut.
  cbn zeta in Hcut. cbn [keepRegions cursor app] in Hcut.
  rewrite Hcut. fold (sort_by_start regions). fold (keep_intervals b regions).
  fold keeps. rewrite newLength_total_span, Z.add_0_l.
  unfold createBuffer, allocate.
  destruct ((1 <=? numberOfChannels b) && (1 <=? total_span keeps)); [|done].
  cbn [mbind result_bind].
  pose proof (channels_loop_pasted b keeps (sampleRate b) (channelData b) [] [])
    as Hloop.
  cbn [app length] in Hloop. change (len []) with 0 in Hloop.
  unfold numberOfChannels, len at 2. rewrite Nat2Z.id. apply Hloop; [done..|].
  eapply Forall_impl; [apply walk_not_empty|]. intros k Hk. cbn beta in Hk. lia.
Qed.

(** ** bufferToWav over the store *)

Lemma run_load_bytes (h : Heap.heap) l d :
  h !! l = Some (Heap.Bytes d) → Heap.load_bytes l h = (Ok d, h).
Proof.
  intros Hl. unfold Heap.load_bytes. rewrite run_bind. unfold Heap.load.
  by rewrite Hl.
Qed.

Lemma run_load_views (h : Heap.heap) l a :
  h !! l = Some (Heap.ViewArray a) → Heap.load_views l h = (Ok a, h).
Proof.
  intros Hl. unfold Heap.load_views. rewrite run_bind. unfold Heap.load.
  by rewrite Hl.
Qed.

Lemma run_view_write (h : Heap.heap) (bl : Heap.loc) (d bytes : list Z)
    (at_ : Z) :
  h !! bl = Some (Heap.Bytes d) →
  Heap.view_write bl at_ bytes h =
  match array_set d bytes at_ with
  | Ok written => (Ok tt, <[bl := Heap.Bytes written]> h)
  | Throw e => (Throw e, h)
  | Diverge => (Diverge, h)
  end.
Proof.
  intros Hl. unfold Heap.view_write.
  rewrite run_bind, (run_load_bytes h bl d Hl). cbv beta iota.
  rewrite run_bind. unfold Heap.lift. by destruct (array_set d bytes at_).
Qed.

Lemma setUint32_agrees (bl : Heap.loc) (h0 h : Heap.heap) (data : Z)
    (hw : Heap.wav) (w : wav) :
  wav_at bl h0 hw w h →
  agrees (wav_at bl h0) (Heap.setUint32 data hw h) (setUint32 data w).
Proof.
  intros [-> ->]. unfold Heap.setUint32, setUint32.
  cbn [Heap.buffer Heap.pos Heap.offset]. rewrite run_bind.
  rewrite (run_view_write _ bl (view w)) by (by rewrite lookup_insert_eq).
  destruct (array_set (view w) _ (pos w)) as [written| |];
    cbn [mbind result_bind]; [|done..].
  eexists. split; [done|]. split; [done|]. cbn [snd view].
  by rewrite insert_insert_eq.
Qed.

Lemma setUint16_agrees (bl : Heap.loc) (h0 h : Heap.heap) (data : Z)
    (hw : Heap.wav) (w : wav) :
  wav_at bl h0 hw w h →
  agrees (wav_at bl h0) (Heap.setUint16 data hw h) (setUint16 data w).
Proof.
  intros [-> ->]. unfold Heap.setUint16, setUint16.
  cbn [Heap.buffer Heap.pos Heap.offset]. rewrite run_bind.
  rewrite (run_view_write _ bl (view w)) by (by rewrite lookup_insert_eq).
  destruct (array_set (view w) _ (pos w)) as [written| |];
    cbn [mbind result_bind]; [|done..].
  eexists. split; [done|]. split; [done|]. cbn [snd view].
  by rewrite insert_insert_eq.
Qed.

Lemma run_push_view (h : Heap.heap) l a v :
  h !! l = Some (Heap.ViewArray a) →
  Heap.push_view l v h = (Ok tt, <[l := Heap.ViewArray (a ++ [v])]> h).
Proof.
  intros Hl. unfold Heap.push_view.
  by rewrite run_bind, (run_load_views h l a).
Qed.

Lemma run_getChannelData (hb : Heap.AudioBuffer) (done_ todo : list Heap.loc)
    (l : Heap.loc) (h : Heap.heap) :
  Heap.channels hb = done_ ++ l :: todo →
  Heap.getChannelData hb (len done_) h =
  (Ok (Heap.mkView l 0 (Heap.bufLength hb)), h).
Proof.
  intros Hch. unfold Heap.getChannelData. by rewrite Hch, read_middle.
Qed.

(** The loop that collects the channels leaves their views in the array. *)
Lemma channels_push_run (hb : Heap.AudioBuffer) (cl : Heap.loc) :
  ∀ (todo done_ : list Heap.loc) (views : list Heap.Float32Array)
    (h : Heap.heap),
  Heap.channels hb = done_ ++ todo →
  h !! cl = Some (Heap.ViewArray views) →
  Heap.for_of (λ _ i, v ← Heap.getChannelData hb i; Heap.push_view cl v)
    (seqZ (len done_) (len todo)) tt h =
  (Ok tt,
   <[cl := Heap.ViewArray
             (views ++ ((λ l, Heap.mkView l 0 (Heap.bufLength hb)) <$> todo))]>
     h).
Proof.
  induction todo as [|l todo IH]; intros done_ views h Hch Hcl.
  - cbn. by rewrite app_nil_r, insert_id.
  - rewrite len_cons, seqZ_cons by (pose proof (len_nonneg todo); lia).
    rewrite run_for_of_cons, run_bind.
    rewrite (run_getChannelData hb done_ todo l h Hch). cbv beta iota.
    rewrite (run_push_view h cl views) by done. cbv beta iota.
    replace (Z.succ (len done_)) with (len (done_ ++ [l]))
      by (rewrite len_app; unfold len; simpl; lia).
    replace (Z.pred (1 + len todo)) with (len todo) by lia.
    rewrite (IH (done_ ++ [l]) (views ++ [Heap.mkView l 0 (Heap.bufLength hb)]))
      by (by rewrite <- ?app_assoc, ?lookup_insert_eq).
    by rewrite insert_insert_eq, <- app_assoc.
Qed.

Lemma read_fmap {A B} (f : A → B) (a : list A) (i : Z) :
  read (f <$> a) i = f <$> read a i.
Proof. unfold read. destruct (i <? 0); [done|]. apply list_lookup_fmap. Qed.

Section interleave_agrees.
Context (hb : Heap.AudioBuffer) (b : AudioBuffer) (bl cl : Heap.loc).
Context (h0 : Heap.heap).
Context (Hlen : Heap.bufLength hb = bufLength b).
Context (Hviews : h0 !! cl = Some (Heap.ViewArray (channel_views hb))).
Context (Hold : stores_hold h0 (Heap.channels hb) (channelData b) (bufLength b)).
Context (Hcl : cl ≠ bl).
Context (Hapart : ∀ l, l ∈ Heap.channels hb → l ≠ bl).

Lemma interleave_body_agrees (i : Z) (hw : Heap.wav) (w : wav) (h : Heap.heap) :
  wav_at bl h0 hw w h →
  agrees (wav_at bl h0) (Heap.interleave_body cl hw i h)
    (interleave_body (channelData b) w i).
Proof.
  intros [-> ->]. unfold Heap.interleave_body, interleave_body.
  rewrite run_bind.
  rewrite (run_load_views _ cl (channel_views hb))
    by (by rewrite lookup_insert_ne).
  cbv beta iota. unfold channel_views. rewrite read_fmap.
  destruct (stores_hold_read h0 _ _ _ i Hold)
    as [[-> ->]|(l & d & -> & -> & Hl & _ & Hd & Hlend)]; [done|].
  cbn [fmap option_fmap option_map Heap.pos Heap.buffer Heap.offset].
  assert (l ≠ bl).
  { apply Hapart. apply list_elem_of_lookup. by eexists. }
  rewrite run_bind, Hlen, <- Hlend.
  rewrite (run_get _ l d) by (by rewrite lookup_insert_ne).
  cbv beta iota. rewrite run_bind.
  rewrite (run_view_write _ bl (view w)) by (by rewrite lookup_insert_eq).
  destruct (array_set (view w) _ _) as [written| |];
    cbn [mbind result_bind]; [|done..].
  eexists. split; [done|]. split; [done|]. cbn [snd view].
  by rewrite insert_insert_eq.
Qed.

Lemma interleave_frame_agrees : ∀ (cs : list Z) (hw : Heap.wav) (w : wav)
    (h : Heap.heap),
  wav_at bl h0 hw w h →
  agrees (wav_at bl h0) (Heap.for_of (Heap.interleave_body cl) cs hw h)
    (for_of (interleave_body (channelData b)) cs w).
Proof.
  induction cs as [|c cs IH]; intros hw w h Hw.
  - by exists hw.
  - cbn [Heap.for_of for_of].
    apply agrees_bind with (R := wav_at bl h0);
      [by apply interleave_body_agrees|].
    intros hw' w' h' Hw'. by apply IH.
Qed.

Lemma interleave_loop_agrees (numOfChan n : Z) : ∀ (fuel : nat)
    (hw : Heap.wav) (w : wav) (h : Heap.heap),
  wav_at bl h0 hw w h →
  agrees (wav_at bl h0) (Heap.interleave_loop fuel cl numOfChan n hw h)
    (interleave_loop fuel (channelData b) numOfChan n w).
Proof.
  induction fuel as [|fuel IH]; intros hw w h Hw; [done|].
  cbn [Heap.interleave_loop interleave_loop].
  assert (Hpos : Heap.pos hw = pos w) by (by destruct Hw as [-> _]).
  rewrite Hpos. destruct (pos w <? n).
  - apply agrees_bind with (R := wav_at bl h0);
      [by apply interleave_frame_agrees|].
    intros hw' w' h' [-> ->]. apply IH. by split.
  - by exists hw.
Qed.
End interleave_agrees.

Lemma agrees_extends {A B} (R : A → B → Heap.heap → Prop) (h : Heap.heap)
    (run : result A * Heap.heap) (r : result B) :
  h ⊆ run.2 → agrees R run r → agrees (λ a b h', R a b h' ∧ h ⊆ h') run r.
Proof.
  intros Hsub. apply agrees_weaken. intros a b HR. by split.
Qed.

(** The store version of [bufferToWav] computes the bytes of the value
    version. *)
Lemma bufferToWav_simulates (h : Heap.heap) (hb : Heap.AudioBuffer)
    (b : AudioBuffer) (n : Z) :
  represents h hb b →
  agrees (λ bytes bytes' h', bytes = bytes' ∧ h ⊆ h')
    (Heap.bufferToWav hb n h) (bufferToWav b n).
Proof.
  intros (Hsr & HL & Hold). apply agrees_extends.
  { by apply (frames_bufferToWav h hb n h). }
  assert (Hnch : Heap.numberOfChannels hb = numberOfChannels b).
  { unfold Heap.numberOfChannels, numberOfChannels, len.
    by rewrite (Forall2_length _ _ _ Hold). }
  unfold Heap.bufferToWav, bufferToWav. cbv zeta. rewrite Hnch, Hsr.
  set (total := n * numberOfChannels b * 2 + 44).
  unfold Heap.new_ArrayBuffer, new_ArrayBuffer.
  destruct (total <? 0); [done|].
  cbn [mbind result_bind].
  rewrite run_bind. unfold Heap.alloc at 1. cbv beta iota zeta.
  rewrite run_bind. unfold Heap.alloc at 1. cbv beta iota zeta.
  set (zeros := replicate (Z.to_nat total) 0).
  set (bl := fresh (dom h)).
  set (cl := fresh (dom (<[bl := Heap.Bytes zeros]> h))).
  assert (Hbl : bl ∉ dom h) by apply is_fresh.
  assert (Hcl : cl ∉ dom (<[bl := Heap.Bytes zeros]> h)) by apply is_fresh.
  assert (Hne : cl ≠ bl).
  { intros E. apply Hcl. rewrite E, dom_insert. set_solver. }
  assert (Hcl' : cl ∉ dom h).
  { intros E. apply Hcl. rewrite dom_insert. set_solver. }
  set (h1 := <[cl := Heap.ViewArray []]> h).
  assert (Hw0 : wav_at bl h1 (Heap.mkWav bl 0 0) (mkWav zeros 0 0)
                  (<[cl := Heap.ViewArray []]> (<[bl := Heap.Bytes zeros]> h))).
  { split; [done|]. unfold h1. cbn [view]. by apply insert_insert_ne. }
  revert Hw0. generalize (Heap.mkWav bl 0 0) (mkWav zeros 0 0)
    (<[cl := Heap.ViewArray []]> (<[bl := Heap.Bytes zeros]> h)).
  intros hw w h' Hw.
  do 12 (lazymatch goal with
         | |- agrees _ ((Heap.setUint32 _ _ ≫= _) _) _ =>
             apply agrees_bind with (R := wav_at bl h1);
             [by apply setUint32_agrees|]
         | |- agrees _ ((Heap.setUint16 _ _ ≫= _) _) _ =>
             apply agrees_bind with (R := wav_at bl h1);
             [by apply setUint16_agrees|]
         end; clear hw w h' Hw; intros hw w h' Hw).
  assert (Hpos : Heap.pos hw = pos w) by (by destruct Hw as [-> _]).
  rewrite Hpos.
  apply agrees_bind with (R := wav_at bl h1); [by apply setUint32_agrees|].
  clear hw w h' Hw Hpos. intros hw w h' [-> ->].
  rewrite run_bind.
  pose proof (channels_push_run hb cl (Heap.channels hb) [] []
                (<[bl := Heap.Bytes (view w)]> h1) eq_refl) as Hpush.
  change (len []) with 0 in Hpush.
  fold (Heap.numberOfChannels hb) in Hpush. rewrite Hnch in Hpush.
  rewrite Hpush by (unfold h1; by rewrite lookup_insert_ne, lookup_insert_eq).
  cbv beta iota. cbn [app]. fold (channel_views hb).
  set (h2 := <[cl := Heap.ViewArray (channel_views hb)]> h).
  assert (Hw : wav_at bl h2 (Heap.mkWav bl (pos w) (offset w)) w
                 (<[cl := Heap.ViewArray (channel_views hb)]>
                    (<[bl := Heap.Bytes (view w)]> h1))).
  { split; [done|]. unfold h1, h2.
    rewrite (insert_insert_ne h bl cl) by done.
    rewrite insert_insert_eq. by apply insert_insert_ne. }
  apply agrees_bind with (R := wav_at bl h2).
  - apply (interleave_loop_agrees hb b bl cl h2); try done.
    + unfold h2. by rewrite lookup_insert_eq.
    + apply stores_hold_insert_other; [|done].
      intros Hin. apply Hcl'. apply list_elem_of_lookup in Hin as [i Hi].
      destruct (Forall2_lookup_l _ _ _ _ _ Hold Hi) as (d & _ & Hd & _).
      apply elem_of_dom. by eexists.
    + intros l Hin ->. apply Hbl. apply list_elem_of_lookup in Hin as [i Hi].
      destruct (Forall2_lookup_l _ _ _ _ _ Hold Hi) as (d & _ & Hd & _).
      apply elem_of_dom. by eexists.
  - intros hw' w' h'' [-> ->]. cbn [Heap.buffer].
    rewrite (run_load_bytes _ bl (view w')) by (by rewrite lookup_insert_eq).
    by eexists.
Qed.

Lemma allocate_bufLength (numberOfChannels length sr : Z)
    (h h' : Heap.heap) (nb : Heap.AudioBuffer) :
  Heap.allocate numberOfChannels length sr h = (Ok nb, h') →
  Heap.bufLength nb = length.
Proof.
  unfold Heap.allocate. destruct (_ && _); [|done]. rewrite run_bind.
  destruct (Heap.for_of _ _ _ h) as [[stores| |] h1]; [|done..].
  by intros [= <- _].
Qed.

(** [processAudio] over the store is [createProcessedBuffer] followed by
    [bufferToWav] at the new buffer's length. *)
Lemma Heap_processAudio_createProcessedBuffer (hb : Heap.AudioBuffer)
    (lr : Heap.loc) (context : AudioContext) (h : Heap.heap) :
  Heap.processAudio hb lr h =
  (nb ← Heap.createProcessedBuffer hb lr context;
   Heap.bufferToWav nb (Heap.bufLength nb)) h.
Proof.
  unfold Heap.processAudio, Heap.createProcessedBuffer.
  rewrite !run_bind.
  destruct (Heap.plan hb lr h) as [[[kl n]| |] h1]; [|done..].
  unfold Heap.new_AudioBuffer, Heap.createBuffer. rewrite !run_bind.
  destruct (Heap.allocate _ n _ h1) as [[nb| |] h2] eqn:Ealloc; [|done..].
  apply allocate_bufLength in Ealloc. rewrite !run_bind.
  destruct (Heap.copy hb nb kl h2) as [[[]| |] h3]; [|done..].
  unfold mret, Heap.M_ret, Heap.ret. by rewrite Ealloc.
Qed.

Lemma result_bind_assoc {A B C} (m : result A) (f : A → result B)
    (g : B → result C) :
  (m ≫= f) ≫= g = m ≫= (λ a, f a ≫= g).
Proof. by destruct m. Qed.

(** ** Detection followed by removal *)

(** A list the comparator finds in order is left as it is. *)
Lemma array_sort_sorted {A} (compare : A → A → Q) (xs : list A) :
  StronglySorted (λ a b, Qltb 0 (compare a b) = false) xs →
  array_sort compare xs = xs.
Proof.
  unfold array_sort. induction 1 as [|x xs Hs IH Hx]; [done|].
  cbn [foldr]. rewrite IH. destruct Hx as [|y ys Hy _]; [done|].
  simpl. by rewrite Hy.
Qed.

Lemma walk_between (sr length : Z) : ∀ (regions : list Region) (cursor : Z),
  walk sr length cursor regions =
  between length cursor (sample_span sr <$> regions).
Proof.
  induction regions as [|r rest IH]; intros cursor; [done|].
  cbn [fmap list_fmap walk between]. by rewrite IH.
Qed.

Lemma uncovered_from_app (spans : list (Z * Z)) : ∀ (a b : list Q) (i : Z),
  uncovered_from spans i (a ++ b) =
  uncovered_from spans i a ++ uncovered_from spans (i + len a) b.
Proof.
  induction a as [|x a IH]; intros b i.
  - simpl. by rewrite Z.add_0_r.
  - cbn [app uncovered_from]. rewrite IH, len_cons, <- app_assoc.
    by replace (i + 1 + len a) with (i + (1 + len a)) by lia.
Qed.

Lemma uncovered_from_all (spans : list (Z * Z)) : ∀ (a : list Q) (i : Z),
  (∀ j, i ≤ j < i + len a → covered spans j = false) →
  uncovered_from spans i a = a.
Proof.
  induction a as [|x a IH]; intros i Hfree; [done|].
  rewrite len_cons in Hfree. pose proof (len_nonneg a).
  cbn [uncovered_from]. rewrite Hfree by lia. rewrite IH; [done|].
  intros j Hj. apply Hfree. lia.
Qed.

Lemma uncovered_from_none (spans : list (Z * Z)) : ∀ (a : list Q) (i : Z),
  (∀ j, i ≤ j < i + len a → covered spans j = true) →
  uncovered_from spans i a = [].
Proof.
  induction a as [|x a IH]; intros i Hcov; [done|].
  rewrite len_cons in Hcov. pose proof (len_nonneg a).
  cbn [uncovered_from]. rewrite Hcov by lia. rewrite IH; [done|].
  intros j Hj. apply Hcov. lia.
Qed.

Lemma uncovered_from_ext (spans spans' : list (Z * Z)) :
  ∀ (a : list Q) (i : Z),
  (∀ j, i ≤ j → covered spans j = covered spans' j) →
  uncovered_from spans i a = uncovered_from spans' i a.
Proof.
  induction a as [|x a IH]; intros i Hext; [done|].
  cbn [uncovered_from]. rewrite Hext by lia. rewrite IH; [done|].
  intros j Hj. apply Hext. lia.
Qed.

Lemma covered_before (spans : list (Z * Z)) (i : Z) :
  Forall (λ p, i < p.1) spans → covered spans i = false.
Proof.
  unfold covered. induction 1 as [|p rest Hp _ IH]; [done|].
  cbn [existsb]. rewrite IH, orb_false_r.
  destruct (Z.leb_spec p.1 i); [lia|done].
Qed.

Lemma spans_within_cons (from to : Z) (p : Z * Z) (rest : list (Z * Z)) :
  spans_within from to (p :: rest) →
  from ≤ p.1 ∧ p.1 ≤ p.2 ∧ p.2 ≤ to ∧ Forall (λ q, p.2 ≤ q.1) rest ∧
  spans_within p.2 to rest.
Proof.
  intros [Hs Hb]. apply StronglySorted_inv in Hs as [Hs Hp].
  apply Forall_cons in Hb as [(H1 & H2 & H3) Hb].
  split_and!; try done. split; [done|].
  apply Forall_forall. intros q Hq.
  eapply Forall_forall in Hp; [|exact Hq].
  eapply Forall_forall in Hb as (_ & ? & ?); [|exact Hq]. lia.
Qed.

Lemma kept_app (a b : list (Z * Z)) (samples : list Q) :
  kept (a ++ b) samples = kept a samples ++ kept b samples.
Proof. unfold kept. apply bind_app. Qed.

(** The samples between the spans are the samples no span covers. *)
Lemma kept_between (old : list Q) :
  ∀ (spans : list (Z * Z)) (cursor : Z),
  0 ≤ cursor → cursor ≤ len old → spans_within cursor (len old) spans →
  kept (between (len old) cursor spans) old =
  uncovered_from spans cursor (drop (Z.to_nat cursor) old).
Proof.
  induction spans as [|p rest IH]; intros cursor H0 HL Hin.
  - rewrite uncovered_from_all by done. cbn [between].
    destruct (Z.ltb_spec cursor (len old)).
    + unfold kept, slice. cbn [mbind list_bind fst snd]. rewrite app_nil_r.
      apply take_ge. unfold len in *. rewrite length_drop. lia.
    + symmetry. apply drop_ge. unfold len in *. lia.
  - apply spans_within_cons in Hin as (H1 & H2 & H3 & Hrest & Hin).
    cbn [between]. rewrite kept_app, IH by (done || lia).
    assert (Hsplit : drop (Z.to_nat cursor) old =
      take (Z.to_nat (p.1 - cursor)) (drop (Z.to_nat cursor) old) ++
      take (Z.to_nat (p.2 - p.1)) (drop (Z.to_nat p.1) old) ++
      drop (Z.to_nat p.2) old).
    { rewrite <- (take_drop (Z.to_nat (p.1 - cursor))
                    (drop (Z.to_nat cursor) old)) at 1.
      f_equal. rewrite drop_drop.
      replace (Z.to_nat cursor + Z.to_nat (p.1 - cursor))%nat
        with (Z.to_nat p.1) by lia.
      rewrite <- (take_drop (Z.to_nat (p.2 - p.1))
                    (drop (Z.to_nat p.1) old)) at 1.
      f_equal. rewrite drop_drop. f_equal. lia. }
    rewrite Hsplit, !uncovered_from_app.
    assert (Hlen1 : len (take (Z.to_nat (p.1 - cursor))
                           (drop (Z.to_nat cursor) old)) = p.1 - cursor).
    { unfold len in *. rewrite length_take, length_drop. lia. }
    assert (Hlen2 : len (take (Z.to_nat (p.2 - p.1))
                           (drop (Z.to_nat p.1) old)) = p.2 - p.1).
    { unfold len in *. rewrite length_take, length_drop. lia. }
    rewrite Hlen1, Hlen2.
    replace (cursor + (p.1 - cursor)) with p.1 by lia.
    replace (p.1 + (p.2 - p.1)) with p.2 by lia.
    rewrite (uncovered_from_all (p :: rest)),
      (uncovered_from_none (p :: rest)).
    + cbn [app]. f_equal.
      * destruct (Z.ltb_spec cursor p.1).
        -- unfold kept, slice. cbn [mbind list_bind fst snd].
           by rewrite app_nil_r.
        -- replace (p.1 - cursor) with 0 by lia. done.
      * apply uncovered_from_ext. intros j Hj. unfold covered.
        cbn [existsb]. destruct (Z.ltb_spec j p.2); [lia|].
        by rewrite andb_false_r.
    + intros j Hj. rewrite Hlen2 in Hj. unfold covered. cbn [existsb].
      destruct (Z.leb_spec p.1 j); [|lia].
      destruct (Z.ltb_spec j p.2); [done|lia].
    + intros j Hj. rewrite Hlen1 in Hj. apply covered_before.
      constructor; [lia|]. eapply Forall_impl; [exact Hrest|].
      intros q Hq. cbn beta in Hq. lia.
Qed.

Lemma between_in_range (length : Z) : ∀ (spans : list (Z * Z)) (cursor : Z),
  0 ≤ cursor → spans_within cursor length spans →
  Forall (λ k, 0 ≤ k.1 ∧ k.1 ≤ k.2 ∧ k.2 ≤ length)
    (between length cursor spans).
Proof.
  induction spans as [|p rest IH]; intros cursor H0 Hin; cbn [between].
  - destruct (Z.ltb_spec cursor length); [|done].
    apply Forall_singleton. cbn [fst snd]. lia.
  - apply spans_within_cons in Hin as (H1 & H2 & H3 & _ & Hin).
    apply Forall_app. split; [|apply IH; (done || lia)].
    destruct (Z.ltb_spec cursor p.1); [|done].
    apply Forall_singleton. cbn [fst snd]. lia.
Qed.

Lemma total_span_app (a b : list (Z * Z)) :
  total_span (a ++ b) = total_span a + total_span b.
Proof. induction a as [|k a IH]; simpl; lia. Qed.

Lemma total_span_between (length : Z) : ∀ (spans : list (Z * Z)) (cursor : Z),
  cursor ≤ length → spans_within cursor length spans →
  total_span (between length cursor spans) =
  length - cursor - total_span spans.
Proof.
  induction spans as [|p rest IH]; intros cursor HL Hin; cbn [between].
  - destruct (Z.ltb_spec cursor length); simpl; lia.
  - apply spans_within_cons in Hin as (H1 & H2 & H3 & _ & Hin).
    rewrite total_span_app, IH by (done || lia). cbn [total_span].
    destruct (Z.ltb_spec cursor p.1); cbn [total_span fst snd]; lia.
Qed.

(** Inside the old channel a keep interval is copied whole. *)
Lemma pasted_channel_kept (old : list Q) (intervals : list (Z * Z)) :
  Forall (λ k, 0 ≤ k.1 ∧ k.1 ≤ k.2 ∧ k.2 ≤ len old) intervals →
  pasted_channel intervals old = kept intervals old.
Proof.
  unfold pasted_channel, kept.
  induction 1 as [|k rest (H1 & H2 & H3) _ IH]; [done|].
  cbn [mbind list_bind]. rewrite IH. f_equal. unfold pasted.
  destruct (subarray_slice old k H1 H2 H3) as [-> Hlen].
  rewrite Hlen, Z.sub_diag. apply app_nil_r.
Qed.

Lemma StronglySorted_sublist {A} (R : A → A → Prop) (l k : list A) :
  sublist l k → StronglySorted R k → StronglySorted R l.
Proof.
  induction 1 as [|x l k Hsub IH|x l k Hsub IH]; intros Hs.
  - constructor.
  - apply StronglySorted_inv in Hs as [Hs Hx]. constructor; [by apply IH|].
    apply Forall_forall. intros y Hy.
    eapply Forall_forall in Hx; [done|]. by eapply elem_of_sublist.
  - apply StronglySorted_inv in Hs as [Hs _]. by apply IH.
Qed.

(** The index that comes back for the time stored for index [s]. *)
Lemma round_trip_index (sr s : Z) :
  0 < sr < 2 ^ 32 → 0 ≤ s < 2 ^ 32 →
  let c := Qfloor (double (double (inject_Z s / inject_Z sr) * inject_Z sr)) in
  (c = s ∨ c = s - 1) ∧ 0 ≤ c.
Proof.
  intros Hsr Hs. cbv zeta.
  assert (Hsr' : (0 < inject_Z sr)%Q) by (apply inject_Z_pos; lia).
  destruct (Z.eq_dec s 0) as [->|Hs0].
  - assert (E1 : (inject_Z 0 / inject_Z sr == 0)%Q) by (field; lra).
    rewrite (double_zero _ E1).
    assert (E2 : (0 * inject_Z sr == 0)%Q) by ring.
    rewrite (double_zero _ E2). by split; [left|].
  - destruct (double_round_trip sr s Hsr ltac:(lia)) as [Hlo Hhi].
    set (y := double _) in *. destruct (Qfloor_bounds y) as [H1 H2].
    assert (Hup : Qfloor y < s + 1).
    { rewrite Zlt_Qlt, inject_Z_plus. change (inject_Z 1) with 1%Q. lra. }
    assert (Hdown : s - 2 < Qfloor y).
    { rewrite Zlt_Qlt. unfold Z.sub. rewrite inject_Z_plus.
      change (inject_Z (- (2))) with (- (2))%Q. lra. }
    lia.
Qed.

Lemma round_trip_monotone (sr s s' : Z) :
  0 < sr → 0 ≤ s → s ≤ s' →
  Qfloor (double (double (inject_Z s / inject_Z sr) * inject_Z sr)) ≤
  Qfloor (double (double (inject_Z s' / inject_Z sr) * inject_Z sr)).
Proof.
  intros Hsr Hs Hle.
  assert (Hsr' : (0 < inject_Z sr)%Q) by (by apply inject_Z_pos).
  assert (H0 : (0 <= inject_Z s / inject_Z sr)%Q)
    by (by apply Qdiv_inject_nonneg).
  apply Qfloor_resp_le, double_monotone.
  - apply Qmult_le_0_compat; [by apply double_nonneg|lra].
  - apply Qmult_le_compat_r; [|lra].
    apply double_monotone; [done|]. by apply Qdiv_inject_le.
Qed.

(** The regions stored for spans in ascending order are in the order the
    gap-remover sorts them into. *)
Lemma stored_region_sorted (sr : Z) (spans : list (Z * Z)) :
  0 < sr →
  StronglySorted (λ p q, p.2 < q.1) spans →
  Forall (λ p, 0 ≤ p.1 ∧ p.1 < p.2) spans →
  sort_by_start (stored_region sr <$> spans) = stored_region sr <$> spans.
Proof.
  intros Hsr Hs Hb. apply array_sort_sorted.
  eapply StronglySorted_fmap; [|apply (StronglySorted_with _ _ _ Hs Hb)].
  intros p q [(Hp0 & Hp) Hpq]. cbn [stored_region start].
  apply not_true_iff_false. intros Hlt. apply Qltb_lt in Hlt.
  apply Qlt_minus_iff in Hlt.
  assert (Hle : (double (inject_Z p.1 / inject_Z sr) <=
                 double (inject_Z q.1 / inject_Z sr))%Q).
  { apply double_monotone; [by apply Qdiv_inject_nonneg|].
    apply Qdiv_inject_le; [done|lia]. }
  by apply Qlt_not_le in Hlt.
Qed.

(** The cuts made for the stored regions of spans in ascending order inside
    the buffer are in ascending order inside the buffer. *)
Lemma stored_cuts_within (sr length : Z) (spans : list (Z * Z)) :
  0 < sr < 2 ^ 32 → length < 2 ^ 32 →
  StronglySorted (λ p q, p.2 < q.1) spans →
  Forall (λ p, 0 ≤ p.1 ∧ p.1 < p.2 ∧ p.2 ≤ length) spans →
  spans_within 0 length (sample_span sr <$> (stored_region sr <$> spans)).
Proof.
  intros Hsr Hlen Hs Hb. rewrite <- list_fmap_compose. split.
  - eapply StronglySorted_fmap; [|apply (StronglySorted_with _ _ _ Hs Hb)].
    intros p q [(Hp0 & Hp & HpL) Hpq]. unfold compose.
    cbn [sample_span stored_region start end_ fst snd].
    apply round_trip_monotone; lia.
  - apply Forall_fmap. eapply Forall_impl; [exact Hb|].
    intros p (Hp0 & Hp & HpL). unfold compose.
    cbn [sample_span stored_region start end_ fst snd]. split_and!.
    + apply round_trip_index; lia.
    + apply round_trip_monotone; lia.
    + destruct (round_trip_index sr p.2 Hsr ltac:(lia)) as [[E|E] _]; lia.
Qed.

(** ** More on the detector *)

(** The scan consults the channel only for whether the samples it visits
    are below the threshold. *)
Lemma scan_loop_ext (rawData rawData' : list Q) (sr : Z) (minDuration : Q) :
  len rawData = len rawData' →
  ∀ (fuel : nat) (i : Z) (st : scan),
  (∀ j, i ≤ j → (j - i) mod step = 0 →
        below_threshold (read rawData j) = below_threshold (read rawData' j)) →
  scan_loop fuel rawData sr minDuration i st =
  scan_loop fuel rawData' sr minDuration i st.
Proof.
  intros Hlen. induction fuel as [|fuel IH]; intros i st Hsame; [done|].
  cbn [scan_loop]. rewrite <- Hlen.
  destruct (i <? len rawData); [|done].
  unfold scan_body. rewrite (Hsame i) by (by rewrite ?Z.sub_diag).
  apply IH. intros j Hj Hmod. apply Hsame; [unfold step in *; lia|].
  replace (j - i) with (j - (i + step) + 1 * step) by lia.
  by rewrite Z_mod_plus_full.
Qed.

(** A stricter duration test lets through a part of what a laxer one
    does. *)
Lemma filter_sublist_impl {A} (P1 P2 : A → Prop)
    `{!∀ x, Decision (P1 x)} `{!∀ x, Decision (P2 x)} (l : list A) :
  (∀ x, P2 x → P1 x) → filter P2 l `sublist_of` filter P1 l.
Proof.
  intros Himpl. induction l as [|x l IH]; [done|].
  rewrite !filter_cons. destruct (decide (P2 x)) as [H2|H2].
  - rewrite decide_True by auto. by apply sublist_skip.
  - destruct (decide (P1 x)); [by apply sublist_cons|done].
Qed.

Lemma passes_weaken (sr : Z) (m1 m2 : Q) (p : Z * Z) :
  (m1 <= m2)%Q → passes sr m2 p = true → passes sr m1 p = true.
Proof.
  unfold passes. intros Hle H2. apply Qle_bool_iff in H2.
  apply Qle_bool_iff. by eapply Qle_trans.
Qed.

(** From [Sounding], the machine ends in [Sounding] with no span closed
    exactly when no visited sample is below the threshold. *)
Lemma run_spans_nothing : ∀ (stream : list (Z * Q)) (st : detector_state),
  run_spans stream st = (Sounding, []) ↔
  st = Sounding ∧ Forall (λ v, Qltb (Qabs v.2) threshold = false) stream.
Proof.
  induction stream as [|[i x] rest IH]; intros st.
  - simpl. split; [by intros [= ->]|by intros [-> _]].
  - cbn [run_spans].
    destruct st as [|s], (Qltb (Qabs x) threshold) eqn:Hx.
    + destruct (run_spans rest (Silent i)) as [st2 out2] eqn:Hrun.
      split.
      * intros [= -> E]. cbn [app] in E. subst out2.
        apply IH in Hrun as [? _]. done.
      * intros [_ Hall]. apply Forall_cons in Hall as [Hloud _].
        cbn [snd] in Hloud. congruence.
    + destruct (run_spans rest Sounding) as [st2 out2] eqn:Hrun.
      split.
      * intros [= -> E]. cbn [app] in E. subst out2.
        apply IH in Hrun as [_ Hall]. split; [done|].
        by constructor.
      * intros [_ Hall]. apply Forall_cons in Hall as [_ Hall].
        assert (Hrun' : run_spans rest Sounding = (Sounding, []))
          by (by apply IH).
        rewrite Hrun in Hrun'. by injection Hrun' as -> ->.
    + destruct (run_spans rest (Silent s)) as [st2 out2] eqn:Hrun.
      split; [|by intros [? _]].
      intros [= -> E]. cbn [app] in E. subst out2.
      apply IH in Hrun as [? _]. done.
    + destruct (run_spans rest Sounding) as [st2 out2] eqn:Hrun.
      split; [|by intros [? _]]. intros [= _ E].
Qed.

Lemma all_spans_nothing (samples : list Q) (length : Z) :
  all_spans samples length = [] ↔
  Forall (λ v, Qltb (Qabs v.2) threshold = false) (visited samples).
Proof.
  unfold all_spans.
  destruct (run_spans (visited samples) Sounding) as [st out] eqn:Hrun.
  split.
  - intros E. apply app_eq_nil in E as [-> Hflush].
    destruct st; [|done]. by apply run_spans_nothing in Hrun as [_ ?].
  - intros Hall.
    assert (Hrun' : run_spans (visited samples) Sounding = (Sounding, []))
      by (by apply run_spans_nothing).
    rewrite Hrun in Hrun'. by injection Hrun' as -> ->.
Qed.

(** ** The payload [bufferToWav] stores *)

Lemma bind_ext_in {A B} (f g : A → list B) (xs : list A) :
  Forall (λ x, f x = g x) xs → xs ≫= f = xs ≫= g.
Proof.
  induction 1 as [|x xs Hx _ IH]; [done|].
  cbn [mbind list_bind]. by rewrite Hx, IH.
Qed.

Lemma read_in_range {A} (a : list A) (i : Z) :
  0 ≤ i < len a → ∃ x, read a i = Some x.
Proof.
  intros Hi. unfold read. destruct (Z.ltb_spec i 0); [lia|].
  destruct (lookup_lt_is_Some_2 a (Z.to_nat i)) as [x Hx];
    [unfold len in Hi; lia|by exists x].
Qed.

(** For a frame the channels hold, the code stores the frame of the
    design. *)
Lemma stored_frame_wav_frame (channels : list (list Q)) (n f : Z) :
  Forall (λ ch, len ch = n) channels → 0 ≤ f < n →
  stored_frame channels f = wav_frame channels f.
Proof.
  intros Hch Hf. unfold stored_frame, wav_frame. apply bind_ext_in.
  eapply Forall_impl; [exact Hch|]. intros ch Hlen. cbn beta in Hlen.
  destruct (read_in_range ch f) as [v ->]; [lia|].
  apply pcm16_encode_sample.
Qed.

(** ** formatTime *)

(** The floor of a quotient by a positive integer. *)
Lemma Qfloor_div (x : Q) (c : Z) :
  0 < c → Qfloor (x / inject_Z c) = Qfloor x / c.
Proof.
  intros Hc. destruct (Qfloor_bounds x) as [Hlo Hhi].
  pose proof (Z.div_mod (Qfloor x) c ltac:(lia)) as Hdiv.
  pose proof (Z.mod_pos_bound (Qfloor x) c Hc) as Hmod.
  set (q := Qfloor x / c) in *. set (r := Qfloor x mod c) in *.
  assert (Hc' : (0 < inject_Z c)%Q) by (by apply inject_Z_pos).
  assert (Hr0 : (inject_Z 0 <= inject_Z r)%Q) by (rewrite <- Zle_Qle; lia).
  change (inject_Z 0) with 0%Q in Hr0.
  assert (Hr1 : (inject_Z r + 1 <= inject_Z c)%Q).
  { change 1%Q with (inject_Z 1). rewrite <- inject_Z_plus, <- Zle_Qle. lia. }
  assert (Hx : (inject_Z (Qfloor x) == inject_Z c * inject_Z q + inject_Z r)%Q)
    by (by rewrite Hdiv, inject_Z_plus, inject_Z_mult).
  apply Qfloor_unique.
  - apply Qle_shift_div_l; [done|].
    apply Qle_trans with (inject_Z (Qfloor x)); [|done].
    rewrite Hx. rewrite (Qmult_comm (inject_Z q)). lra.
  - apply Qlt_shift_div_r; [done|]. rewrite inject_Z_plus.
    change (inject_Z 1) with 1%Q.
    apply Qlt_le_trans with (inject_Z (Qfloor x) + 1)%Q; [done|].
    rewrite Hx. rewrite Qmult_plus_distr_l, (Qmult_comm (inject_Z q)). lra.
Qed.

Lemma Qfloor_minus_Z (x : Q) (k : Z) : Qfloor (x - inject_Z k) = Qfloor x - k.
Proof.
  destruct (Qfloor_bounds x) as [Hlo Hhi]. apply Qfloor_unique.
  - unfold Z.sub. rewrite inject_Z_plus, inject_Z_opp. lra.
  - unfold Z.sub. rewrite !inject_Z_plus, inject_Z_opp.
    change (inject_Z 1) with 1%Q. lra.
Qed.

Lemma Qtruncate_nonneg (x : Q) : (0 <= x)%Q → Qtruncate x = Qfloor x.
Proof.
  intros Hx. unfold Qtruncate.
  destruct (Qltb x 0) eqn:E; [|done].
  apply Qltb_lt in E. by apply Qlt_not_le in E.
Qed.

(** The three numbers [formatTime] prints for a whole number of seconds. *)
Lemma formatTime_fields (n : Z) :
  0 ≤ n < 2 ^ 32 →
  Qfloor (double (inject_Z n / 60)) = n / 60 ∧
  Qfloor (Qrem (inject_Z n) 60) = n mod 60 ∧
  Qfloor (double (Qrem (inject_Z n) 1 * 10)) = 0.
Proof.
  intros Hn.
  assert (H0 : (0 <= inject_Z n)%Q)
    by (change 0%Q with (inject_Z 0); rewrite <- Zle_Qle; lia).
  split_and!.
  - change 60%Q with (inject_Z 60). apply Qfloor_double_div; [done|lia].
  - unfold Qrem. rewrite Qtruncate_nonneg
      by (apply Qle_shift_div_l; [done|lra]).
    change 60%Q with (inject_Z 60). rewrite Qfloor_div by done.
    rewrite Qfloor_Z, <- inject_Z_mult, Qfloor_minus_Z, Qfloor_Z.
    pose proof (Z.div_mod n 60). lia.
  - unfold Qrem. rewrite Qtruncate_nonneg
      by (apply Qle_shift_div_l; [done|lra]).
    change 1%Q with (inject_Z 1) at 1 2. rewrite Qfloor_div by done.
    rewrite Qfloor_Z, Z.div_1_r.
    assert (E : ((inject_Z n - inject_Z 1 * inject_Z n) * 10 == 0)%Q)
      by (change (inject_Z 1) with 1%Q; ring).
    by rewrite (double_zero _ E).
Qed.

Lemma pretty_digit (d : Z) :
  0 ≤ d < 10 → Number_toString d = String (digit_char d) "".
Proof.
  intros Hd.
  assert (Hall : forallb (λ d, String.eqb (Number_toString d)
                                 (String (digit_char d) ""))
                   (seqZ 0 10) = true) by (by vm_compute).
  rewrite forallb_forall in Hall. apply String.eqb_eq, Hall.
  apply list_elem_of_In, elem_of_seqZ. lia.
Qed.

Lemma padStart_two_digits (n : Z) :
  0 ≤ n < 100 →
  padStart (Number_toString n) 2 "0" =
  String (digit_char (n / 10)) (String (digit_char (n mod 10)) "").
Proof.
  intros Hn.
  assert (Hall : forallb (λ n, String.eqb
                   (padStart (Number_toString n) 2 "0")
                   (String (digit_char (n / 10))
                      (String (digit_char (n mod 10)) "")))
                   (seqZ 0 100) = true) by (by vm_compute).
  rewrite forallb_forall in Hall. apply String.eqb_eq, Hall.
  apply list_elem_of_In, elem_of_seqZ. lia.
Qed.

(** Tenths are cut, not rounded, and of the double that was passed: 2.3 is
    printed as 2.2, while 0.3 keeps its 3. *)
Example formatTime_samples :
  formatTime (Finite (double 2.3)) = "0:02.2" ∧
  formatTime (Finite (double 0.3)) = "0:00.3" ∧
  formatTime (Finite (double 125.37)) = "2:05.3" ∧
  formatTime NaN = "0:00.0".
Proof. by vm_compute. Qed.

(** ** The order of the regions *)

(** Two lists in ascending order of start that hold the same regions are
    the same list, when regions that start together are equal. *)
Lemma sorted_by_start_unique : ∀ (l1 l2 : list Region),
  (∀ a b, a ∈ l1 → b ∈ l1 → (start a == start b)%Q → a = b) →
  StronglySorted (λ a b, (start a <= start b)%Q) l1 →
  StronglySorted (λ a b, (start a <= start b)%Q) l2 →
  l1 ≡ₚ l2 → l1 = l2.
Proof.
  induction l1 as [|x l1 IH]; intros l2 Hdistinct Hs1 Hs2 Hperm.
  - by apply Permutation_nil_l in Hperm.
  - destruct l2 as [|y l2]; [by apply Permutation_nil_r in Hperm|].
    apply StronglySorted_inv in Hs1 as [Hs1 Hx].
    apply StronglySorted_inv in Hs2 as [Hs2 Hy].
    assert (Hxy : x = y).
    { assert (Hx2 : x ∈ y :: l2) by (rewrite <- Hperm; left).
      assert (Hy1 : y ∈ x :: l1) by (rewrite Hperm; left).
      apply elem_of_cons in Hx2 as [Hx2|Hx2]; [done|].
      apply elem_of_cons in Hy1 as [Hy1|Hy1]; [done|].
      eapply Forall_forall in Hx; [|exact Hy1].
      eapply Forall_forall in Hy; [|exact Hx2].
      apply Hdistinct; [left|by right|by apply Qle_antisym]. }
    subst y. f_equal. apply IH; [|done..|by apply (inj (cons x))].
    intros a b Ha Hb. apply Hdistinct; by right.
Qed.

Lemma sort_by_start_Permutation (regions regions' : list Region) :
  (∀ a b, a ∈ regions → b ∈ regions → (start a == start b)%Q → a = b) →
  regions ≡ₚ regions' →
  sort_by_start regions = sort_by_start regions'.
Proof.
  intros Hdistinct Hperm. apply sorted_by_start_unique.
  - intros a b Ha Hb. unfold sort_by_start in Ha, Hb.
    rewrite array_sort_Permutation in Ha, Hb. by apply Hdistinct.
  - apply sort_by_start_sorted.
  - apply sort_by_start_sorted.
  - unfold sort_by_start. by rewrite !array_sort_Permutation.
Qed.

(** ** generateUUID *)

(** [Math.random() * 16 | 0] is one of 0, ..., 15. *)
Lemma random_nibble (rnd : Q) :
  (0 <= rnd)%Q → (rnd < 1)%Q → 0 ≤ to_int32 (rnd * 16) < 16.
Proof.
  intros H0 H1. unfold to_int32.
  rewrite Qtruncate_nonneg by lra.
  destruct (Qfloor_bounds (rnd * 16)) as [Hlo Hhi].
  assert (0 ≤ Qfloor (rnd * 16)).
  { change 0 with (Qfloor 0). apply Qfloor_resp_le. lra. }
  assert (Qfloor (rnd * 16) < 16).
  { rewrite Zlt_Qlt. eapply Qle_lt_trans; [exact Hlo|].
    change (inject_Z 16) with 16%Q. lra. }
  rewrite Z.mod_small by lia. lia.
Qed.

Lemma uuid_digit_x (rnd : Q) :
  (0 <= rnd)%Q → (rnd < 1)%Q →
  ∃ c, uuid_digit "x" rnd = String c "" ∧ is_hex c = true.
Proof.
  intros H0 H1. pose proof (random_nibble rnd H0 H1) as Hr.
  unfold uuid_digit. cbn [Ascii.eqb Bool.eqb]. set (r := to_int32 _) in *.
  assert (Hall : forallb (λ r, match Number_toString16 r with
                               | String c "" => is_hex c
                               | _ => false
                               end) (seqZ 0 16) = true) by (by vm_compute).
  rewrite forallb_forall in Hall. specialize (Hall r).
  destruct (Number_toString16 r) as [|c [|]];
    try (discriminate Hall; apply list_elem_of_In, elem_of_seqZ; lia).
  exists c. split; [done|]. apply Hall, list_elem_of_In, elem_of_seqZ. lia.
Qed.

Lemma uuid_digit_y (rnd : Q) :
  (0 <= rnd)%Q → (rnd < 1)%Q →
  ∃ c, uuid_digit "y" rnd = String c "" ∧ is_variant c = true.
Proof.
  intros H0 H1. pose proof (random_nibble rnd H0 H1) as Hr.
  unfold uuid_digit. cbn [Ascii.eqb Bool.eqb]. set (r := to_int32 _) in *.
  assert (Hall : forallb (λ r,
                   match Number_toString16 (Z.lor (Z.land r 3) 8) with
                   | String c "" => is_variant c
                   | _ => false
                   end) (seqZ 0 16) = true) by (by vm_compute).
  rewrite forallb_forall in Hall. specialize (Hall r).
  destruct (Number_toString16 _) as [|c [|]];
    try (discriminate Hall; apply list_elem_of_In, elem_of_seqZ; lia).
  exists c. split; [done|]. apply Hall, list_elem_of_In, elem_of_seqZ. lia.
Qed.

Lemma replace_xy_follows (random : nat → Q) :
  (∀ n, (0 <= random n)%Q ∧ (random n < 1)%Q) →
  ∀ (template : string) (n : nat),
  follows template (replace_xy template random n) = true.
Proof.
  intros Hrandom. induction template as [|t template IH]; intros n; [done|].
  destruct (Hrandom n) as [H0 H1]. cbn [replace_xy].
  destruct (Ascii.eqb t "x") eqn:Hx.
  - apply Ascii.eqb_eq in Hx as ->. cbn [orb].
    destruct (uuid_digit_x (random n) H0 H1) as (c & -> & Hc).
    change (String c "" +:+ ?s) with (String c s).
    cbn [follows Ascii.eqb Bool.eqb]. by rewrite Hc, IH.
  - destruct (Ascii.eqb t "y") eqn:Hy; cbn [orb].
    + apply Ascii.eqb_eq in Hy as ->.
      destruct (uuid_digit_y (random n) H0 H1) as (c & -> & Hc).
      change (String c "" +:+ ?s) with (String c s).
      cbn [follows Ascii.eqb Bool.eqb]. by rewrite Hc, IH.
    + cbn [follows]. by rewrite Hx, Hy, Ascii.eqb_refl, IH.
Qed.

Lemma follows_length : ∀ (template s : string),
  follows template s = true → String.length s = String.length template.
Proof.
  induction template as [|t template IH]; intros [|c s] H; try done.
  cbn [follows] in H. apply andb_true_iff in H as [_ H].
  cbn [String.length]. by rewrite (IH s).
Qed.

(** ** Further properties of [bufferToWav] *)

Lemma bufferToWav_size_and_header_witness :
  ∃ bytes,
    bufferToWav five_frames 5 = Ok bytes ∧
    len bytes = 44 + 5 * numberOfChannels five_frames * 2 ∧
    take 44 bytes =
      wav_header (numberOfChannels five_frames) (sampleRate five_frames) 5 ∧
    take 44 bytes = take 44 (encodeWav five_frames 5).
Proof. apply (bufferToWav_size_and_header five_frames 5). lia. Defined.

(** X2. The payload of an exported buffer.  [bufferToWav], called as
    [processAudio] calls it (with the buffer's own length), returns the
    header followed by the frames from index 44 on, each encoded as the
    design says, followed by zero bytes in the place of 44 frames (of all
    frames when the buffer has fewer): frames 0 to 43 are not in the
    file. *)
Theorem bufferToWav_payload_from_frame_44 (b : AudioBuffer) :
  SampleBuffer_inv b → 0 ≤ bufLength b →
  bufferToWav b (bufLength b) =
  Ok (wav_header (numberOfChannels b) (sampleRate b) (bufLength b) ++
      (seqZ 44 (bufLength b - 44) ≫= wav_frame (channelData b)) ++
      replicate (Z.to_nat (2 * numberOfChannels b * Z.min 44 (bufLength b))) 0).
Proof.
  intros [Hch _] Hn. rewrite bufferToWav_stored by done.
  unfold stored_wav. do 3 f_equal. apply bind_ext_in.
  apply Forall_seqZ. intros f Hf.
  apply (stored_frame_wav_frame _ (bufLength b)); [done|lia].
Qed.

Lemma bufferToWav_payload_from_frame_44_witness :
  bufferToWav five_frames (bufLength five_frames) =
  Ok (wav_header (numberOfChannels five_frames) (sampleRate five_frames)
        (bufLength five_frames) ++
      (seqZ 44 (bufLength five_frames - 44) ≫=
         wav_frame (channelData five_frames)) ++
      replicate
        (Z.to_nat (2 * numberOfChannels five_frames *
                   Z.min 44 (bufLength five_frames))) 0).
Proof.
  apply (bufferToWav_payload_from_frame_44 five_frames).
  - split; [repeat constructor|reflexivity].
  - vm_compute. discriminate.
Defined.

(** X3. A buffer of at most 44 frames is exported as silence: the file is the
    header followed by zero bytes, whatever the samples are. *)
Theorem bufferToWav_short_buffer_silent (b : AudioBuffer) (n : Z) :
  0 ≤ n ≤ 44 →
  bufferToWav b n =
  Ok (wav_header (numberOfChannels b) (sampleRate b) n ++
      replicate (Z.to_nat (2 * numberOfChannels b * n)) 0).
Proof.
  intros Hn. rewrite bufferToWav_stored by lia. unfold stored_wav.
  rewrite seqZ_nil by lia. cbn [mbind list_bind app].
  by rewrite Z.min_r by lia.
Qed.

Lemma bufferToWav_short_buffer_silent_witness :
  bufferToWav five_frames 5 =
  Ok (wav_header (numberOfChannels five_frames) (sampleRate five_frames) 5 ++
      replicate (Z.to_nat (2 * numberOfChannels five_frames * 5)) 0).
Proof. apply (bufferToWav_short_buffer_silent five_frames 5). lia. Defined.

(** ** The waveform view *)

Lemma minmax_inv_step (seen : list Q) (mm : Q * Q) (datum : Q) :
  minmax_inv seen mm →
  minmax_inv (seen ++ [datum])
    (if Qltb datum mm.1 then datum else mm.1,
     if Qltb mm.2 datum then datum else mm.2).
Proof.
  intros (Hall & Hmin & Hmax & Hmn & Hmx). cbn [fst snd].
  assert (Hlt1 : Qltb datum mm.1 = true → (datum < mm.1)%Q)
    by apply Qltb_lt.
  assert (Hge1 : Qltb datum mm.1 = false → (mm.1 <= datum)%Q).
  { intros E. apply Qnot_lt_le. intros H. apply Qltb_lt in H. congruence. }
  assert (Hlt2 : Qltb mm.2 datum = true → (mm.2 < datum)%Q)
    by apply Qltb_lt.
  assert (Hge2 : Qltb mm.2 datum = false → (datum <= mm.2)%Q).
  { intros E. apply Qnot_lt_le. intros H. apply Qltb_lt in H. congruence. }
  unfold minmax_inv. cbn [fst snd].
  destruct (Qltb datum mm.1) eqn:E1, (Qltb mm.2 datum) eqn:E2;
    try specialize (Hlt1 eq_refl); try specialize (Hge1 eq_refl);
    try specialize (Hlt2 eq_refl); try specialize (Hge2 eq_refl);
    (split_and!;
     [ apply Forall_app; split;
       [ eapply Forall_impl; [exact Hall|]; intros x [? ?]; cbn beta in *;
         split; lra
       | apply Forall_singleton; split; lra ]
     | lra
     | lra
     | first [ right; apply elem_of_app; right; by left
             | destruct Hmn as [?|?]; [by left|];
               right; apply elem_of_app; by left ]
     | first [ right; apply elem_of_app; right; by left
             | destruct Hmx as [?|?]; [by left|];
               right; apply elem_of_app; by left ] ]).
Qed.

Lemma window_loop_inv (rawData : list Q) (i step : Z) :
  ∀ (js : list Z) (seen : list Q) (mm : Q * Q),
  minmax_inv seen mm →
  minmax_inv (seen ++ omap (λ j, read rawData (i * step + j)) js)
    (foldl (window_body rawData i step) mm js).
Proof.
  induction js as [|j js IH]; intros seen mm Hinv.
  - simpl. by rewrite app_nil_r.
  - cbn [foldl omap list_omap]. unfold window_body at 2.
    destruct (read rawData (i * step + j)) as [datum|].
    + rewrite (cons_middle datum), app_assoc. apply IH.
      by apply minmax_inv_step.
    + by apply IH.
Qed.

Lemma Qabs_between (lo hi x : Q) :
  (lo <= x)%Q → (x <= hi)%Q → (Qabs x <= Qmax (Qabs lo) (Qabs hi))%Q.
Proof.
  intros Hlo Hhi.
  pose proof (Q.le_max_l (Qabs lo) (Qabs hi)).
  pose proof (Q.le_max_r (Qabs lo) (Qabs hi)).
  pose proof (Qle_Qabs hi). pose proof (Qle_Qabs (- lo)).
  rewrite Qabs_opp in *.
  apply Qabs_case; intros; lra.
Qed.

Lemma block_inside (d s e : Q) (w : Z) :
  (0 < d)%Q → 0 ≤ w → (0 <= s)%Q → (s <= e)%Q → (e <= d)%Q →
  (0 <= s / d * inject_Z w)%Q ∧
  (s / d * inject_Z w <= e / d * inject_Z w)%Q ∧
  (e / d * inject_Z w <= inject_Z w)%Q.
Proof.
  intros Hd Hw Hs Hse Hed.
  assert (Hw' : (0 <= inject_Z w)%Q).
  { change 0%Q with (inject_Z 0). by rewrite <- Zle_Qle. }
  assert (H0 : (0 <= s / d)%Q) by (apply Qle_shift_div_l; [done|lra]).
  assert (H1 : (s / d <= e / d)%Q).
  { apply Qle_shift_div_l; [done|].
    assert (E : (s / d * d == s)%Q) by (field; lra). by rewrite E. }
  assert (H2 : (e / d <= 1)%Q) by (apply Qle_shift_div_r; [done|lra]).
  set (a := (s / d)%Q) in *. set (c := (e / d)%Q) in *.
  set (x := inject_Z w) in *. split_and!; nra.
Qed.

(** ** Further properties of the gap-remover *)

(** X4. [createProcessedBuffer] on any buffer and any regions whose keep
    intervals hold fewer than [2 ^ 32] samples, the lengths the platform
    allocates.  It raises NotSupportedError when the buffer has no channel
    or the keep intervals hold no sample, and nothing else: no copy ever
    falls outside the new channel.  Otherwise the new buffer has the sample
    rate of the old one and the total span of the keep intervals as length,
    and every channel holds, interval by interval, the samples [subarray]
    finds in the old channel, followed by zeros up to the interval's span.
    [processAudio] builds the same buffer.  The keep intervals are those of
    the cursor walk over the floors of the rounded products. *)
Theorem createProcessedBuffer_outcome (b : AudioBuffer) (regions : list Region)
    (context : AudioContext) :
  let keeps := keep_intervals b regions in
  total_span keeps < 2 ^ 32 →
  let outcome :=
    if (1 <=? numberOfChannels b) && (1 <=? total_span keeps)
    then Ok (mkAudioBuffer (sampleRate b) (total_span keeps)
               (pasted_channel keeps <$> channelData b))
    else Throw NotSupportedError in
  createProcessedBuffer b regions context = outcome ∧
  processAudio_newBuffer b regions = (nb ← outcome; Ok (nb, bufLength nb)).
Proof.
  intros keeps _ outcome.
  rewrite (processAudio_newBuffer_createProcessedBuffer b regions context).
  by rewrite createProcessedBuffer_pasted.
Qed.

Lemma createProcessedBuffer_outcome_witness :
  createProcessedBuffer two_frames [mkRegion 0.001 0.002] audio_context =
    Ok (mkAudioBuffer 8000 8 [[0.5; 0.25; 0; 0; 0; 0; 0; 0]%Q]) ∧
  processAudio_newBuffer two_frames [mkRegion 0.001 0.002] =
    Ok (mkAudioBuffer 8000 8 [[0.5; 0.25; 0; 0; 0; 0; 0; 0]%Q], 8).
Proof.
  pose proof (createProcessedBuffer_outcome two_frames
                [mkRegion 0.001 0.002] audio_context) as H.
  cbv zeta in H.
  assert (Hlen : total_span (keep_intervals two_frames [mkRegion 0.001 0.002])
                 < 2 ^ 32) by (vm_compute; reflexivity).
  specialize (H Hlen). vm_compute in H. vm_compute. exact H.
Defined.

(** X6. The order in which the regions are passed does not matter, as long as
    regions that start at the same time are the same region. *)
Theorem createProcessedBuffer_order_irrelevant (b : AudioBuffer)
    (regions regions' : list Region) (context : AudioContext) :
  (∀ r1 r2, r1 ∈ regions → r2 ∈ regions → (start r1 == start r2)%Q → r1 = r2) →
  regions ≡ₚ regions' →
  createProcessedBuffer b regions context =
    createProcessedBuffer b regions' context ∧
  processAudio b regions = processAudio b regions'.
Proof.
  intros Hdistinct Hperm.
  assert (Hsame : createProcessedBuffer b regions context =
                  createProcessedBuffer b regions' context).
  { rewrite !createProcessedBuffer_pasted. unfold keep_intervals.
    by rewrite (sort_by_start_Permutation regions regions'). }
  split; [done|]. unfold processAudio.
  by rewrite !(processAudio_newBuffer_createProcessedBuffer _ _ context), Hsame.
Qed.

Lemma createProcessedBuffer_order_irrelevant_witness :
  createProcessedBuffer five_frames
    [mkRegion (4 # 8000) (9 # 8000); mkRegion (1 # 8000) (3 # 8000)]
    audio_context =
  createProcessedBuffer five_frames
    [mkRegion (1 # 8000) (3 # 8000); mkRegion (4 # 8000) (9 # 8000)]
    audio_context ∧
  processAudio five_frames
    [mkRegion (4 # 8000) (9 # 8000); mkRegion (1 # 8000) (3 # 8000)] =
  processAudio five_frames
    [mkRegion (1 # 8000) (3 # 8000); mkRegion (4 # 8000) (9 # 8000)].
Proof.
  apply (createProcessedBuffer_order_irrelevant five_frames).
  - intros r1 r2 H1 H2 Heq.
    apply elem_of_cons in H1 as [->|H1];
      [|apply list_elem_of_singleton in H1 as ->];
      (apply elem_of_cons in H2 as [->|H2];
       [|apply list_elem_of_singleton in H2 as ->]);
      first [reflexivity | vm_compute in Heq; discriminate Heq].
  - apply Permutation_swap.
Defined.

(** X5. The export on any buffer and any regions whose keep intervals hold
    fewer than [2 ^ 32] samples.  [processAudio] raises NotSupportedError
    when [createProcessedBuffer] does, and nothing else; otherwise it
    returns the file of the processed buffer: the header, the frames of the
    processed buffer from index 44 on, and zero bytes in the place of the
    last 44 frames. *)
Theorem processAudio_outcome (b : AudioBuffer) (regions : list Region) :
  let keeps := keep_intervals b regions in
  total_span keeps < 2 ^ 32 →
  processAudio b regions =
  if (1 <=? numberOfChannels b) && (1 <=? total_span keeps)
  then Ok (stored_wav
             (mkAudioBuffer (sampleRate b) (total_span keeps)
                (pasted_channel keeps <$> channelData b))
             (total_span keeps))
  else Throw NotSupportedError.
Proof.
  intros keeps _. unfold processAudio.
  rewrite (processAudio_newBuffer_createProcessedBuffer b regions audio_context).
  rewrite createProcessedBuffer_pasted. fold keeps.
  destruct (1 <=? numberOfChannels b); [|done].
  destruct (Z.leb_spec 1 (total_span keeps)); [|done].
  cbn [andb mbind result_bind bufLength]. apply bufferToWav_stored. lia.
Qed.

Lemma processAudio_outcome_witness :
  processAudio five_frames [mkRegion (1 # 8000) (3 # 8000)] =
  Ok (stored_wav
        (mkAudioBuffer 8000 3
           [[0.1; 0.4; 0.5]%Q; [-0.1; -0.4; -0.5]%Q])
        3).
Proof.
  pose proof (processAudio_outcome five_frames
                [mkRegion (1 # 8000) (3 # 8000)]) as H.
  cbv zeta in H.
  assert (Hlen : total_span (keep_intervals five_frames
                               [mkRegion (1 # 8000) (3 # 8000)]) < 2 ^ 32)
    by (vm_compute; reflexivity).
  specialize (H Hlen). vm_compute in H. vm_compute. exact H.
Defined.

(** ** Detection followed by removal: the cuts *)

Lemma stored_regions_cut (b : AudioBuffer) (spans : list (Z * Z))
    (context : AudioContext) :
  SampleBuffer_inv b → 1 ≤ numberOfChannels b →
  bufLength b < 2 ^ 32 → sampleRate b < 2 ^ 32 →
  StronglySorted (λ p q, p.2 < q.1) spans →
  Forall (λ p, 0 ≤ p.1 ∧ p.1 < p.2 ∧ p.2 ≤ bufLength b) spans →
  let regions := stored_region (sampleRate b) <$> spans in
  let cuts := sample_span (sampleRate b) <$> regions in
  Forall2
    (λ p c, (c.1 = p.1 ∨ c.1 = p.1 - 1) ∧ (c.2 = p.2 ∨ c.2 = p.2 - 1) ∧
            0 ≤ c.1 ∧ c.1 ≤ c.2)
    spans cuts ∧
  createProcessedBuffer b regions context =
    if 1 <=? bufLength b - total_span cuts
    then Ok (mkAudioBuffer (sampleRate b) (bufLength b - total_span cuts)
               (uncovered_from cuts 0 <$> channelData b))
    else Throw NotSupportedError.
Proof.
  intros [Hchannels Hsr] Hch Hlen Hrate Hs Hb regions cuts.
  assert (Hsr32 : 0 < sampleRate b < 2 ^ 32) by lia.
  pose proof (stored_cuts_within (sampleRate b) (bufLength b) spans
                Hsr32 Hlen Hs Hb) as Hin.
  fold regions in Hin. fold cuts in Hin.
  assert (Hlength : 0 ≤ bufLength b).
  { unfold numberOfChannels, len in Hch.
    destruct (channelData b) as [|old others]; [simpl in Hch; lia|].
    apply Forall_cons in Hchannels as [<- _]. apply len_nonneg. }
  split.
  - unfold cuts, regions. rewrite <- list_fmap_compose.
    apply Forall2_fmap_r, Forall_Forall2_diag.
    eapply Forall_impl; [exact Hb|]. intros p (Hp0 & Hp & HpL).
    unfold compose. cbn [sample_span stored_region start end_ fst snd].
    destruct (round_trip_index (sampleRate b) p.1 Hsr32 ltac:(lia))
      as [H1 H1'].
    destruct (round_trip_index (sampleRate b) p.2 Hsr32 ltac:(lia))
      as [H2 _].
    split_and!; [done..|]. apply round_trip_monotone; lia.
  - rewrite createProcessedBuffer_pasted. unfold keep_intervals, regions.
    rewrite stored_region_sorted; [|done|done|].
    2:{ eapply Forall_impl; [exact Hb|]. intros p Hp. cbn beta in Hp. lia. }
    fold regions. rewrite walk_between. fold cuts.
    rewrite total_span_between by done. rewrite Z.sub_0_r.
    destruct (Z.leb_spec 1 (numberOfChannels b)); [|lia]. cbn [andb].
    destruct (1 <=? bufLength b - total_span cuts); [|done].
    do 2 f_equal. apply Forall_fmap_ext.
    eapply Forall_impl; [exact Hchannels|]. intros old Hold. cbn beta in Hold.
    rewrite <- Hold in *.
    rewrite pasted_channel_kept by (by apply between_in_range).
    by rewrite kept_between by (done || apply len_nonneg).
Qed.

(** X8. Detection, then removal.  Take a buffer with fewer than [2 ^ 32]
    frames at a rate below [2 ^ 32] and any selection [spans] of the silent
    spans the detector closes on channel 0 (whatever its duration test lets
    through).  For the regions the detector stores for them,
    [createProcessedBuffer] cuts for each span [s, e) the samples
    [s', e'), where [s'] is [s] or [s - 1] and [e'] is [e] or [e - 1]: the
    way through seconds and back may lose one frame at either end.  Every
    channel of the result holds, in order, the samples outside the cuts,
    and the new length is the old one less the samples cut; when nothing is
    left, NotSupportedError is raised. *)
Theorem detected_regions_cut (b : AudioBuffer) (rawData : list Q)
    (spans : list (Z * Z)) (context : AudioContext) :
  SampleBuffer_inv b → channelData b !! 0%nat = Some rawData →
  bufLength b < 2 ^ 32 → sampleRate b < 2 ^ 32 →
  sublist spans (all_spans rawData (bufLength b)) →
  let regions := stored_region (sampleRate b) <$> spans in
  let cuts := sample_span (sampleRate b) <$> regions in
  Forall2
    (λ p c, (c.1 = p.1 ∨ c.1 = p.1 - 1) ∧ (c.2 = p.2 ∨ c.2 = p.2 - 1) ∧
            0 ≤ c.1 ∧ c.1 ≤ c.2)
    spans cuts ∧
  createProcessedBuffer b regions context =
    if 1 <=? bufLength b - total_span cuts
    then Ok (mkAudioBuffer (sampleRate b) (bufLength b - total_span cuts)
               (uncovered_from cuts 0 <$> channelData b))
    else Throw NotSupportedError.
Proof.
  intros Hinv Hraw Hlen Hrate Hsub.
  assert (Hch : 1 ≤ numberOfChannels b).
  { unfold numberOfChannels, len.
    destruct (channelData b); [done|]. simpl. lia. }
  assert (Hraw_len : len rawData = bufLength b).
  { destruct Hinv as [Hall _].
    by eapply Forall_forall in Hall; [|eapply list_elem_of_lookup_2]. }
  rewrite <- Hraw_len in Hsub.
  apply stored_regions_cut; try done.
  - eapply StronglySorted_sublist; [exact Hsub|apply all_spans_sorted].
  - apply Forall_forall. intros p Hp.
    pose proof (all_spans_bounds rawData) as Hb.
    eapply Forall_forall in Hb as (_ & ? & ? & ?);
      [|by eapply elem_of_sublist]. lia.
Qed.

Lemma detected_regions_cut_witness :
  Forall2
    (λ p c, (c.1 = p.1 ∨ c.1 = p.1 - 1) ∧ (c.2 = p.2 ∨ c.2 = p.2 - 1) ∧
            0 ≤ c.1 ∧ c.1 ≤ c.2)
    [(0, 15)] [(0, 14)] ∧
  createProcessedBuffer fifteen_silent (stored_region 44100 <$> [(0, 15)])
    audio_context =
  Ok (mkAudioBuffer 44100 1 [[0%Q]]).
Proof.
  pose proof (detected_regions_cut fifteen_silent (replicate 15 0%Q)
                [(0, 15)] audio_context) as H.
  assert (Hinv : SampleBuffer_inv fifteen_silent)
    by (split; [repeat constructor|reflexivity]).
  assert (Hsub : sublist [(0, 15)]
                   (all_spans (replicate 15 0%Q) (bufLength fifteen_silent)))
    by (vm_compute; reflexivity).
  specialize (H Hinv eq_refl eq_refl eq_refl Hsub).
  vm_compute in H. vm_compute. exact H.
Defined.

(** ** Further properties of [analyzeSilence] *)

(** X10. The detector reads channel 0 only, and of it only whether the samples
    at the multiples of the stride are below the threshold: two buffers of
    the same sample rate whose first channels have the same length and
    agree in that give the same regions. *)
Theorem analyzeSilence_reads_only_visited (b b' : AudioBuffer)
    (minDuration : Q) (rawData rawData' : list Q) :
  channelData b !! 0%nat = Some rawData →
  channelData b' !! 0%nat = Some rawData' →
  sampleRate b = sampleRate b' →
  len rawData = len rawData' →
  (∀ i, i mod step = 0 →
        below_threshold (read rawData i) = below_threshold (read rawData' i)) →
  analyzeSilence b minDuration = analyzeSilence b' minDuration.
Proof.
  intros H0 H0' Hsr Hlen Hsame. unfold analyzeSilence, getChannelData.
  change (read (channelData b) 0) with (channelData b !! 0%nat).
  change (read (channelData b') 0) with (channelData b' !! 0%nat).
  rewrite H0, H0'. cbn [mbind result_bind].
  rewrite <- Hsr, <- Hlen.
  assert (Hlength : length rawData = length rawData')
    by (unfold len in Hlen; lia).
  rewrite <- Hlength.
  rewrite (scan_loop_ext rawData rawData'); [done..|].
  intros j _ Hmod. apply Hsame. by rewrite Z.sub_0_r in Hmod.
Qed.

Lemma analyzeSilence_reads_only_visited_witness :
  analyzeSilence (mkAudioBuffer 8000 3 [[0; 0.5; 0.5]%Q]) 0 =
  analyzeSilence (mkAudioBuffer 8000 3 [[0.01; 0; 0.9]%Q; [1; 1; 1]%Q]) 0.
Proof.
  apply (analyzeSilence_reads_only_visited
           (mkAudioBuffer 8000 3 [[0; 0.5; 0.5]%Q])
           (mkAudioBuffer 8000 3 [[0.01; 0; 0.9]%Q; [1; 1; 1]%Q]) 0
           [0; 0.5; 0.5]%Q [0.01; 0; 0.9]%Q);
    [reflexivity..|].
  intros i Hi. unfold read, step in *.
  destruct (Z.ltb_spec i 0); [reflexivity|].
  destruct (Z.eq_dec i 0) as [->|Hne]; [reflexivity|].
  pose proof (Z.div_mod i 200).
  rewrite !lookup_ge_None_2; [reflexivity|simpl; lia..].
Defined.

(** X11. Raising the minimum duration only takes regions away: the regions for
    the larger value are, in order, among those for the smaller one. *)
Theorem analyzeSilence_minDuration_monotone (b : AudioBuffer) (m1 m2 : Q) :
  SampleBuffer_inv b → 1 ≤ numberOfChannels b → (m1 <= m2)%Q →
  ∃ regions1 regions2,
    analyzeSilence b m1 = Ok regions1 ∧
    analyzeSilence b m2 = Ok regions2 ∧
    regions2 `sublist_of` regions1.
Proof.
  intros Hinv Hch Hle.
  destruct (analyzeSilence_spans b m1 Hinv Hch) as (rawData & H0 & _ & ->).
  destruct (analyzeSilence_spans b m2 Hinv Hch) as (rawData' & H0' & _ & ->).
  assert (rawData' = rawData) as -> by congruence.
  do 2 eexists. split_and!; [done..|].
  apply fmap_sublist, filter_sublist_impl. intros p. by apply passes_weaken.
Qed.

Lemma analyzeSilence_minDuration_monotone_witness :
  ∃ regions1 regions2,
    analyzeSilence pause_then_tone 0.01 = Ok regions1 ∧
    analyzeSilence pause_then_tone 0.5 = Ok regions2 ∧
    regions2 `sublist_of` regions1.
Proof.
  apply (analyzeSilence_minDuration_monotone pause_then_tone 0.01 0.5).
  - split; [repeat constructor|reflexivity].
  - vm_compute. discriminate.
  - vm_compute. discriminate.
Defined.

(** X12. With a minimum duration of 0 or less, the detector returns no region
    exactly when none of the samples it visits is below the threshold. *)
Theorem analyzeSilence_no_region_iff (b : AudioBuffer) (minDuration : Q)
    (rawData : list Q) :
  SampleBuffer_inv b → channelData b !! 0%nat = Some rawData →
  (minDuration <= 0)%Q →
  analyzeSilence b minDuration = Ok [] ↔
  Forall (λ v, Qltb (Qabs v.2) threshold = false) (visited rawData).
Proof.
  intros Hinv H0 Hm.
  assert (Hch : 1 ≤ numberOfChannels b).
  { unfold numberOfChannels, len.
    apply lookup_lt_Some in H0. lia. }
  destruct (analyzeSilence_spans b minDuration Hinv Hch)
    as (rawData' & H0' & Hlen & ->).
  assert (rawData' = rawData) as -> by congruence.
  destruct Hinv as [_ Hsr].
  rewrite <- (all_spans_nothing rawData (len rawData)).
  assert (Hall : filter (λ p, passes (sampleRate b) minDuration p = true)
                   (all_spans rawData (len rawData)) =
                 all_spans rawData (len rawData)).
  { pose proof (all_spans_bounds rawData) as Hb.
    induction Hb as [|p spans (_ & _ & Hp & _) _ IH]; [done|].
    rewrite filter_cons, decide_True by (by apply passes_nonpositive).
    by rewrite IH. }
  rewrite Hall. split.
  - intros [= E]. by apply fmap_nil_inv in E.
  - by intros ->.
Qed.

Lemma analyzeSilence_no_region_iff_witness :
  analyzeSilence one_frame 0 = Ok [] ↔
  Forall (λ v, Qltb (Qabs v.2) threshold = false) (visited [1%Q]).
Proof.
  apply (analyzeSilence_no_region_iff one_frame 0 [1%Q]).
  - split; [repeat constructor|reflexivity].
  - reflexivity.
  - vm_compute. discriminate.
Defined.

(** ** [formatTime] and [generateUUID] *)

(** X13. For a whole number of seconds below [2 ^ 32], [formatTime] prints
    the minutes, a colon, exactly two digits of seconds, a point and the
    digit 0: the rounding of the quotient by 60 never reaches the next
    minute. *)
Theorem formatTime_whole_seconds (n : Z) :
  0 ≤ n < 2 ^ 32 →
  let secs := n mod 60 in
  formatTime (Finite (inject_Z n)) =
  Number_toString (n / 60) +:+ ":" +:+
  String (digit_char (secs / 10)) (String (digit_char (secs mod 10)) "") +:+
  ".0".
Proof.
  intros Hn secs. unfold formatTime.
  destruct (formatTime_fields n Hn) as (-> & -> & ->). fold secs.
  pose proof (Z.mod_pos_bound n 60 eq_refl).
  by rewrite padStart_two_digits by (unfold secs; lia).
Qed.

Lemma formatTime_whole_seconds_witness :
  formatTime (Finite (inject_Z 125)) = "2:05.0".
Proof.
  apply (formatTime_whole_seconds 125). vm_compute. split; [discriminate|reflexivity].
Defined.

(** X14. Without [crypto.randomUUID], and with [Math.random] returning values in
    [0, 1), [generateUUID] returns the template with one hexadecimal digit
    in lower case for every x and one of 8, 9, a, b for the y: 36
    characters, the hyphens and the version digit 4 in their places. *)
Theorem generateUUID_follows_template (random : nat → Q) :
  (∀ n, (0 <= random n)%Q ∧ (random n < 1)%Q) →
  follows uuid_template (generateUUID None random) = true ∧
  String.length (generateUUID None random) = 36%nat.
Proof.
  intros Hrandom.
  pose proof (replace_xy_follows random Hrandom uuid_template 0) as Hfollows.
  split; [done|]. by apply follows_length in Hfollows.
Qed.

Lemma generateUUID_follows_template_witness :
  follows uuid_template (generateUUID None (λ _, 0.7%Q)) = true ∧
  String.length (generateUUID None (λ _, 0.7%Q)) = 36%nat.
Proof.
  apply (generateUUID_follows_template (λ _, 0.7%Q)).
  intros _. split; vm_compute; [discriminate|reflexivity].
Defined.

(** ** The waveform view *)

(** X15. The bar of the waveform at [i] shows the peak of its window: [val] is
    the largest absolute value among the samples the window holds.  A
    window that lies past the end of the channel holds none, and then
    [val] is 1, the full scale. *)
Theorem bar_val_peak (rawData : list Q) (i step : Z) :
  match window rawData i step with
  | [] => bar_val rawData i step = 1%Q
  | w =>
      Forall (λ x, (Qabs x <= bar_val rawData i step)%Q) w ∧
      Exists (λ x, (Qabs x == bar_val rawData i step)%Q) w
  end.
Proof.
  assert (Hinit : minmax_inv [] (1, -1)%Q).
  { split_and!; [constructor|done|done|by left|by left]. }
  pose proof (window_loop_inv rawData i step (seqZ 0 step) [] _ Hinit)
    as (Hall & _ & _ & Hmn & Hmx).
  cbn [app] in *. fold (window rawData i step) in *. unfold bar_val.
  set (mm := foldl _ _ _) in *. cbv zeta.
  destruct (window rawData i step) as [|x0 w] eqn:Hw.
  - destruct Hmn as [->|Hmn]; [|by apply elem_of_nil in Hmn].
    destruct Hmx as [->|Hmx]; [|by apply elem_of_nil in Hmx]. done.
  - set (seen := x0 :: w) in *. split.
    + eapply Forall_impl; [exact Hall|]. intros x [? ?].
      by apply Qabs_between.
    + apply Exists_exists.
      assert (Hin : ∀ x, x ∈ seen → (mm.1 <= x)%Q ∧ (x <= mm.2)%Q)
        by (by apply Forall_forall).
      destruct Hmn as [Hmn|Hmn], Hmx as [Hmx|Hmx].
      * destruct (Hin x0) as [? ?]; [by left|].
        rewrite Hmn, Hmx in *. lra.
      * exists mm.2. split; [done|]. destruct (Hin mm.2 Hmx) as [H1 _].
        rewrite Hmn in *. symmetry. apply Q.max_r.
        rewrite (Qabs_pos mm.2) by lra. by rewrite Qabs_pos.
      * exists mm.1. split; [done|]. destruct (Hin mm.1 Hmn) as [_ H1].
        rewrite Hmx in *. symmetry. apply Q.max_l.
        rewrite (Qabs_neg mm.1) by lra. change (Qabs (-1)) with 1%Q. lra.
      * destruct (Q.max_spec (Qabs mm.1) (Qabs mm.2)) as [[_ E]|[_ E]].
        -- exists mm.2. by split.
        -- exists mm.1. by split.
Qed.

(** X16. A click on the waveform never seeks outside the track: the time passed
    to [onSeek] lies in [0, duration], and for a click inside the
    container it is the clicked fraction of the duration. *)
Theorem handleClick_seeks_within_track
    (duration clientX rect_left rect_width : Q) :
  (0 < duration)%Q → (0 < rect_width)%Q →
  ∃ time,
    handleClick duration clientX rect_left rect_width = Some time ∧
    (0 <= time)%Q ∧ (time <= duration)%Q ∧
    ((rect_left <= clientX)%Q → (clientX <= rect_left + rect_width)%Q →
     (time == (clientX - rect_left) / rect_width * duration)%Q).
Proof.
  intros Hd Hw. unfold handleClick.
  destruct (Qeq_bool duration 0) eqn:E.
  { apply Qeq_bool_iff in E. lra. }
  eexists. split; [done|]. set (newTime := (_ / _ * _)%Q).
  split_and!.
  - apply Q.min_glb; [apply Q.le_max_l|lra].
  - apply Q.le_min_r.
  - intros Hleft Hright.
    assert (H0 : (0 <= newTime)%Q).
    { unfold newTime. apply Qmult_le_0_compat; [|lra].
      apply Qle_shift_div_l; [done|lra]. }
    assert (H1 : (newTime <= duration)%Q).
    { unfold newTime.
      assert (Hx : ((clientX - rect_left) / rect_width <= 1)%Q)
        by (apply Qle_shift_div_r; [done|lra]).
      assert (Hx0 : (0 <= (clientX - rect_left) / rect_width)%Q)
        by (apply Qle_shift_div_l; [done|lra]).
      set (f := ((clientX - rect_left) / rect_width)%Q) in *. nra. }
    rewrite (Q.max_r 0 newTime) by done. by apply Q.min_l.
Qed.

Lemma handleClick_seeks_within_track_witness :
  ∃ time,
    handleClick 10 150 100 200 = Some time ∧
    (0 <= time)%Q ∧ (time <= 10)%Q ∧
    ((100 <= 150)%Q → (150 <= 100 + 200)%Q →
     (time == (150 - 100) / 200 * 10)%Q).
Proof.
  apply (handleClick_seeks_within_track 10 150 100 200); reflexivity.
Defined.

(** X22. The blocks drawn for the regions [analyzeSilence] returns, with the
    duration of the buffer, lie inside the canvas: each starts at 0 or
    later, ends at the width or before, and does not end before it
    starts. *)
Theorem detected_blocks_inside_canvas (b : AudioBuffer) (minDuration : Q)
    (offsetWidth : Z) :
  SampleBuffer_inv b → 1 ≤ numberOfChannels b → 0 ≤ offsetWidth →
  ∃ regions,
    analyzeSilence b minDuration = Ok regions ∧
    Forall
      (λ r, (0 <= block_left offsetWidth (duration b) r)%Q ∧
            (block_left offsetWidth (duration b) r <=
             block_right offsetWidth (duration b) r)%Q ∧
            (block_right offsetWidth (duration b) r <=
             inject_Z offsetWidth)%Q)
      regions.
Proof.
  intros Hinv Hch Hw.
  destruct (analyzeSilence_spans b minDuration Hinv Hch)
    as (rawData & _ & Hlen & ->).
  destruct Hinv as [_ Hsr]. eexists. split; [done|].
  apply Forall_fmap, Forall_forall. intros p Hp.
  apply list_elem_of_filter in Hp as [_ Hp].
  pose proof (all_spans_bounds rawData) as Hb.
  eapply Forall_forall in Hb as (_ & H1 & H2 & H3); [|exact Hp].
  rewrite Hlen in H3. unfold block_left, block_right.
  cbn [region_of start end_]. apply block_inside; [|done|..].
  - unfold duration. apply Qlt_shift_div_l; [by apply inject_Z_pos|].
    rewrite Qmult_0_l. apply inject_Z_pos. lia.
  - by apply Qdiv_inject_nonneg.
  - apply Qdiv_inject_le; [done|lia].
  - unfold duration. by apply Qdiv_inject_le.
Qed.

Lemma detected_blocks_inside_canvas_witness :
  ∃ regions,
    analyzeSilence pause_then_tone 0.01 = Ok regions ∧
    Forall
      (λ r, (0 <= block_left 300 (duration pause_then_tone) r)%Q ∧
            (block_left 300 (duration pause_then_tone) r <=
             block_right 300 (duration pause_then_tone) r)%Q ∧
            (block_right 300 (duration pause_then_tone) r <=
             inject_Z 300)%Q)
      regions.
Proof.
  apply (detected_blocks_inside_canvas pause_then_tone 0.01 300).
  - split; [repeat constructor|reflexivity].
  - vm_compute. discriminate.
  - vm_compute. discriminate.
Defined.

(** ** The store version against the value version *)

(** X17. Run in a store where [hb] stands for [b], the store version of
    [analyzeSilence] ends as the value version does: with the same
    exception, or with a new array that holds the regions the value version
    returns, in a store that still holds every object it held. *)
Theorem analyzeSilence_agrees (h : Heap.heap) (hb : Heap.AudioBuffer)
    (b : AudioBuffer) (minDuration : Q) :
  represents h hb b →
  agrees (λ array regions h',
            h' !! array = Some (Heap.RegionArray regions) ∧ h ⊆ h')
    (Heap.analyzeSilence hb minDuration h) (analyzeSilence b minDuration).
Proof.
  intros (Hsr & HL & Hold). apply agrees_run.
  { by apply (frames_analyzeSilence h hb minDuration h). }
  unfold analyzeSilence, getChannelData.
  destruct (stores_hold_read h _ _ _ 0 Hold)
    as [[Hnone ->]|(l & d & Hread & -> & _ & _ & Hl & Hlen)].
  { unfold Heap.analyzeSilence, Heap.getChannelData. by rewrite Hnone. }
  set (sl := fresh (dom h)). set (h1 := <[sl := Heap.RegionArray []]> h).
  assert (Hsl : sl ∉ dom h) by apply is_fresh.
  assert (Hne : sl ≠ l).
  { intros ->. apply Hsl, elem_of_dom. by eexists. }
  pose proof (scan_loop_run l sl d (sampleRate b) minDuration Hne
                (S (length d)) 0 (mkScan false 0 []) h1
                ltac:(unfold h1; by rewrite lookup_insert_ne)
                ltac:(unfold h1; by rewrite lookup_insert_eq)) as Hscan.
  cbn [isSilent silenceStart] in Hscan.
  assert (Hfuel : Z.to_nat (len d) = length d) by (unfold len; lia).
  cbn [mbind result_bind].
  destruct (scan_loop (S (length d)) d (sampleRate b) minDuration 0 _)
    as [st| |]; cbn [mbind result_bind];
    [destruct (isSilent st) eqn:Hsilent;
       [destruct (Qle_bool minDuration _) eqn:Hpass|]|..];
    unfold Heap.analyzeSilence, Heap.getChannelData;
    rewrite Hread, run_bind; unfold Heap.ret at 1; cbv beta iota;
    rewrite run_bind; unfold Heap.alloc at 1; cbv beta iota zeta;
    fold sl h1; cbn [Heap.view_length]; rewrite HL, <- Hlen, Hsr, Hfuel;
    rewrite run_bind.
  - rewrite Hscan. cbv beta iota. cbn [Heap.isSilent Heap.silenceStart].
    rewrite Hpass, run_bind.
    rewrite (run_push_region _ sl (silenceRegions st))
      by (by rewrite lookup_insert_eq).
    cbv beta iota. do 2 eexists. split; [done|].
    by rewrite lookup_insert_eq.
  - rewrite Hscan. cbv beta iota. cbn [Heap.isSilent Heap.silenceStart].
    rewrite Hpass, run_bind. unfold mret, Heap.M_ret, Heap.ret.
    cbv beta iota. do 2 eexists. split; [done|].
    by rewrite lookup_insert_eq.
  - rewrite Hscan. cbv beta iota. cbn [Heap.isSilent Heap.silenceStart].
    rewrite run_bind. unfold mret, Heap.M_ret, Heap.ret.
    cbv beta iota. do 2 eexists. split; [done|].
    by rewrite lookup_insert_eq.
  - destruct (Heap.scan_loop _ _ _ _ _ _ _ h1) as [r h2].
    cbn [fst] in Hscan. by subst r.
  - destruct (Heap.scan_loop _ _ _ _ _ _ _ h1) as [r h2].
    cbn [fst] in Hscan. by subst r.
Qed.

Lemma analyzeSilence_agrees_witness :
  agrees (λ array regions h',
            h' !! array = Some (Heap.RegionArray regions) ∧
            two_frames_store ⊆ h')
    (Heap.analyzeSilence two_frames_handle 0 two_frames_store)
    (analyzeSilence two_frames 0).
Proof.
  apply (analyzeSilence_agrees two_frames_store two_frames_handle two_frames 0).
  split_and!; [done..|]. constructor; [|constructor].
  split; [|done]. unfold two_frames_store. by rewrite lookup_insert_eq.
Defined.

(** X19. Run in a store where [hb] stands for [b], the store version of
    [bufferToWav] ends as the value version does: with the same exception
    or with the same bytes, in a store that still holds every object it
    held. *)
Theorem bufferToWav_agrees (h : Heap.heap) (hb : Heap.AudioBuffer)
    (b : AudioBuffer) (n : Z) :
  represents h hb b →
  agrees (λ bytes bytes' h', bytes = bytes' ∧ h ⊆ h')
    (Heap.bufferToWav hb n h) (bufferToWav b n).
Proof. apply bufferToWav_simulates. Qed.

Lemma bufferToWav_agrees_witness :
  agrees (λ bytes bytes' h', bytes = bytes' ∧ two_frames_store ⊆ h')
    (Heap.bufferToWav two_frames_handle 2 two_frames_store)
    (bufferToWav two_frames 2).
Proof.
  apply (bufferToWav_agrees two_frames_store two_frames_handle two_frames 2).
  split_and!; [done..|]. constructor; [|constructor].
  split; [|done]. unfold two_frames_store. by rewrite lookup_insert_eq.
Defined.

(** X18. Run in a store where [hb] stands for [b] and [lr] is the array [rs],
    the store version of [createProcessedBuffer] ends as the value version
    does: with the same exception, or with a handle that stands for the
    buffer the value version returns, in a store that still holds every
    object it held. *)
Theorem createProcessedBuffer_agrees (h : Heap.heap) (hb : Heap.AudioBuffer)
    (b : AudioBuffer) (lr : Heap.loc) (rs : list Region)
    (context : AudioContext) :
  represents h hb b → h !! lr = Some (Heap.RegionArray rs) →
  agrees (λ hout out h', represents h' hout out ∧ h ⊆ h')
    (Heap.createProcessedBuffer hb lr context h)
    (createProcessedBuffer b rs context).
Proof. apply createProcessedBuffer_simulates. Qed.

Lemma createProcessedBuffer_agrees_witness :
  agrees (λ hout out h', represents h' hout out ∧ two_frames_store ⊆ h')
    (Heap.createProcessedBuffer two_frames_handle 1%nat audio_context
       two_frames_store)
    (createProcessedBuffer two_frames [mkRegion 0 (1 # 8000)] audio_context).
Proof.
  apply (createProcessedBuffer_agrees two_frames_store two_frames_handle
           two_frames 1%nat [mkRegion 0 (1 # 8000)] audio_context).
  - split_and!; [done..|]. constructor; [|constructor].
    split; [|done]. unfold two_frames_store. by rewrite lookup_insert_eq.
  - unfold two_frames_store. rewrite lookup_insert_ne by done.
    by rewrite lookup_insert_eq.
Defined.

(** X20. Run in a store where [hb] stands for [b] and [lr] is the array [rs],
    the store version of [processAudio] ends as the value version does:
    with the same exception or with the same bytes, in a store that still
    holds every object it held. *)
Theorem processAudio_agrees (h : Heap.heap) (hb : Heap.AudioBuffer)
    (b : AudioBuffer) (lr : Heap.loc) (rs : list Region) :
  represents h hb b → h !! lr = Some (Heap.RegionArray rs) →
  agrees (λ bytes bytes' h', bytes = bytes' ∧ h ⊆ h')
    (Heap.processAudio hb lr h) (processAudio b rs).
Proof.
  intros Hb Hlr.
  rewrite (Heap_processAudio_createProcessedBuffer hb lr audio_context).
  unfold processAudio.
  rewrite (processAudio_newBuffer_createProcessedBuffer b rs audio_context).
  rewrite result_bind_assoc. cbn [mbind result_bind].
  apply agrees_bind
    with (R := λ hout out h', represents h' hout out ∧ h ⊆ h');
    [by apply createProcessedBuffer_simulates|].
  intros hout out h' [Hout Hsub].
  assert (Hn : Heap.bufLength hout = bufLength out) by apply Hout.
  rewrite Hn. eapply agrees_weaken; [|by apply bufferToWav_simulates].
  intros bytes bytes' [-> Hsub']. split; [done|]. by etrans.
Qed.

Lemma processAudio_agrees_witness :
  agrees (λ bytes bytes' h', bytes = bytes' ∧ two_frames_store ⊆ h')
    (Heap.processAudio two_frames_handle 1%nat two_frames_store)
    (processAudio two_frames [mkRegion 0 (1 # 8000)]).
Proof.
  apply (processAudio_agrees two_frames_store two_frames_handle two_frames
           1%nat [mkRegion 0 (1 # 8000)]).
  - split_and!; [done..|]. constructor; [|constructor].
    split; [|done]. unfold two_frames_store. by rewrite lookup_insert_eq.
  - unfold two_frames_store. rewrite lookup_insert_ne by done.
    by rewrite lookup_insert_eq.
Defined.
